(** * fetch_feeds.py: the feed harvester, embedded and verified

    The script fetches RSS feeds, normalises every entry into a record,
    classifies it with an ordered list of regular-expression rules, keeps
    the last 14 days, removes duplicates, sorts and writes [items.json].

    Python values are embedded as follows.
    - A [str] is a [list ascii]; an [ascii] stands for the code point of the
      same number, so the embedding covers text in the Latin-1 range
      (U+0000 to U+00FF).  [str.lower], [str.strip], the regex classes [\w]
      and [\d] and case-insensitive matching are written out for that range.
    - [re] patterns are values of [regex], run by a backtracking matcher
      that enumerates the matches in the priority order of the [re] engine.
    - Dates are records of integers, with the proleptic Gregorian ordinal of
      [datetime.date.toordinal].
    - The feed loop threads its two effects, the [entries] list and the
      lines written to [stderr], through an explicit state. *)

From Stdlib Require Import ZArith NArith Ascii String List Bool Lia.
From stdpp Require Import base decidable option list sets gmap strings sorting lexico.
Import ListNotations.

Local Open Scope nat_scope.

(** ** Characters and strings *)

Definition str := list ascii.

(** A string literal as a Python [str]. *)
Definition chars (x : string) : str := list_ascii_of_string x.

Definition ord (c : ascii) : N := N_of_ascii c.
Definition chr (n : N) : ascii := ascii_of_N n.

Definition in_range (lo hi n : N) : bool := (lo <=? n)%N && (n <=? hi)%N.

(** Upper-case letters of Latin-1: A-Z, and U+00C0..U+00DE without the
    multiplication sign U+00D7. *)
Definition is_upper (c : ascii) : bool :=
  let n := ord c in
  in_range 65 90 n || (in_range 192 222 n && negb (n =? 215)%N).

(** [str.lower] on one character. *)
Definition lower_char (c : ascii) : ascii :=
  if is_upper c then chr (ord c + 32) else c.

(** [str.lower] *)
Definition lower (x : str) : str := map lower_char x.

(** [str.isalpha] on one character of Latin-1: the ASCII letters, the
    ordinal indicators U+00AA and U+00BA, the micro sign U+00B5 and the
    letters U+00C0..U+00FF without U+00D7 and U+00F7. *)
Definition is_alpha (c : ascii) : bool :=
  let n := ord c in
  in_range 65 90 n || in_range 97 122 n
  || (n =? 170)%N || (n =? 181)%N || (n =? 186)%N
  || (in_range 192 255 n && negb (n =? 215)%N && negb (n =? 247)%N).

(** [str.isdecimal]: in Latin-1 only 0-9.  This is the class [\d]. *)
Definition is_decimal (c : ascii) : bool := in_range 48 57 (ord c).

(** Characters that are numeric without being decimal: the superscripts
    U+00B2, U+00B3, U+00B9 and the fractions U+00BC..U+00BE. *)
Definition is_numeric (c : ascii) : bool :=
  let n := ord c in
  is_decimal c || (n =? 178)%N || (n =? 179)%N || (n =? 185)%N
  || in_range 188 190 n.

(** The class [\w] of [re] on [str]: alphanumeric or underscore. *)
Definition is_word (c : ascii) : bool :=
  is_alpha c || is_numeric c || (ord c =? 95)%N.

(** [str.isspace] on one character of Latin-1. *)
Definition is_space (c : ascii) : bool :=
  let n := ord c in
  in_range 9 13 n || in_range 28 32 n || (n =? 133)%N || (n =? 160)%N.

(** [str.lstrip()], [str.rstrip()] and [str.strip()] *)
Fixpoint lstrip (x : str) : str :=
  match x with
  | c :: x' => if is_space c then lstrip x' else x
  | [] => []
  end.

Definition rstrip (x : str) : str := rev (lstrip (rev x)).

Definition strip (x : str) : str := rstrip (lstrip x).

(** ** Regular expressions

    The constructs are those the patterns of the script use.  A match is
    searched from a state: the character before the current position (for
    [\b]) and the text that is left. *)

Inductive cset_item :=
| CChar (c : ascii)
| CRange (lo hi : ascii).

Inductive regex :=
| Void                                      (* no alternative at all *)
| Eps
| Lit (c : ascii)
| Cls (neg : bool) (items : list cset_item) (* [...] and [^...] *)
| WordB                                     (* \b *)
| Cat (r1 r2 : regex)
| Alt (r1 r2 : regex)                       (* r1|r2 *)
| Opt (r : regex)                           (* r?, greedy *)
| MinPlus (neg : bool) (items : list cset_item). (* [...]+?, lazy *)

Definition state : Type := option ascii * str.

Definition ascii_eqb (a b : ascii) : bool := (ord a =? ord b)%N.

(** One character against a literal; with [re.I] both are lowered. *)
Definition char_eq (icase : bool) (p c : ascii) : bool :=
  if icase then ascii_eqb (lower_char c) (lower_char p) else ascii_eqb c p.

(** Code points lo..hi, as characters. *)
Definition range_chars (lo hi : ascii) : list ascii :=
  map (fun k => chr (ord lo + N.of_nat k))
      (seq 0 (N.to_nat (ord hi + 1 - ord lo))).

(** With [re.I] a range holds the lowered form of each of its characters,
    and the character under test is lowered before the look-up. *)
Definition item_match (icase : bool) (it : cset_item) (c : ascii) : bool :=
  match it with
  | CChar p => char_eq icase p c
  | CRange lo hi =>
      if icase then existsb (fun x => char_eq true x c) (range_chars lo hi)
      else in_range (ord lo) (ord hi) (ord c)
  end.

Definition cls_match (icase neg : bool) (items : list cset_item) (c : ascii)
  : bool :=
  xorb neg (existsb (fun it => item_match icase it c) items).

Definition word_opt (o : option ascii) : bool :=
  match o with Some c => is_word c | None => false end.

(** [\b]: exactly one of the two neighbours is a word character. *)
Definition at_boundary (st : state) : bool :=
  xorb (word_opt (fst st)) (word_opt (head (snd st))).

(** The lazy repetition of a class: one character, then the shortest
    continuation first. *)
Fixpoint min_plus (p : ascii -> bool) (rest : str) : list state :=
  match rest with
  | c :: rest' => if p c then (Some c, rest') :: min_plus p rest' else []
  | [] => []
  end.

(** All the ways [r] matches at [st], as the states after the match, in the
    order in which the backtracking engine tries them. *)
Fixpoint run (icase : bool) (r : regex) (st : state) : list state :=
  match r with
  | Void => []
  | Eps => [st]
  | Lit p =>
      match snd st with
      | c :: rest => if char_eq icase p c then [(Some c, rest)] else []
      | [] => []
      end
  | Cls neg items =>
      match snd st with
      | c :: rest => if cls_match icase neg items c then [(Some c, rest)] else []
      | [] => []
      end
  | WordB => if at_boundary st then [st] else []
  | Cat r1 r2 => flat_map (run icase r2) (run icase r1 st)
  | Alt r1 r2 => run icase r1 st ++ run icase r2 st
  | Opt r1 => run icase r1 st ++ [st]
  | MinPlus neg items => min_plus (cls_match icase neg items) (snd st)
  end.

(** The match the engine reports at a position: the first one. *)
Definition match_at (icase : bool) (r : regex) (st : state) : option state :=
  head (run icase r st).

(** [re.search(pattern, text)] as a truth value: the start positions are
    tried from left to right, the end of the text included. *)
Fixpoint search_from (icase : bool) (r : regex) (prev : option ascii)
    (rest : str) : bool :=
  match match_at icase r (prev, rest) with
  | Some _ => true
  | None =>
      match rest with
      | c :: rest' => search_from icase r (Some c) rest'
      | [] => false
      end
  end.

Definition re_search (icase : bool) (r : regex) (text : str) : bool :=
  search_from icase r None text.

(** Pattern builders. *)
Definition word (x : string) : regex :=
  fold_right (fun c r => Cat (Lit c) r) Eps (chars x).

Fixpoint alts (rs : list regex) : regex :=
  match rs with
  | [] => Void
  | [r] => r
  | r :: rs' => Alt r (alts rs')
  end.

(** [\b(...)\b] *)
Definition bounded (rs : list regex) : regex :=
  Cat WordB (Cat (alts rs) WordB).

(** [[- ]?] *)
Definition dash_or_space_opt : regex :=
  Opt (Cls false [CChar "-"; CChar " "]).

Definition seqs (rs : list regex) : regex := fold_right Cat Eps rs.

(** ** CATEGORY RULES *)

Definition RULES : list (regex * str) :=
  [ (bounded [word "RBI"; word "repo rate"; word "CPI"; word "WPI";
              word "inflation"; word "GST"; word "Budget"; word "Fiscal";
              word "GDP"; word "SEBI"; word "bank"; word "NBFC";
              word "monetary"; word "bond"; word "yield"; word "FDI"],
     chars "Economy");
    (bounded [word "UN"; word "UNFCCC"; word "BRICS"; word "SCO"; word "G20";
              word "bilateral"; word "MoU"; word "agreement"; word "treaty";
              seqs [word "Indo"; dash_or_space_opt; word "Pacific"];
              word "MEA"; word "summit"; word "dialogue"],
     chars "International Relations");
    (bounded [word "environment"; word "forest"; word "wildlife";
              word "tiger"; word "NTCA"; word "conservation";
              word "pollution"; word "climate"; word "emission";
              seqs [word "biodiversit"; alts [word "y"; word "ies"]]],
     chars "Environment");
    (bounded [word "ISRO"; word "space"; word "satellite"; word "launch";
              word "AI"; word "quantum"; word "semiconductor"; word "science";
              word "technology"; word "DST"; word "MeitY"; word "CSIR"],
     chars "Science & Tech");
    (bounded [word "cyclone"; word "flood"; word "earthquake"; word "NDMA";
              word "disaster"; word "NDRF"; word "security"; word "border";
              word "defence"; word "police"; word "cybersecurity"],
     chars "Security/Disaster");
    (bounded [word "Supreme Court"; word "High Court";
              seqs [word "SC"; WordB]; seqs [word "HC"; WordB];
              word "judgment"; word "verdict"; word "order"],
     chars "Judgments");
    (bounded [word "Bill"; word "Act"; word "Amendment"; word "Ordinance";
              word "Parliament"; word "Lok Sabha"; word "Rajya Sabha";
              word "Gazette"],
     chars "Bills & Acts");
    (bounded [word "Yojana"; word "Mission"; word "Scheme";
              seqs [word "PM"; dash_or_space_opt; Cls false [CRange "A" "Z"]];
              word "SAMARTH";
              seqs [word "PM"; dash_or_space_opt; word "KISAN"];
              word "PMAY"; word "AYUSH"; word "NREGA"; word "Ujjwala";
              word "UDAN"; word "Awas"],
     chars "Schemes");
    (bounded [word "UNESCO"; word "heritage"; word "temple"; word "festival";
              word "culture";
              seqs [word "archaeolog"; alts [word "y"; word "ical"]];
              word "ASI"],
     chars "History & Culture");
    (bounded [word "IMD"; word "monsoon"; word "heatwave";
              seqs [word "El"; dash_or_space_opt; word "Ni"; Lit (chr 241);
                    word "o"];
              seqs [word "La"; dash_or_space_opt; word "Ni"; Lit (chr 241);
                    word "a"];
              word "river"; word "glacier"; word "plateau";
              word "geomorphology"; word "earth"; word "geography"],
     chars "Geography");
    (bounded [word "NITI Aayog"; word "index"; word "report"; word "survey";
              word "ranking"; word "scorecard"; word "white paper"],
     chars "Reports & Indices");
    (bounded [word "Cabinet"; word "Constitution"; word "federal";
              word "Centre"; word "State"; word "ministry"; word "department";
              word "regulation"; word "notification"; word "guideline";
              word "policy"],
     chars "Polity") ].

Definition FALLBACK : str := chars "Polity".

(** ** HELPERS *)

(** [f"{title} {summary} {source_hint}"] *)
Definition classify_text (title summary source_hint : str) : str :=
  title ++ chars " " ++ summary ++ chars " " ++ source_hint.

(** The loop of [classify]: the first rule that matches returns. *)
Fixpoint classify_loop (rules : list (regex * str)) (text : str) : str :=
  match rules with
  | (pattern, cat) :: rules' =>
      if re_search true pattern text then cat else classify_loop rules' text
  | [] => FALLBACK
  end.

Definition classify (title summary source_hint : str) : str :=
  let text := lower (classify_text title summary source_hint) in
  classify_loop RULES text.

(** ** The summary of a record *)

(** Length of the match the engine reports at a position. *)
Definition match_len (icase : bool) (r : regex) (prev : option ascii)
    (rest : str) : option nat :=
  match match_at icase r (prev, rest) with
  | Some (_, rest') => Some (length rest - length rest')
  | None => None
  end.

(** [re.sub(pattern, "", text)]: the text is scanned from left to right;
    where a match starts its characters are dropped and the scan goes on
    behind it.  [skip] counts the characters of the current match that are
    still to drop.  An empty match replaces nothing by nothing. *)
Fixpoint sub_scan (r : regex) (skip : nat) (prev : option ascii) (rest : str)
  : str :=
  match rest with
  | [] => []
  | c :: rest' =>
      match skip with
      | S k => sub_scan r k (Some c) rest'
      | O =>
          match match_len false r prev rest with
          | Some (S k) => sub_scan r k (Some c) rest'
          | _ => c :: sub_scan r 0 (Some c) rest'
          end
      end
  end.

Definition re_sub_empty (r : regex) (text : str) : str :=
  sub_scan r 0 None text.

(** The pattern ["<[^<]+?>"]. *)
Definition tag_pattern : regex :=
  seqs [Lit "<"; MinPlus true [CChar "<"]; Lit ">"].

Definition strip_tags (x : str) : str := re_sub_empty tag_pattern x.

(** From the raw summary to the value stored under ["summary"]: the
    [.strip()] that ends the line of [summary], then
    [re.sub("<[^<]+?>", "", summary)[:450]]. *)
Definition normalize_summary (raw : str) : str :=
  let summary := strip raw in
  take 450 (strip_tags summary).

Local Open Scope char_scope.

Local Open Scope Z_scope.

(** ** Dates

    [datetime.date]: the proleptic Gregorian calendar, years 1 to 9999. *)

Record date := mkdate { year : Z; month : Z; day : Z }.

Definition is_leap (y : Z) : bool :=
  (y mod 4 =? 0) && (negb (y mod 100 =? 0) || (y mod 400 =? 0)).

Definition days_in_month (y m : Z) : Z :=
  match m with
  | 1 => 31 | 2 => if is_leap y then 29 else 28 | 3 => 31 | 4 => 30
  | 5 => 31 | 6 => 30 | 7 => 31 | 8 => 31 | 9 => 30 | 10 => 31
  | 11 => 30 | 12 => 31 | _ => 0
  end.

(** The checks of the [date] constructor; it raises [ValueError] when they
    fail. *)
Definition valid_date (d : date) : bool :=
  (1 <=? year d) && (year d <=? 9999) &&
  (1 <=? month d) && (month d <=? 12) &&
  (1 <=? day d) && (day d <=? days_in_month (year d) (month d)).

Definition days_before_year (y : Z) : Z :=
  let p := y - 1 in p * 365 + p / 4 - p / 100 + p / 400.

Definition days_before_month (y m : Z) : Z :=
  match m with
  | 1 => 0 | 2 => 31 | 3 => 59 | 4 => 90 | 5 => 120 | 6 => 151 | 7 => 181
  | 8 => 212 | 9 => 243 | 10 => 273 | 11 => 304 | 12 => 334 | _ => 0
  end + (if (2 <? m) && is_leap y then 1 else 0).

(** [date.toordinal()]: 1 for 0001-01-01. *)
Definition toordinal (d : date) : Z :=
  days_before_year (year d) + days_before_month (year d) (month d) + day d.

(** [(a - b).days] for two dates. *)
Definition days_between (a b : date) : Z := toordinal a - toordinal b.

(** The day after [d] in the calendar. *)
Definition next_day (d : date) : date :=
  if day d <? days_in_month (year d) (month d)
  then mkdate (year d) (month d) (day d + 1)
  else if month d <? 12 then mkdate (year d) (month d + 1) 1
  else mkdate (year d + 1) 1 1.

(** Calendar order: year, then month, then day. *)
Definition date_le (a b : date) : Prop :=
  year a < year b \/
  (year a = year b /\
   (month a < month b \/ (month a = month b /\ day a <= day b))).

(** *** Formatting and parsing

    [strftime("%Y-%m-%d")].  Month and day are written on two digits,
    zero-filled.  [%Y] is the year in decimal as the C library of the
    platform writes it: on Linux, where the script is run, without
    zero-filling, so that a year below 1000 takes fewer than four
    characters. *)

Definition digit_char (n : Z) : ascii := chr (Z.to_N (48 + n)).

Definition pad2 (n : Z) : str := [digit_char (n / 10 mod 10); digit_char (n mod 10)].

Definition pad4 (n : Z) : str :=
  [digit_char (n / 1000 mod 10); digit_char (n / 100 mod 10);
   digit_char (n / 10 mod 10); digit_char (n mod 10)].

(** The year of a [date], 1 to 9999, in decimal. *)
Definition year_str (y : Z) : str :=
  if y <? 10 then [digit_char y]
  else if y <? 100 then [digit_char (y / 10); digit_char (y mod 10)]
  else if y <? 1000
       then [digit_char (y / 100); digit_char (y / 10 mod 10);
             digit_char (y mod 10)]
       else pad4 y.

Definition strftime_ymd (d : date) : str :=
  year_str (year d) ++ "-"%char :: pad2 (month d) ++ "-"%char :: pad2 (day d).

(** [strptime(dstr, "%Y-%m-%d")].  The library turns the format into the
    pattern
    [(?P<Y>\d\d\d\d)-(?P<m>1[0-2]|0[1-9]|[1-9])-(?P<d>3[0-1]|[1-2]\d|0[1-9]|[1-9]| [1-9])],
    matches it at the start of the string, and fails when the match does
    not reach the end.  A parser gives its results in the order in which
    the backtracking engine finds them. *)

Definition parser (A : Type) : Type := str -> list (A * str).

Definition p_bind {A B} (p : parser A) (f : A -> parser B) : parser B :=
  fun x => flat_map (fun '(a, rest) => f a rest) (p x).

Definition p_ret {A} (a : A) : parser A := fun x => [(a, x)].

Definition p_alt {A} (p q : parser A) : parser A := fun x => p x ++ q x.

(** One decimal digit between [lo] and [hi], as its value. *)
Definition p_digit (lo hi : Z) : parser Z :=
  fun x =>
    match x with
    | c :: rest =>
        let v := Z.of_N (ord c) - 48 in
        if is_decimal c && (lo <=? v) && (v <=? hi) then [(v, rest)] else []
    | [] => []
    end.

Definition p_lit (p : ascii) : parser unit :=
  fun x =>
    match x with
    | c :: rest => if char_eq true p c then [(tt, rest)] else []
    | [] => []
    end.

Section Strptime.

Local Notation "v <- p ;; q" := (p_bind p (fun v => q))
  (at level 100, p at next level, right associativity).

(** [\d\d\d\d] *)
Definition p_year : parser Z :=
  a <- p_digit 0 9 ;; b <- p_digit 0 9 ;; c <- p_digit 0 9 ;;
  d <- p_digit 0 9 ;; p_ret (1000 * a + 100 * b + 10 * c + d).

(** [1[0-2]|0[1-9]|[1-9]] *)
Definition p_month : parser Z :=
  p_alt (_ <- p_lit "1" ;; b <- p_digit 0 2 ;; p_ret (10 + b))
   (p_alt (_ <- p_lit "0" ;; b <- p_digit 1 9 ;; p_ret b)
        (p_digit 1 9)).

(** [3[0-1]|[1-2]\d|0[1-9]|[1-9]| [1-9]] *)
Definition p_day : parser Z :=
  p_alt (_ <- p_lit "3" ;; b <- p_digit 0 1 ;; p_ret (30 + b))
   (p_alt (a <- p_digit 1 2 ;; b <- p_digit 0 9 ;; p_ret (10 * a + b))
   (p_alt (_ <- p_lit "0" ;; b <- p_digit 1 9 ;; p_ret b)
   (p_alt (p_digit 1 9)
        (_ <- p_lit " " ;; b <- p_digit 1 9 ;; p_ret b)))).

(** What follows the year. *)
Definition p_after_year (y : Z) : parser date :=
  _ <- p_lit "-" ;; m <- p_month ;; _ <- p_lit "-" ;;
  d <- p_day ;; p_ret (mkdate y m d).

Definition p_ymd : parser date := y <- p_year ;; p_after_year y.

End Strptime.

(** [datetime.strptime(dstr, "%Y-%m-%d").date()], [None] for [ValueError]:
    no match, text left behind the match, or no such day in the
    calendar. *)
Definition strptime_ymd (dstr : str) : option date :=
  match p_ymd dstr with
  | (d, []) :: _ => if valid_date d then Some d else None
  | _ => None
  end.

(** *** to_ist_ymd *)

(** [time.struct_time], the nine integers feedparser returns in
    [published_parsed] and [updated_parsed]. *)
Record struct_time := mkstruct_time {
  tm_year : Z; tm_mon : Z; tm_mday : Z; tm_hour : Z; tm_min : Z; tm_sec : Z;
  tm_wday : Z; tm_yday : Z; tm_isdst : Z }.

(** A point in time as a date and the second of the day. *)
Definition datetime : Type := date * Z.

(** The [datetime] built from [dt_struct[:6]] with [tzinfo=timezone.utc];
    [None] for the [ValueError] of a field out of range. *)
Definition datetime_utc (t : struct_time) : option datetime :=
  let d := mkdate (tm_year t) (tm_mon t) (tm_mday t) in
  if valid_date d
     && (0 <=? tm_hour t) && (tm_hour t <=? 23)
     && (0 <=? tm_min t) && (tm_min t <=? 59)
     && (0 <=? tm_sec t) && (tm_sec t <=? 59)
  then Some (d, tm_hour t * 3600 + tm_min t * 60 + tm_sec t)
  else None.

(** [IST = timezone(timedelta(hours=5, minutes=30))], in seconds. *)
Definition IST : Z := 5 * 3600 + 30 * 60.

(** [.astimezone(IST)] on a UTC time; [None] for the [OverflowError] when
    the local date would lie behind year 9999. *)
Definition astimezone_IST (dt : datetime) : option datetime :=
  let '(d, s) := dt in
  if s + IST <? 86400 then Some (d, s + IST)
  else if valid_date (next_day d) then Some (next_day d, s + IST - 86400)
  else None.

(** The body of the [try] block, up to [strftime]. *)
Definition ist_date (t : struct_time) : option date :=
  match datetime_utc t with
  | Some utc =>
      match astimezone_IST utc with
      | Some dt => Some (fst dt)
      | None => None
      end
  | None => None
  end.

(** [to_ist_ymd].  [now] is the date [datetime.now(IST)] gives at the call;
    the result [None] is Python's [None]. *)
Definition to_ist_ymd (now : date) (dt_struct : option struct_time)
    (fallback_today : bool) : option str :=
  match dt_struct with
  | None =>
      if fallback_today then Some (strftime_ymd now) else None
  | Some t =>
      match ist_date t with
      | Some dt => Some (strftime_ymd dt)
      | None =>
          if fallback_today then Some (strftime_ymd now) else None
      end
  end.

(** ** FILTER last 14 days *)

(** [within_days]: the [try] block parses and compares, the [except]
    branch answers [True]. *)
Definition within_days (today_ist : date) (dstr : str) (n : Z) : bool :=
  match strptime_ymd dstr with
  | Some dt => days_between today_ist dt <=? n
  | None => true
  end.

(** The records built from the feed entries. *)
Module Rec.
Record t := mk {
  feed_name : str; title : str; link : str; summary : str; date : str }.
End Rec.

(** [entries = [e for e in entries if within_days(e["date"], 14)]] *)
Definition recent (today_ist : date) (entries : list Rec.t) : list Rec.t :=
  List.filter (fun e => within_days today_ist (Rec.date e) 14) entries.

(** ** item_id

    [hashlib.sha1(base.encode("utf-8")).hexdigest()[:12]].  SHA-1 is written
    out on 32-bit words held in [Z]; every addition is reduced modulo
    2^32. *)

(** [str.encode("utf-8")] for code points up to U+00FF: one byte below
    U+0080, two bytes from there on. *)
Definition utf8_char (c : ascii) : list Z :=
  let n := Z.of_N (ord c) in
  if n <? 128 then [n]
  else [Z.lor 192 (Z.shiftr n 6); Z.lor 128 (Z.land n 63)].

Definition encode_utf8 (x : str) : list Z := flat_map utf8_char x.

Module SHA1.

Definition w32 (x : Z) : Z := x mod 2 ^ 32.

Definition add32 (x y : Z) : Z := w32 (x + y).

Definition rotl (n x : Z) : Z :=
  Z.lor (w32 (Z.shiftl x n)) (Z.shiftr x (32 - n)).

(** Big-endian bytes of a number, [k] of them. *)
Fixpoint be_bytes (k : nat) (x : Z) : list Z :=
  match k with
  | O => []
  | S k' => be_bytes k' (Z.shiftr x 8) ++ [Z.land x 255]
  end.

(** The message, the byte 0x80, zeros up to 56 modulo 64, and the length
    in bits on eight bytes. *)
Definition pad (msg : list Z) : list Z :=
  let len := Z.of_nat (length msg) in
  let zeros := Z.to_nat ((55 - len) mod 64) in
  msg ++ 128 :: repeat 0 zeros ++ be_bytes 8 (8 * len).

Definition word_of_bytes (b : list Z) : Z :=
  fold_left (fun acc x => acc * 256 + x) b 0.

(** The 32-bit words of a byte string, four bytes each. *)
Fixpoint words (fuel : nat) (b : list Z) : list Z :=
  match fuel, b with
  | S fuel', _ :: _ => word_of_bytes (take 4 b) :: words fuel' (drop 4 b)
  | _, _ => []
  end.

(** Blocks of 16 words. *)
Fixpoint blocks (fuel : nat) (ws : list Z) : list (list Z) :=
  match fuel, ws with
  | S fuel', _ :: _ => take 16 ws :: blocks fuel' (drop 16 ws)
  | _, _ => []
  end.

(** The message schedule, most recent word first: [rev_ws] holds
    W(t-1), W(t-2), ... *)
Fixpoint schedule (n : nat) (rev_ws : list Z) : list Z :=
  match n with
  | O => rev_ws
  | S n' =>
      let w := rotl 1 (Z.lxor (Z.lxor (nth 2 rev_ws 0) (nth 7 rev_ws 0))
                         (Z.lxor (nth 13 rev_ws 0) (nth 15 rev_ws 0))) in
      schedule n' (w :: rev_ws)
  end.

Definition f (t : nat) (b c d : Z) : Z :=
  if (t <? 20)%nat then Z.lor (Z.land b c) (Z.land (Z.lxor b (2 ^ 32 - 1)) d)
  else if (t <? 40)%nat then Z.lxor (Z.lxor b c) d
  else if (t <? 60)%nat
       then Z.lor (Z.lor (Z.land b c) (Z.land b d)) (Z.land c d)
  else Z.lxor (Z.lxor b c) d.

Definition K (t : nat) : Z :=
  if (t <? 20)%nat then 0x5A827999
  else if (t <? 40)%nat then 0x6ED9EBA1
  else if (t <? 60)%nat then 0x8F1BBCDC
  else 0xCA62C1D6.

Record hash := mkhash { h0 : Z; h1 : Z; h2 : Z; h3 : Z; h4 : Z }.

Definition round (t : nat) (w : Z) (s : hash) : hash :=
  let temp :=
    add32 (add32 (add32 (add32 (rotl 5 (h0 s)) (f t (h1 s) (h2 s) (h3 s)))
                    (h4 s)) (K t)) w in
  mkhash temp (h0 s) (rotl 30 (h1 s)) (h2 s) (h3 s).

Fixpoint rounds (t : nat) (ws : list Z) (s : hash) : hash :=
  match ws with
  | [] => s
  | w :: ws' => rounds (S t) ws' (round t w s)
  end.

Definition compress (s : hash) (block : list Z) : hash :=
  let ws := rev (schedule 64 (rev block)) in
  let r := rounds 0 ws s in
  mkhash (add32 (h0 s) (h0 r)) (add32 (h1 s) (h1 r)) (add32 (h2 s) (h2 r))
         (add32 (h3 s) (h3 r)) (add32 (h4 s) (h4 r)).

Definition init : hash :=
  mkhash 0x67452301 0xEFCDAB89 0x98BADCFE 0x10325476 0xC3D2E1F0.

Definition sha1 (msg : list Z) : hash :=
  let p := pad msg in
  fold_left compress (blocks (length p) (words (length p) p)) init.

Definition hex_digit (n : Z) : ascii :=
  if n <? 10 then chr (Z.to_N (48 + n)) else chr (Z.to_N (87 + n)).

(** Eight hexadecimal digits of a word, most significant first. *)
Definition hex8 (x : Z) : str :=
  map (fun k => hex_digit (Z.shiftr x (4 * Z.of_nat k) mod 16))
      [7; 6; 5; 4; 3; 2; 1; 0]%nat.

Definition hexdigest (s : hash) : str :=
  hex8 (h0 s) ++ hex8 (h1 s) ++ hex8 (h2 s) ++ hex8 (h3 s) ++ hex8 (h4 s).

End SHA1.

(** [item_id]; an argument [None] is Python's [None], which [or ""] turns
    into the empty string. *)
Definition item_id (title link : option str) : str :=
  let base := default [] title ++ chars "|" ++ default [] link in
  take 12 (SHA1.hexdigest (SHA1.sha1 (encode_utf8 base))).

(** ** The order of the sort keys

    Python compares strings by code point, character by character, and
    tuples component by component: the lexicographic orders of stdpp. *)

Global Instance ascii_lexico : Lexico ascii := fun a b => (ord a < ord b)%N.

Global Instance ascii_lexico_po : StrictOrder (@lexico ascii _).
Proof.
  split.
  - intros a. unfold lexico, ascii_lexico. apply N.lt_irrefl.
  - intros a b c. unfold lexico, ascii_lexico. apply N.lt_trans.
Qed.

Global Instance ascii_lexico_trichotomy : TrichotomyT (@lexico ascii _).
Proof.
  intros a b. unfold lexico, ascii_lexico.
  destruct (N.compare (ord a) (ord b)) eqn:E.
  - left; right. apply N.compare_eq_iff in E. unfold ord in E.
    rewrite <- (ascii_N_embedding a), <- (ascii_N_embedding b). now rewrite E.
  - left; left. now apply N.compare_lt_iff.
  - right. now apply N.compare_gt_iff.
Defined.

Abbreviation sort_key_t := (list ascii * list ascii * list ascii)%type.

(** [k1 >= k2] on sort keys. *)
Definition key_ge (k1 k2 : sort_key_t) : Prop := ~ lexico k1 k2.

Global Instance key_ge_dec : RelDecision key_ge.
Proof. intros k1 k2. unfold key_ge. apply _. Defined.

Global Instance key_ge_total : Total key_ge.
Proof.
  intros k1 k2. unfold key_ge.
  destruct (decide (lexico k1 k2)) as [H|H]; [right|now left].
  intros H'. apply (irreflexivity lexico k1). now transitivity k2.
Qed.

Global Instance key_ge_trans : Transitive key_ge.
Proof.
  intros k1 k2 k3 H12 H23 H13. unfold key_ge in *.
  destruct (trichotomyT lexico k2 k3) as [[H|<-]|H]; [tauto|tauto|].
  destruct (trichotomyT lexico k1 k2) as [[H'|<-]|H']; [tauto|tauto|].
  apply (irreflexivity lexico k1).
  transitivity k3; [exact H13|]. now transitivity k2.
Qed.

Global Instance key_ge_refl : Reflexive key_ge.
Proof. intros k. unfold key_ge. apply irreflexivity, _. Qed.

Local Open Scope nat_scope.

(** ** prelims_facts *)

(** [str.replace(old, "")] for a pattern [old] that is not empty: the
    occurrences are taken from left to right and do not overlap.  [skip]
    counts the characters of the current occurrence still to drop. *)
Fixpoint is_prefix_of (old x : str) : bool :=
  match old, x with
  | [], _ => true
  | p :: old', c :: x' => ascii_eqb c p && is_prefix_of old' x'
  | _ :: _, [] => false
  end.

Fixpoint remove_all (old : str) (skip : nat) (x : str) : str :=
  match x with
  | [] => []
  | c :: x' =>
      match skip with
      | S k => remove_all old k x'
      | O =>
          if is_prefix_of old x then remove_all old (length old - 1) x'
          else c :: remove_all old 0 x'
      end
  end.

Definition replace_empty (old x : str) : str := remove_all old 0 x.

(** The characters a URL scheme is made of. *)
Definition is_scheme_char (c : ascii) : bool :=
  let n := ord c in
  in_range 97 122 n || in_range 65 90 n || in_range 48 57 n
  || (n =? 43)%N || (n =? 45)%N || (n =? 46)%N.

Definition is_ascii_alpha (c : ascii) : bool :=
  let n := ord c in in_range 97 122 n || in_range 65 90 n.

(** [url.find(c)] as a split: the text before the first [c] and the text
    behind it. *)
Fixpoint split_at (c : ascii) (x : str) : option (str * str) :=
  match x with
  | [] => None
  | a :: x' =>
      if ascii_eqb a c then Some ([], x')
      else match split_at c x' with
           | Some (pre, post) => Some (a :: pre, post)
           | None => None
           end
  end.

(** The scheme is cut off when the text before the first colon is not
    empty, starts with an ASCII letter and holds scheme characters only. *)
Definition drop_scheme (url : str) : str :=
  match split_at ":" url with
  | Some (c :: pre, post) =>
      if is_ascii_alpha c && forallb is_scheme_char (c :: pre) then post
      else url
  | _ => url
  end.

Definition is_c0_or_space (c : ascii) : bool := (ord c <=? 32)%N.

Definition is_unsafe_byte (c : ascii) : bool :=
  let n := ord c in (n =? 9)%N || (n =? 13)%N || (n =? 10)%N.

Fixpoint lstrip_by (p : ascii -> bool) (x : str) : str :=
  match x with
  | c :: x' => if p c then lstrip_by p x' else x
  | [] => []
  end.

Definition is_netloc_end (c : ascii) : bool :=
  ascii_eqb c "/" || ascii_eqb c "?" || ascii_eqb c "#".

Fixpoint take_until (p : ascii -> bool) (x : str) : str :=
  match x with
  | c :: x' => if p c then [] else c :: take_until p x'
  | [] => []
  end.

Definition has_char (c : ascii) (x : str) : bool :=
  existsb (fun a => ascii_eqb a c) x.

(** The objects written to [items.json]. *)
Module Item.
Record t := mk {
  id : str; date : str; category : str; title : str; source : str;
  link : str; summary : str; prelims : list str; why : str;
  tags : list str }.
End Item.

Section Pipeline.

(** [mains_angle]: a table of twelve sentences and a default.  The
    sentences hold en dashes, outside the character range of the
    embedding, and no property below depends on them. *)
Variable mains_angle : str -> str.

(** The library's check of a bracketed host (an IPv6 literal) in a
    network location; [false] stands for its [ValueError]. *)
Variable check_bracketed_netloc : str -> bool.

(** [urlparse(url).netloc]; [None] for [ValueError].  The text is
    stripped of leading control characters and spaces, of tabs and line
    breaks, and of its scheme; a network location follows [//] and runs
    to the first of [/], [?] and [#]. *)
Definition urlparse_netloc (url : str) : option str :=
  let url := lstrip_by is_c0_or_space url in
  let url := List.filter (fun c => negb (is_unsafe_byte c)) url in
  let url := drop_scheme url in
  match url with
  | "/"%char :: "/"%char :: rest =>
      let netloc := take_until is_netloc_end rest in
      let lb := has_char "[" netloc in
      let rb := has_char "]" netloc in
      if xorb lb rb then None
      else if lb && rb && negb (check_bracketed_netloc netloc) then None
      else Some netloc
  | _ => Some []
  end.

(** [prelims_facts(entry, date_str)]; [None] when [urlparse] raises. *)
Definition prelims_facts (entry : Rec.t) (date_str : str)
  : option (list str) :=
  let out := [chars "Source: " ++ Rec.feed_name entry;
              chars "Date: " ++ date_str] in
  match urlparse_netloc (Rec.link entry) with
  | None => None
  | Some n =>
      let netloc := replace_empty (chars "www.") n in
      match netloc with
      | _ :: _ => Some (out ++ [chars "Domain: " ++ netloc])
      | [] => Some out
      end
  end.

(** ** NORMALIZE TO FRONTEND FORMAT *)

(** The body of the loop over [entries]; [None] when [prelims_facts]
    raises, which ends the run. *)
Definition make_item (e : Rec.t) : option Item.t :=
  let cat := classify (Rec.title e) (Rec.summary e) (Rec.feed_name e) in
  match prelims_facts e (Rec.date e) with
  | Some facts =>
      Some {| Item.id := item_id (Some (Rec.title e)) (Some (Rec.link e));
              Item.date := Rec.date e;
              Item.category := cat;
              Item.title := Rec.title e;
              Item.source := Rec.feed_name e;
              Item.link := Rec.link e;
              Item.summary := Rec.summary e;
              Item.prelims := facts;
              Item.why := chars "Mains angle: " ++ mains_angle cat;
              Item.tags := [] |}
  | None => None
  end.

(** [items]: every entry in turn; the first exception ends the loop. *)
Fixpoint make_items (entries : list Rec.t) : option (list Item.t) :=
  match entries with
  | [] => Some []
  | e :: entries' =>
      match make_item e with
      | Some it =>
          match make_items entries' with
          | Some items => Some (it :: items)
          | None => None
          end
      | None => None
      end
  end.

(** ** DEDUP *)

Definition dedup_key (it : Item.t) : str * str :=
  (Item.title it, Item.link it).

(** The loop over [items], with the set [seen] and the list [deduped] as
    its state. *)
Fixpoint dedup_loop (items : list Item.t) (seen : gset (str * str))
    (deduped : list Item.t) : list Item.t :=
  match items with
  | [] => deduped
  | it :: items' =>
      let key := dedup_key it in
      if decide (key ∈ seen) then dedup_loop items' seen deduped
      else dedup_loop items' ({[key]} ∪ seen) (deduped ++ [it])
  end.

Definition dedup (items : list Item.t) : list Item.t :=
  dedup_loop items ∅ [].

(** ** SORT newest first, then category *)

Definition sort_key (it : Item.t) : sort_key_t :=
  (Item.date it, Item.category it, Item.title it).

(** [a] may stand before [b] in the sorted list. *)
Definition before (a b : Item.t) : Prop := key_ge (sort_key a) (sort_key b).

Global Instance before_dec : RelDecision before.
Proof. intros a b. unfold before. apply _. Defined.

(** [deduped.sort(key=..., reverse=True)]: the items in descending order
    of their keys, items with equal keys in the order they had, since the
    sort of Python is stable, with [reverse=True] too.  There is one such
    list; it is built here by insertion, each item going before the first
    item of the sorted rest that it may stand before. *)
Fixpoint insert_item (it : Item.t) (sorted : list Item.t) : list Item.t :=
  match sorted with
  | [] => [it]
  | x :: rest =>
      if decide (before it x) then it :: sorted
      else x :: insert_item it rest
  end.

Definition sort_items (deduped : list Item.t) : list Item.t :=
  foldr insert_item [] deduped.

(** What is written to [items.json], from the records loaded from the
    feeds; [None] when the run ends with an exception. *)
Definition output (today_ist : date) (entries : list Rec.t)
  : option (list Item.t) :=
  match make_items (recent today_ist entries) with
  | Some items => Some (sort_items (dedup items))
  | None => None
  end.

End Pipeline.

(** ** LOAD FEEDS *)

Module Feed.
Record t := mk { name : str; url : str; default_category : str }.
End Feed.

Definition FEEDS : list Feed.t :=
  [ {| Feed.name := chars "PIB Press Releases (English)";
       Feed.url := chars "https://pib.gov.in/RssMain.aspx?ModId=6&Lang=1&Regid=3";
       Feed.default_category := chars "Governance" |} ].

(** An entry of a parsed feed; [None] is a key the entry does not have. *)
Module Entry.
Record t := mk {
  title : option str; link : option str; summary : option str;
  description : option str; published_parsed : option struct_time;
  updated_parsed : option struct_time }.
End Entry.

(** What [feedparser.parse(url)] does: it raises, with the text of the
    exception, or returns the entries of the feed. *)
Inductive parse_result :=
| Raised (ex : str)
| Parsed (entries : list Entry.t).

(** [a or b] on values that may be missing: a missing value and the empty
    string are false. *)
Definition or_str (a b : option str) : option str :=
  match a with
  | Some (_ :: _) => a
  | _ => b
  end.

(** [a or b] on timestamps: a [struct_time] is never false. *)
Definition or_time (a b : option struct_time) : option struct_time :=
  match a with
  | Some _ => a
  | None => b
  end.

(** The record built in the body of the inner loop.  [to_ist_ymd] is
    called with its default [fallback_today=True] and then never returns
    [None]. *)
Definition make_rec (now : date) (f : Feed.t) (e : Entry.t) : Rec.t :=
  let title := strip (default [] (Entry.title e)) in
  let link := strip (default [] (Entry.link e)) in
  let summary :=
    default [] (or_str (or_str (Entry.summary e) (Entry.description e))
                  (Some [])) in
  let date_str :=
    to_ist_ymd now
      (or_time (Entry.published_parsed e) (Entry.updated_parsed e)) true in
  {| Rec.feed_name := Feed.name f;
     Rec.title := title;
     Rec.link := link;
     Rec.summary := normalize_summary summary;
     Rec.date := default [] date_str |}.

(** The state of the loop over [FEEDS]: the list [entries] and what was
    printed to [sys.stderr]. *)
Record load_state := mkload { entries : list Rec.t; stderr : list str }.

Definition warning (f : Feed.t) (ex : str) : str :=
  chars "[WARN] Failed " ++ Feed.name f ++ chars ": " ++ ex.

(** One turn of the loop: the [try] block appends a record per entry, the
    [except] branch prints the warning. *)
Definition load_feed (now : date) (parse : str -> parse_result)
    (st : load_state) (f : Feed.t) : load_state :=
  match parse (Feed.url f) with
  | Parsed es =>
      mkload (fold_left (fun acc e => acc ++ [make_rec now f e]) es (entries st))
             (stderr st)
  | Raised ex => mkload (entries st) (stderr st ++ [warning f ex])
  end.

Definition load_feeds (now : date) (parse : str -> parse_result)
    (feeds : list Feed.t) : load_state :=
  fold_left (load_feed now parse) feeds (mkload [] []).

(** The whole script: the objects written to [items.json], [None] when
    the run ends with an exception, and the lines printed to [stderr] by
    the loop over the feeds. *)
Definition script (mains_angle : str -> str)
    (check_bracketed_netloc : str -> bool) (parse : str -> parse_result)
    (now today_ist : date) (feeds : list Feed.t)
  : option (list Item.t) * list str :=
  let st := load_feeds now parse feeds in
  (output mains_angle check_bracketed_netloc today_ist (entries st), stderr st).

(** The script as it stands, on its own list of feeds. *)
Definition main (mains_angle : str -> str)
    (check_bracketed_netloc : str -> bool) (parse : str -> parse_result)
    (now today_ist : date) : option (list Item.t) * list str :=
  script mains_angle check_bracketed_netloc parse now today_ist FEEDS.

(** The order of the sort is total and transitive. *)
Global Instance before_total : Total before.
Proof. intros a b. unfold before. apply (total key_ge). Qed.

Global Instance before_trans : Transitive before.
Proof. intros a b c. unfold before. apply (transitivity (R := key_ge)). Qed.

(** ** mains_angle

    The sentences of the table hold en dashes (U+2013), so they are kept as
    lists of code points; the keys are category names. *)

Definition ustr := list N.

(** A literal without characters above U+00FF, as code points. *)
Definition ucs (x : string) : ustr := map ord (chars x).

Definition en_dash : ustr := [8211%N].

Definition mains_angle_M : gmap (list ascii) (list N) :=
  list_to_map
    [ (chars "Economy",
       ucs "Inflation" ++ en_dash ++ ucs "growth, inclusion, fiscal" ++ en_dash
         ++ ucs "monetary, reforms implications.");
      (chars "International Relations",
       ucs "Strategic context for India; treaties, groupings, regional balance.");
      (chars "Environment",
       ucs "Conservation vs development; climate resilience; regulatory capacity.");
      (chars "Science & Tech",
       ucs "Tech sovereignty, public" ++ en_dash
         ++ ucs "private R&D, ethical and strategic issues.");
      (chars "Security/Disaster",
       ucs "Preparedness, response, resilience, reforms in institutions.");
      (chars "Judgments",
       ucs "Implications for rights, federalism, separation of powers.");
      (chars "Bills & Acts",
       ucs "Objectives, key provisions, impact on stakeholders, challenges.");
      (chars "Schemes",
       ucs "Targeting, funding, coverage, leakages, evaluation metrics.");
      (chars "History & Culture",
       ucs "Cultural conservation, tourism, livelihoods, identity debates.");
      (chars "Geography",
       ucs "Resource distribution, disaster risk, human" ++ en_dash
         ++ ucs "environment interactions.");
      (chars "Reports & Indices",
       ucs "Methodology, findings, policy takeaways and limitations.");
      (chars "Polity",
       ucs "Governance design, accountability, centre" ++ en_dash
         ++ ucs "state dynamics, implementation.") ].

Definition mains_angle_default : ustr :=
  ucs "Policy relevance and implementation challenges.".

(** [M.get(cat, "Policy relevance and implementation challenges.")] *)
Definition mains_angle_cp (cat : str) : ustr :=
  default mains_angle_default (mains_angle_M !! cat).

(** * The vocabulary of the properties

    The embedding of the script ends here.  The definitions that follow
    are used to state and prove its properties: the declarative reading
    of a pattern, the predicates of the statements, and a sample run. *)

(** ** What the matcher computes

    [rmatch ic r st st'] is the declarative reading of a pattern: [r]
    matches the text between the states [st] and [st']. *)

Inductive rmatch (ic : bool) : regex -> state -> state -> Prop :=
| RM_Eps st : rmatch ic Eps st st
| RM_Lit p c prev rest :
    char_eq ic p c = true -> rmatch ic (Lit p) (prev, c :: rest) (Some c, rest)
| RM_Cls neg items c prev rest :
    cls_match ic neg items c = true ->
    rmatch ic (Cls neg items) (prev, c :: rest) (Some c, rest)
| RM_WordB st : at_boundary st = true -> rmatch ic WordB st st
| RM_Cat r1 r2 st st1 st2 :
    rmatch ic r1 st st1 -> rmatch ic r2 st1 st2 -> rmatch ic (Cat r1 r2) st st2
| RM_AltL r1 r2 st st' : rmatch ic r1 st st' -> rmatch ic (Alt r1 r2) st st'
| RM_AltR r1 r2 st st' : rmatch ic r2 st st' -> rmatch ic (Alt r1 r2) st st'
| RM_OptSome r st st' : rmatch ic r st st' -> rmatch ic (Opt r) st st'
| RM_OptNone r st : rmatch ic (Opt r) st st
| RM_PlusOne neg items c prev rest :
    cls_match ic neg items c = true ->
    rmatch ic (MinPlus neg items) (prev, c :: rest) (Some c, rest)
| RM_PlusMore neg items c prev rest st' :
    cls_match ic neg items c = true ->
    rmatch ic (MinPlus neg items) (Some c, rest) st' ->
    rmatch ic (MinPlus neg items) (prev, c :: rest) st'.

(** [w] stands in [text] as a whole word: the characters around it, if
    any, are not word characters. *)
Definition word_at (w text : str) : Prop :=
  exists pre post : str,
    text = pre ++ w ++ post /\
    word_opt (last pre) = false /\ word_opt (head post) = false.

(** ** The first rule that matches *)

(** Rule [i] of [rules] is the first one that matches [text], and its
    category is [cat]. *)
Definition first_match (rules : list (regex * str)) (text : str) (i : nat)
    (cat : str) : Prop :=
  exists pattern,
    rules !! i = Some (pattern, cat) /\
    re_search true pattern text = true /\
    forall j pattern' cat',
      j < i -> rules !! j = Some (pattern', cat') ->
      re_search true pattern' text = false.

Definition no_match (rules : list (regex * str)) (text : str) : Prop :=
  forall pattern cat, In (pattern, cat) rules ->
    re_search true pattern text = false.

Local Open Scope char_scope.

(** ** Tags and whitespace *)

Definition no_lt (x : str) : Prop := Forall (fun c => c <> "<"%char) x.
Definition no_gt (x : str) : Prop := Forall (fun c => c <> ">"%char) x.

(** The end of a tag: [>] and nothing else. *)
Definition close_tag : regex := seqs [Lit ">"].

Definition space_opt (o : option ascii) : bool :=
  match o with Some c => is_space c | None => false end.

Definition all_space (x : str) : Prop := Forall (fun c => is_space c = true) x.

Local Open Scope Z_scope.

(** ** The parser and the pattern of the library

    The parsers above find the matches of the pattern that the library
    builds for ["%Y-%m-%d"], in the same order and with the same text
    left over. *)

Definition re_digits (lo hi : ascii) : regex := Cls false [CRange lo hi].

(** [\d\d\d\d] *)
Definition re_year : regex :=
  seqs [re_digits "0" "9"; re_digits "0" "9"; re_digits "0" "9";
        re_digits "0" "9"].

(** [1[0-2]|0[1-9]|[1-9]] *)
Definition re_month : regex :=
  Alt (seqs [Lit "1"; re_digits "0" "2"])
 (Alt (seqs [Lit "0"; re_digits "1" "9"])
      (re_digits "1" "9")).

(** [3[0-1]|[1-2]\d|0[1-9]|[1-9]| [1-9]] *)
Definition re_day : regex :=
  Alt (seqs [Lit "3"; re_digits "0" "1"])
 (Alt (seqs [re_digits "1" "2"; re_digits "0" "9"])
 (Alt (seqs [Lit "0"; re_digits "1" "9"])
 (Alt (re_digits "1" "9")
      (seqs [Lit " "; re_digits "1" "9"])))).

Definition strptime_pattern : regex :=
  seqs [re_year; Lit "-"; re_month; Lit "-"; re_day].

(** The parser [p] leaves behind what the pattern [r] leaves behind. *)
Definition agrees {A} (p : parser A) (r : regex) : Prop :=
  forall prev x, map snd (p x) = map snd (run true r (prev, x)).

(** ** Dates and date strings *)

(** A date in the shape YYYY-MM-DD, the year zero-filled to four digits:
    what [strftime_ymd] writes for the years from 1000 on. *)
Definition iso_ymd (d : date) : str :=
  pad4 (year d) ++ "-"%char :: pad2 (month d) ++ "-"%char :: pad2 (day d).

(** The shape YYYY-MM-DD: ten characters, digits around two hyphens. *)
Definition is_ymd_format (x : str) : bool :=
  match x with
  | [y1; y2; y3; y4; h1; m1; m2; h2; d1; d2] =>
      forallb is_decimal [y1; y2; y3; y4; m1; m2; d1; d2]
      && ascii_eqb h1 "-" && ascii_eqb h2 "-"
  | _ => false
  end.

(** Strictly earlier in the calendar. *)
Definition date_lt (a b : date) : Prop :=
  (year a < year b \/
   (year a = year b /\
    (month a < month b \/ (month a = month b /\ day a < day b))))%Z.

Local Open Scope nat_scope.

(** ** Deduplication *)

(** The items the loop keeps, when [seen] holds the keys met so far. *)
Fixpoint firsts (seen : gset (str * str)) (items : list Item.t)
  : list Item.t :=
  match items with
  | [] => []
  | it :: items' =>
      if decide (dedup_key it ∈ seen) then firsts seen items'
      else it :: firsts ({[dedup_key it]} ∪ seen) items'
  end.

(** ** A sample run, for the instances of the theorems *)

Definition sample_today : date := mkdate 2024 3 15.

Definition sample_recs : list Rec.t :=
  [ Rec.mk (chars "PIB") (chars "RBI hikes repo rate by 25 bps")
      (chars "https://pib.gov.in/x") (chars "") (chars "2024-03-13");
    Rec.mk (chars "PIB") (chars "Cabinet approves Bill")
      (chars "https://www.pib.gov.in/y") (chars "") (chars "2024-03-14");
    Rec.mk (chars "MEA") (chars "RBI hikes repo rate by 25 bps")
      (chars "https://pib.gov.in/x") (chars "again") (chars "2024-03-15");
    Rec.mk (chars "PIB") (chars "Old news")
      (chars "https://pib.gov.in/z") (chars "") (chars "2024-01-01") ].

Definition sample_items : list Item.t :=
  Eval vm_compute in
    default [] (output (fun _ => []) (fun _ => true) sample_today sample_recs).

(** ** Identifiers *)

Definition is_lower_hex (c : ascii) : bool :=
  in_range 48 57 (ord c) || in_range 97 102 (ord c).

(** ** The loop over the feeds *)

(** The records a feed contributes, and the warning it causes. *)
Definition feed_entries (now : date) (parse : str -> parse_result)
    (f : Feed.t) : list Rec.t :=
  match parse (Feed.url f) with
  | Parsed es => map (make_rec now f) es
  | Raised _ => []
  end.

Definition feed_warnings (parse : str -> parse_result) (f : Feed.t)
  : list str :=
  match parse (Feed.url f) with
  | Parsed _ => []
  | Raised ex => [warning f ex]
  end.

(** A run of the script on two feeds: the first raises, the second gives
    the entry of the scenario, published two days before the run. *)
Definition sample_broken : Feed.t :=
  Feed.mk (chars "Broken") (chars "https://broken.example/rss")
    (chars "Governance").

Definition sample_pib : Feed.t :=
  Feed.mk (chars "PIB") (chars "https://pib.gov.in/rss") (chars "Governance").

Definition sample_feeds : list Feed.t := [sample_broken; sample_pib].

Definition sample_parse (url : str) : parse_result :=
  if is_prefix_of url (chars "https://pib.gov.in/rss")
     && is_prefix_of (chars "https://pib.gov.in/rss") url then
    Parsed [ Entry.mk (Some (chars " RBI hikes repo rate by 25 bps "))
               (Some (chars "https://pib.gov.in/x"))
               (Some (chars "<p>The <b>repo rate</b> goes up.</p>")) None
               (Some (mkstruct_time 2024 3 13 19 0 0 2 73 0)) None ]
  else Raised (chars "timed out").

(** ** Vocabulary of the further properties *)

(** A state of the matcher with its text lowered. *)
Definition lower_state (st : state) : state :=
  (lower_char <$> fst st, lower (snd st)).

(** [old] occurs in [x]. *)
Definition occurs (old x : str) : Prop :=
  exists pre post : str, x = pre ++ old ++ post.

(** A text without letters, digits and underscores. *)
Definition no_word_chars (x : str) : Prop :=
  Forall (fun c => is_word c = false) x.

Local Open Scope Z_scope.

(** The date and the time of day that a [struct_time] names. *)
Definition utc_date (t : struct_time) : date :=
  mkdate (tm_year t) (tm_mon t) (tm_mday t).

Definition seconds_of (t : struct_time) : Z :=
  tm_hour t * 3600 + tm_min t * 60 + tm_sec t.

(** Hour, minute and second in the ranges of [datetime]. *)
Definition valid_clock (t : struct_time) : bool :=
  (0 <=? tm_hour t) && (tm_hour t <=? 23)
  && (0 <=? tm_min t) && (tm_min t <=? 59)
  && (0 <=? tm_sec t) && (tm_sec t <=? 59).

(** 18:30:00, the time of day in UTC at which the date changes in IST. *)
Definition ist_midnight : Z := 86400 - IST.

Local Open Scope nat_scope.

(** A feed that is parsed, with an entry whose link [urlparse] rejects. *)
Definition sample_parse_bad (url : str) : parse_result :=
  Parsed [ Entry.mk (Some (chars "Cabinet note"))
             (Some (chars "https://pib.gov.in/x")) None None None None;
           Entry.mk (Some (chars "Budget session"))
             (Some (chars "https://[pib.gov.in/y")) None None None None ].

(** The characters of a plain host name: none that ends the network
    location, none that [urlparse] removes, no square bracket. *)
Definition host_char (c : ascii) : bool :=
  negb (is_netloc_end c) && negb (is_unsafe_byte c)
  && negb (ascii_eqb c "[") && negb (ascii_eqb c "]").

(** A URL scheme: an ASCII letter, then letters, digits, [+], [-], [.]. *)
Definition is_scheme (x : str) : bool :=
  match x with
  | c :: _ => is_ascii_alpha c && forallb is_scheme_char x
  | [] => false
  end.

(** The test for [occurs]. *)
Fixpoint occursb (old x : str) : bool :=
  is_prefix_of old x
  || match x with
     | _ :: x' => occursb old x'
     | [] => false
     end.

(** The pair by which the deduplication tells the items of two records
    apart, and the key by which the sort orders them. *)
Definition rec_key (r : Rec.t) : str * str := (Rec.title r, Rec.link r).

Definition rec_sort_key (r : Rec.t) : sort_key_t :=
  (Rec.date r, classify (Rec.title r) (Rec.summary r) (Rec.feed_name r),
   Rec.title r).

(** A feed with an entry of the year 999. *)
Definition sample_parse_old (url : str) : parse_result :=
  Parsed [ Entry.mk (Some (chars "Cabinet note"))
             (Some (chars "https://pib.gov.in/x")) None None
             (Some (mkstruct_time 999 1 1 0 0 0 1 1 0)) None ].

(** What the sample run of the script writes. *)
Definition sample_run_items : list Item.t :=
  Eval vm_compute in
    default [] (fst (script (fun _ => []) (fun _ => true) sample_parse
                       sample_today sample_today sample_feeds)).

(** * Evaluations and properties *)

(** ** Evaluations on concrete inputs *)

Example classify_ex1 :
  classify (chars "GST Bill passed") (chars "") (chars "PIB") = chars "Economy".
Proof. vm_compute. reflexivity. Qed.

Example classify_ex2 :
  classify (chars "GSTIN Bill passed") (chars "") (chars "PIB") = chars "Bills & Acts".
Proof. vm_compute. reflexivity. Qed.

Example classify_ex3 :
  classify (chars "Hello world") (chars "") (chars "x") = chars "Polity".
Proof. vm_compute. reflexivity. Qed.

Example normalize_summary_ex1 :
  normalize_summary (chars "<b>Hello</b> World") = chars "Hello World".
Proof. vm_compute. reflexivity. Qed.

Example normalize_summary_ex2 :
  normalize_summary (chars "  <p class='x'>a < b</p> <>c<><br/>d > e  ")
  = chars "a < b <>c<>d > e".
Proof. vm_compute. reflexivity. Qed.

Example strip_tags_ex1 : strip_tags (chars "<<a>>") = chars "<>".
Proof. vm_compute. reflexivity. Qed.

Example strip_tags_ex2 : strip_tags (chars "<>>x") = chars "x".
Proof. vm_compute. reflexivity. Qed.

Example strip_tags_ex3 : strip_tags (chars "x<a<b>c>d") = chars "x<ac>d".
Proof. vm_compute. reflexivity. Qed.

Example strip_tags_ex4 : strip_tags (chars "<a>b<c") = chars "b<c".
Proof. vm_compute. reflexivity. Qed.

Local Open Scope char_scope.

Local Open Scope Z_scope.

Example toordinal_ex1 : toordinal (mkdate 1 1 1) = 1.
Proof. reflexivity. Qed.

Example toordinal_ex2 : toordinal (mkdate 2024 3 1) = 738946.
Proof. reflexivity. Qed.

Example days_between_ex :
  days_between (mkdate 2024 3 1) (mkdate 2024 2 28) = 2.
Proof. reflexivity. Qed.

Example strptime_ex1 : strptime_ymd (chars "2024-01-05") = Some (mkdate 2024 1 5).
Proof. reflexivity. Qed.
Example strptime_ex2 : strptime_ymd (chars "2024-1-5") = Some (mkdate 2024 1 5).
Proof. reflexivity. Qed.
Example strptime_ex3 : strptime_ymd (chars "2024-01- 5") = Some (mkdate 2024 1 5).
Proof. reflexivity. Qed.
Example strptime_ex4 : strptime_ymd (chars "2024-10-5") = Some (mkdate 2024 10 5).
Proof. reflexivity. Qed.
Example strptime_ex5 : strptime_ymd (chars "2024-2-29") = Some (mkdate 2024 2 29).
Proof. reflexivity. Qed.
Example strptime_ex6 :
  map strptime_ymd
    (map chars ["0000-01-01"; "2024-02-30"; "2023-02-29"; "2024-13-01";
                "2024-1-32"; "2024-123"; " 2024-01-01"; "2024-01-01 ";
                "2024-01-011"; "2024-00-01"; "2024-1-0"; "24-01-01";
                "2024-01-1x"; ""; "999-01-01"]%string)
  = repeat None 15.
Proof. reflexivity. Qed.
Example strftime_ex1 : strftime_ymd (mkdate 2024 1 5) = chars "2024-01-05".
Proof. reflexivity. Qed.
Example strftime_ex2 : strftime_ymd (mkdate 1 12 31) = chars "1-12-31".
Proof. reflexivity. Qed.

Example to_ist_ymd_ex1 :
  to_ist_ymd (mkdate 2024 3 1)
    (Some (mkstruct_time 2024 2 28 18 29 59 2 59 0)) true
  = Some (chars "2024-02-28").
Proof. reflexivity. Qed.

Example to_ist_ymd_ex2 :
  to_ist_ymd (mkdate 2024 3 1)
    (Some (mkstruct_time 2024 2 29 18 30 0 3 60 0)) true
  = Some (chars "2024-03-01").
Proof. reflexivity. Qed.

Example to_ist_ymd_ex3 :
  to_ist_ymd (mkdate 2024 3 1)
    (Some (mkstruct_time 9999 12 31 18 30 0 4 365 0)) true
  = Some (chars "2024-03-01").
Proof. reflexivity. Qed.

Example to_ist_ymd_ex4 :
  to_ist_ymd (mkdate 2024 3 1)
    (Some (mkstruct_time 2024 2 30 0 0 0 0 0 0)) false = None.
Proof. reflexivity. Qed.

Example within_days_ex1 :
  within_days (mkdate 2024 3 15) (chars "2024-03-01") 14 = true.
Proof. reflexivity. Qed.
Example within_days_ex2 :
  within_days (mkdate 2024 3 15) (chars "2024-02-29") 14 = false.
Proof. reflexivity. Qed.
Example within_days_ex3 :
  within_days (mkdate 2024 3 15) (chars "15 Mar 2024") 14 = true.
Proof. reflexivity. Qed.
Example within_days_ex4 :
  within_days (mkdate 2024 3 15) (chars "2031-01-01") 14 = true.
Proof. reflexivity. Qed.

Example sha1_empty :
  SHA1.hexdigest (SHA1.sha1 (encode_utf8 (chars "")))
  = chars "da39a3ee5e6b4b0d3255bfef95601890afd80709".
Proof. vm_compute. reflexivity. Qed.

Example sha1_abc :
  SHA1.hexdigest (SHA1.sha1 (encode_utf8 (chars "abc")))
  = chars "a9993e364706816aba3e25717850c26c9cd0d89d".
Proof. vm_compute. reflexivity. Qed.

Example sha1_two_blocks :
  SHA1.hexdigest (SHA1.sha1 (encode_utf8
    (chars "abcdbcdecdefdefgefghfghighijhijkijkljklmklmnlmnomnopnopq")))
  = chars "84983e441c3bd26ebaae4aa1f95129e5e54670f1".
Proof. vm_compute. reflexivity. Qed.

Local Open Scope nat_scope.

Example urlparse_ex1 chk :
  map (urlparse_netloc chk)
    (map chars ["https://pib.gov.in/x"; "https://www.pib.gov.in/x";
                "https://awww.example.com/x"; "https://www./x";
                "//www.a.com/p"; "www.a.com/p"; "HTTP://WWW.A.COM";
                "https://user:pw@www.a.com:8080/p?q#f"; "mailto:a@b.c";
                "  https://a.b/c"; "https:///a"; "https://a.b?x";
                "1http://a.b"; "h+t-t.p://a.b"; "h_t://a.b"; "://a.b";
                "https://[a/x"; "https://a]/x"]%string)
  = map (fmap chars)
      [Some "pib.gov.in"; Some "www.pib.gov.in"; Some "awww.example.com";
       Some "www."; Some "www.a.com"; Some ""; Some "WWW.A.COM";
       Some "user:pw@www.a.com:8080"; Some ""; Some "a.b"; Some "";
       Some "a.b"; Some ""; Some "a.b"; Some ""; Some "";
       None; None]%string.
Proof. reflexivity. Qed.

Example replace_ex1 :
  map (replace_empty (chars "www."))
    (map chars ["www.pib.gov.in"; "awww.example.com"; "www."; "wwww.x.com";
                "www.www.a.com"; "wwwww.a"; "WWW.A.COM"; "ww.w.a"]%string)
  = map chars ["pib.gov.in"; "aexample.com"; ""; "wx.com"; "a.com"; "wwa";
               "WWW.A.COM"; "ww.w.a"]%string.
Proof. reflexivity. Qed.

Lemma sample_output :
  output (fun _ => []) (fun _ => true) sample_today sample_recs
  = Some sample_items.
Proof. vm_compute. reflexivity. Qed.

(** Items with equal keys keep the order in which they came, as in
    Python's stable sort. *)
Example sort_items_stable :
  let it (d t l : str) := Item.mk [] d (chars "Economy") t [] l [] [] [] [] in
  map Item.link
    (sort_items
       [it (chars "2024-03-13") (chars "b") (chars "1");
        it (chars "2024-03-14") (chars "a") (chars "2");
        it (chars "2024-03-13") (chars "b") (chars "3");
        it (chars "2024-03-14") (chars "a") (chars "4");
        it (chars "2024-03-13") (chars "b") (chars "5");
        it (chars "2024-03-15") (chars "a") (chars "6");
        it (chars "2024-03-13") (chars "c") (chars "7");
        it (chars "2024-03-13") (chars "b") (chars "8")])
  = map chars ["6"; "2"; "4"; "7"; "1"; "3"; "5"; "8"]%string.
Proof. vm_compute. reflexivity. Qed.

(** Three items with equal keys stay as they are. *)
Example sort_items_ties :
  let it (l : str) :=
    Item.mk [] (chars "2024-03-13") (chars "Economy") (chars "b") [] l [] []
      [] [] in
  map Item.link (sort_items [it (chars "1"); it (chars "2"); it (chars "3")])
  = map chars ["1"; "2"; "3"]%string.
Proof. vm_compute. reflexivity. Qed.

(** An entry dated in the year 999 is written, with its year on three
    digits, whatever the day of the run. *)
Example script_keeps_year_999 :
  option_map (map Item.date)
    (fst (main (fun _ => []) (fun _ => true) sample_parse_old sample_today
            sample_today))
  = Some [chars "999-01-01"].
Proof. vm_compute. reflexivity. Qed.

Example sample_items_keys :
  map (fun it => (Item.date it, Item.category it, Item.title it)) sample_items
  = [ (chars "2024-03-14", chars "Bills & Acts", chars "Cabinet approves Bill");
      (chars "2024-03-13", chars "Economy", chars "RBI hikes repo rate by 25 bps") ].
Proof. reflexivity. Qed.

(** Where the claim and the code agree: the scenario of the
    specification. *)
Example prelims_facts_pib chk :
  prelims_facts chk
    (Rec.mk (chars "PIB") (chars "RBI hikes repo rate by 25 bps")
       (chars "https://pib.gov.in/x") (chars "") (chars "2024-03-13"))
    (chars "2024-03-13")
  = Some [chars "Source: PIB"; chars "Date: 2024-03-13";
          chars "Domain: pib.gov.in"].
Proof. reflexivity. Qed.

Example sample_script :
  script (fun _ => []) (fun _ => true) sample_parse sample_today sample_today
    sample_feeds
  = (Some [ {| Item.id := chars "579a65972b5d";
               Item.date := chars "2024-03-14";
               Item.category := chars "Economy";
               Item.title := chars "RBI hikes repo rate by 25 bps";
               Item.source := chars "PIB";
               Item.link := chars "https://pib.gov.in/x";
               Item.summary := chars "The repo rate goes up.";
               Item.prelims := [chars "Source: PIB"; chars "Date: 2024-03-14";
                                chars "Domain: pib.gov.in"];
               Item.why := chars "Mains angle: ";
               Item.tags := [] |} ],
     [chars "[WARN] Failed Broken: timed out"]).
Proof. vm_compute. reflexivity. Qed.
(** ** The matcher finds the matches of a pattern *)

#[local] Hint Constructors rmatch : core.

Lemma min_plus_sound ic neg items rest prev st' :
  In st' (min_plus (cls_match ic neg items) rest) ->
  rmatch ic (MinPlus neg items) (prev, rest) st'.
Proof.
  revert prev. induction rest as [|c rest IH]; intros prev; simpl; [tauto|].
  destruct (cls_match ic neg items c) eqn:E; simpl; [|tauto].
  intros [<-|H]; eauto.
Qed.

Lemma min_plus_complete ic neg items st st' :
  rmatch ic (MinPlus neg items) st st' ->
  In st' (min_plus (cls_match ic neg items) (snd st)).
Proof.
  remember (MinPlus neg items) as r eqn:Hr.
  induction 1; inversion Hr; subst; simpl in *.
  - rewrite H. now left.
  - rewrite H. right. auto.
Qed.

Lemma run_sound ic r : forall st st', In st' (run ic r st) -> rmatch ic r st st'.
Proof.
  induction r; intros [prev rest] st'; cbn [run snd].
  - intros [].
  - intros [<-|[]]. constructor.
  - destruct rest as [|a rest]; [intros []|].
    destruct (char_eq ic c a) eqn:E; [|intros []].
    intros [<-|[]]. now constructor.
  - destruct rest as [|a rest]; [intros []|].
    destruct (cls_match ic neg items a) eqn:E; [|intros []].
    intros [<-|[]]. now constructor.
  - destruct (at_boundary (prev, rest)) eqn:E; [|intros []].
    intros [<-|[]]. now constructor.
  - rewrite in_flat_map. intros (st1 & H1 & H2). eauto.
  - rewrite in_app_iff. intros [H|H]; eauto.
  - rewrite in_app_iff. intros [H|[<-|[]]]; eauto.
  - apply min_plus_sound.
Qed.

Lemma run_complete ic r st st' : rmatch ic r st st' -> In st' (run ic r st).
Proof.
  induction 1; cbn [run snd];
    rewrite ?H, ?in_app_iff, ?in_flat_map; simpl; eauto.
  - rewrite H. now left.
  - rewrite H. right. apply (min_plus_complete _ _ _ _ _ H0).
Qed.

Lemma run_spec ic r st st' : In st' (run ic r st) <-> rmatch ic r st st'.
Proof. split; [apply run_sound | apply run_complete]. Qed.

Lemma match_at_spec ic r st :
  is_Some (match_at ic r st) <-> exists st', rmatch ic r st st'.
Proof.
  unfold match_at. split.
  - intros [st' H]. exists st'. apply run_sound.
    destruct (run ic r st); inversion H; subst. now left.
  - intros [st' H]. apply run_complete in H.
    destruct (run ic r st); [destruct H | eexists; reflexivity].
Qed.

Lemma match_at_None ic r st st' :
  match_at ic r st = None -> rmatch ic r st st' -> False.
Proof.
  unfold match_at. intros E H. apply run_complete in H.
  destruct (run ic r st); [destruct H | discriminate E].
Qed.

Lemma from_last_cons (p : option ascii) a (l : str) :
  from_option Some p (last (a :: l)) = last (a :: l).
Proof. rewrite last_cons. destruct (last l); reflexivity. Qed.

Lemma search_from_eq ic r prev rest :
  search_from ic r prev rest =
  match match_at ic r (prev, rest) with
  | Some _ => true
  | None =>
      match rest with
      | c :: rest' => search_from ic r (Some c) rest'
      | [] => false
      end
  end.
Proof. destruct rest; reflexivity. Qed.

(** [re.search] finds a match exactly when the pattern matches at some
    position of the text. *)
Lemma search_from_spec ic r rest : forall prev,
  search_from ic r prev rest = true <->
  exists (pre post : str) (st' : state),
    rest = pre ++ post /\
    rmatch ic r (from_option Some prev (last pre), post) st'.
Proof.
  induction rest as [|c rest IH]; intros prev; rewrite search_from_eq;
    destruct (match_at ic r (prev, _)) eqn:E.
  - split; [intros _|reflexivity].
    destruct (proj1 (match_at_spec ic r (prev, []))) as [st' H]; [eauto|].
    exists [], [], st'. split; [reflexivity|exact H].
  - split; [discriminate|]. intros (pre & post & st' & Heq & H).
    symmetry in Heq. apply app_eq_nil in Heq as [-> ->]. cbn in H.
    destruct (match_at_None _ _ _ _ E H).
  - split; [intros _|reflexivity].
    destruct (proj1 (match_at_spec ic r (prev, c :: rest))) as [st' H];
      [eauto|].
    exists [], (c :: rest), st'. split; [reflexivity|exact H].
  - rewrite IH. split.
    + intros (pre & post & st' & -> & H).
      exists (c :: pre), post, st'. split; [reflexivity|].
      destruct pre as [|a pre]; [exact H|].
      rewrite last_cons_cons, from_last_cons.
      now rewrite from_last_cons in H.
    + intros (pre & post & st' & Heq & H).
      destruct pre as [|a pre].
      * cbn in Heq, H. subst post.
        destruct (match_at_None _ _ _ _ E H).
      * injection Heq as <- ->. exists pre, post, st'.
        split; [reflexivity|].
        destruct pre as [|b pre]; [exact H|].
        rewrite last_cons_cons, from_last_cons in H.
        now rewrite from_last_cons.
Qed.

Lemma re_search_spec ic r text :
  re_search ic r text = true <->
  exists (pre post : str) (st' : state),
    text = pre ++ post /\ rmatch ic r (last pre, post) st'.
Proof.
  unfold re_search. rewrite search_from_spec.
  split; intros (pre & post & st' & Heq & H); exists pre, post, st';
    (split; [exact Heq|]); destruct (last pre); exact H.
Qed.

(** ** Keywords *)

Ltac all_chars c :=
  destruct c as [[] [] [] [] [] [] [] []]; vm_compute; try reflexivity.

Lemma is_word_lower c : is_word (lower_char c) = is_word c.
Proof. all_chars c. Qed.

Lemma ascii_eqb_eq a b : ascii_eqb a b = true <-> a = b.
Proof.
  unfold ascii_eqb, ord. rewrite N.eqb_eq. split; [|now intros ->].
  intros H. rewrite <- (ascii_N_embedding a), <- (ascii_N_embedding b).
  now rewrite H.
Qed.

Lemma lower_app (x y : str) : lower (x ++ y) = lower x ++ lower y.
Proof. apply map_app. Qed.

Lemma last_lower (x : str) : last (lower x) = lower_char <$> last x.
Proof. unfold lower. now rewrite <- fmap_last. Qed.

Lemma head_lower (x : str) : head (lower x) = lower_char <$> head x.
Proof. now destruct x. Qed.

Lemma word_opt_lower o : word_opt (lower_char <$> o) = word_opt o.
Proof. destruct o; [apply is_word_lower | reflexivity]. Qed.

(** A keyword matches any text that is equal to it up to case. *)
Lemma rmatch_word x : forall (w rest : str) prev,
  lower w = lower (chars x) ->
  rmatch true (word x) (prev, w ++ rest) (from_option Some prev (last w), rest).
Proof.
  unfold word. induction (chars x) as [|p ps IH]; intros w rest prev Hw.
  - destruct w; [constructor | discriminate Hw].
  - destruct w as [|c w]; [discriminate Hw|].
    injection Hw as Hc Hw. cbn [fold_right].
    apply RM_Cat with (st1 := (Some c, w ++ rest)).
    + constructor. unfold char_eq. now apply ascii_eqb_eq.
    + rewrite <- (from_last_cons prev c w), last_cons.
      specialize (IH w rest (Some c) Hw).
      destruct (last w); exact IH.
Qed.

Lemma rmatch_alts ic r rs st st' :
  In r rs -> rmatch ic r st st' -> rmatch ic (alts rs) st st'.
Proof.
  induction rs as [|r0 rs IH]; [intros []|].
  intros [->|Hin] H.
  - destruct rs; [exact H | now apply RM_AltL].
  - destruct rs as [|r1 rs]; [destruct Hin|].
    apply RM_AltR. now apply IH.
Qed.

(** A rule [\b(...|kw|...)\b] matches every text in which the keyword
    stands as a whole word, in any case. *)
Lemma bounded_keyword kw rs (w text : str) :
  In (word kw) rs -> w <> [] -> Forall (fun c => is_word c = true) w ->
  lower w = lower (chars kw) -> word_at w text ->
  re_search true (bounded rs) (lower text) = true.
Proof.
  intros Hin Hne Hword Hw (pre & post & -> & Hpre & Hpost).
  apply re_search_spec.
  exists (lower pre), (lower (w ++ post)),
    (from_option Some (last (lower pre)) (last (lower w)), lower post).
  split; [now rewrite <- lower_app|].
  assert (Hlw : Forall (fun c => is_word c = true) (lower w)).
  { unfold lower. rewrite List.Forall_forall in Hword |- *.
    intros c Hc. apply in_map_iff in Hc as (c0 & <- & Hc0).
    rewrite is_word_lower. now apply Hword. }
  assert (Hlne : lower w <> []) by (destruct w; [congruence|discriminate]).
  unfold bounded. rewrite lower_app.
  eapply RM_Cat; [|eapply RM_Cat].
  - apply RM_WordB. unfold at_boundary. cbn [fst snd].
    rewrite last_lower, word_opt_lower, Hpre.
    destruct (lower w) as [|c lw]; [congruence|].
    cbn. now inversion Hlw.
  - apply (rmatch_alts _ _ _ _ _ Hin). apply rmatch_word.
    rewrite <- Hw. unfold lower. rewrite map_map. apply map_ext.
    intros c. all_chars c.
  - apply RM_WordB. unfold at_boundary. cbn [fst snd].
    rewrite head_lower, word_opt_lower, Hpost.
    destruct (lower w) as [|c lw] using rev_ind; [congruence|].
    rewrite last_snoc. cbn. apply Forall_app in Hlw as [_ Hc].
    inversion Hc as [|? ? Hc' ?]. now rewrite Hc'.
Qed.

(** ** classify *)

Lemma classify_loop_spec rules text :
  (exists i, first_match rules text i (classify_loop rules text)) \/
  (no_match rules text /\ classify_loop rules text = FALLBACK).
Proof.
  induction rules as [|[pattern cat] rules IH]; cbn [classify_loop].
  - right. split; [intros ? ? []|reflexivity].
  - destruct (re_search true pattern text) eqn:E.
    + left. exists 0, pattern. repeat split; [exact E|]. intros; lia.
    + destruct IH as [(i & pat & Hi & Hm & Hlt)|[Hno Hfb]].
      * left. exists (S i), pat. repeat split; [exact Hi|exact Hm|].
        intros [|j] pattern' cat' Hj Hlook.
        -- injection Hlook as <- <-. exact E.
        -- apply (Hlt j pattern' cat'); [lia|exact Hlook].
      * right. split; [|exact Hfb].
        intros p c [Heq|Hin]; [injection Heq as <- <-; exact E|eauto].
Qed.

Lemma classify_loop_head pattern cat rules text :
  re_search true pattern text = true ->
  classify_loop ((pattern, cat) :: rules) text = cat.
Proof. intros H. cbn [classify_loop]. now rewrite H. Qed.

(** C1.  [classify] joins title, summary and source name with single
    spaces, lowers the text, and tries the 12 rules in their fixed order,
    Economy first and Polity last: its result is the category of the first
    rule that matches, and [Polity] when none does.  The result is a
    function of the three strings.  A text in which GST stands as a word,
    in any case, is classified as Economy whatever else it contains, Bill
    included. *)
Theorem classify_first_match (title summary source_hint : str) :
  let text := lower (title ++ chars " " ++ summary ++ chars " " ++ source_hint) in
  map snd RULES =
    map chars ["Economy"; "International Relations"; "Environment";
               "Science & Tech"; "Security/Disaster"; "Judgments";
               "Bills & Acts"; "Schemes"; "History & Culture"; "Geography";
               "Reports & Indices"; "Polity"]%string /\
  ((exists i, first_match RULES text i (classify title summary source_hint)) \/
   (no_match RULES text /\
    classify title summary source_hint = chars "Polity")) /\
  (forall c1 c2,
     classify title summary source_hint = c1 ->
     classify title summary source_hint = c2 -> c1 = c2) /\
  (forall w : str,
     lower w = chars "gst" ->
     word_at w (title ++ chars " " ++ summary ++ chars " " ++ source_hint) ->
     classify title summary source_hint = chars "Economy") /\
  classify (chars "GST Bill") (chars "Bill to amend GST") (chars "PIB")
    = chars "Economy".
Proof.
  cbv zeta. split; [reflexivity|]. split; [|split; [|split]].
  - apply classify_loop_spec.
  - intros c1 c2 <- <-. reflexivity.
  - intros w Hw Hat. unfold classify.
    change RULES with (hd (Void, []) RULES :: tl RULES).
    apply classify_loop_head. cbn [hd RULES].
    apply (bounded_keyword "GST" _ w); [cbn; tauto| | |exact Hw|exact Hat].
    + intros ->. discriminate Hw.
    + destruct w as [|a [|b [|c [|? ?]]]]; try discriminate Hw.
      injection Hw as Ha Hb Hc.
      repeat constructor; rewrite <- is_word_lower;
        [rewrite Ha|rewrite Hb|rewrite Hc]; reflexivity.
  - vm_compute. reflexivity.
Qed.

Lemma classify_first_match_witness :
  classify (chars "New GST rates") (chars "The Bill was passed") (chars "PIB")
  = chars "Economy".
Proof.
  destruct (classify_first_match (chars "New GST rates")
              (chars "The Bill was passed") (chars "PIB"))
    as (_ & _ & _ & H & _).
  apply (H (chars "GST")).
  - reflexivity.
  - exists (chars "New "), (chars " rates The Bill was passed PIB").
    repeat split; reflexivity.
Defined.

Local Open Scope char_scope.

(** ** The summary of a record *)

Lemma not_lt_cls c : c <> "<"%char -> cls_match false true [CChar "<"] c = true.
Proof.
  intros Hc. unfold cls_match, item_match, char_eq. cbn [existsb].
  destruct (ascii_eqb c "<") eqn:E; [|reflexivity].
  apply ascii_eqb_eq in E. contradiction.
Qed.

Lemma lit_ne p c : c <> p -> char_eq false p c = false.
Proof.
  intros Hc. unfold char_eq. destruct (ascii_eqb c p) eqn:E; [|reflexivity].
  apply ascii_eqb_eq in E. contradiction.
Qed.

Lemma lit_eq p : char_eq false p p = true.
Proof. unfold char_eq. now apply ascii_eqb_eq. Qed.

(** The pattern does not look at the character before the match. *)
Lemma tag_match_len_prev prev prev' rest :
  match_len false tag_pattern prev rest = match_len false tag_pattern prev' rest.
Proof.
  unfold match_len, match_at, tag_pattern. cbn [seqs fold_right run snd].
  destruct rest as [|c rest]; [reflexivity|].
  destruct (char_eq false "<" c); reflexivity.
Qed.

Lemma sub_scan_prev rest : forall skip prev prev',
  sub_scan tag_pattern skip prev rest = sub_scan tag_pattern skip prev' rest.
Proof.
  induction rest as [|c rest IH]; intros skip prev prev'; [reflexivity|].
  cbn [sub_scan]. destruct skip as [|k]; [|reflexivity].
  now rewrite (tag_match_len_prev prev prev').
Qed.

(** No tag starts at a character other than [<]. *)
Lemma tag_match_len_other prev c rest :
  c <> "<"%char -> match_len false tag_pattern prev (c :: rest) = None.
Proof.
  intros Hc. unfold match_len, match_at, tag_pattern.
  cbn [seqs fold_right run snd]. now rewrite (lit_ne _ _ Hc).
Qed.

Lemma run_Cat ic r1 r2 st :
  run ic (Cat r1 r2) st = flat_map (run ic r2) (run ic r1 st).
Proof. reflexivity. Qed.

Lemma run_Lit_eq p prev rest :
  run false (Lit p) (prev, p :: rest) = [(Some p, rest)].
Proof. cbn [run snd]. now rewrite lit_eq. Qed.

Lemma run_Lit_ne p c prev rest :
  c <> p -> run false (Lit p) (prev, c :: rest) = [].
Proof. intros Hc. cbn [run snd]. now rewrite (lit_ne _ _ Hc). Qed.

Lemma close_tag_gt prev b : run false close_tag (prev, ">" :: b) = [(Some ">", b)].
Proof. unfold close_tag, seqs, fold_right. now rewrite run_Cat, run_Lit_eq. Qed.

Lemma close_tag_other prev c b :
  c <> ">" -> run false close_tag (prev, c :: b) = [].
Proof.
  intros Hc. unfold close_tag, seqs, fold_right.
  now rewrite run_Cat, (run_Lit_ne _ _ _ _ Hc).
Qed.

(** Behind [<], the lazy repetition stops at the first [>] that follows at
    least one character. *)
Lemma tag_body_first body : forall c b,
  c <> "<" -> no_lt body -> no_gt body ->
  head (flat_map (run false close_tag)
          (min_plus (cls_match false true [CChar "<"]) (c :: body ++ ">" :: b)))
  = Some (Some ">", b).
Proof.
  induction body as [|c' body IH]; intros c b Hc Hlt Hgt.
  - cbn [app min_plus]. rewrite (not_lt_cls _ Hc).
    cbn [flat_map]. now rewrite close_tag_gt.
  - inversion Hlt as [|? ? Hc'lt Hlt']; inversion Hgt as [|? ? Hc'gt Hgt'];
      subst.
    change (c :: (c' :: body) ++ ">" :: b)
      with (c :: c' :: body ++ ">" :: b).
    remember (c' :: body ++ ">" :: b) as rest eqn:Hrest.
    cbn [min_plus]. rewrite (not_lt_cls _ Hc). cbn [flat_map]. subst rest.
    rewrite (close_tag_other _ _ _ Hc'gt). cbn [app].
    apply (IH c' b Hc'lt Hlt' Hgt').
Qed.

Lemma run_tag_lt prev rest :
  run false tag_pattern (prev, "<" :: rest)
  = flat_map (run false close_tag)
      (min_plus (cls_match false true [CChar "<"]) rest).
Proof.
  unfold tag_pattern, seqs. cbn [fold_right].
  rewrite run_Cat, run_Lit_eq. cbn [flat_map]. rewrite app_nil_r.
  now rewrite run_Cat.
Qed.

Lemma tag_match_len_tag prev c body b :
  c <> "<" -> c <> ">" -> no_lt body -> no_gt body ->
  match_len false tag_pattern prev ("<" :: c :: body ++ ">" :: b)
  = Some (S (S (length body + 1))).
Proof.
  intros Hc Hc' Hlt Hgt. unfold match_len, match_at.
  rewrite run_tag_lt, (tag_body_first body c b Hc Hlt Hgt).
  f_equal. cbn [length]. rewrite length_app. cbn [length]. lia.
Qed.

Lemma sub_scan_skip r (x : str) : forall prev (b : str),
  sub_scan r (length x) prev (x ++ b) = sub_scan r 0 (from_option Some prev (last x)) b.
Proof.
  induction x as [|c x IH]; intros prev b; [reflexivity|].
  cbn [length app sub_scan]. rewrite IH. rewrite <- (from_last_cons prev c x).
  rewrite last_cons. now destruct (last x).
Qed.

(** Text without [<] passes unchanged, up to the first [<]. *)
Lemma strip_tags_plain (a b : str) :
  no_lt a -> strip_tags (a ++ b) = a ++ strip_tags b.
Proof.
  unfold strip_tags, re_sub_empty. generalize (@None ascii) as prev.
  induction a as [|c a IH]; intros prev Hlt; [reflexivity|].
  inversion Hlt as [|? ? Hc Hlt']; subst.
  cbn [app sub_scan]. rewrite (tag_match_len_other _ _ _ Hc).
  f_equal. rewrite (IH (Some c) Hlt'). f_equal. apply sub_scan_prev.
Qed.

(** A tag [<body>], with a body that is not empty and holds neither [<] nor
    [>], is removed. *)
Lemma strip_tags_tag (body b : str) :
  body <> [] -> no_lt body -> no_gt body ->
  strip_tags ("<" :: body ++ ">" :: b) = strip_tags b.
Proof.
  intros Hne Hlt Hgt. destruct body as [|c body]; [congruence|].
  inversion Hlt as [|? ? Hc Hlt']; inversion Hgt as [|? ? Hc' Hgt']; subst.
  unfold strip_tags, re_sub_empty.
  change ("<" :: (c :: body) ++ ">" :: b)%char
    with ("<" :: c :: body ++ ">" :: b)%char.
  cbn [sub_scan]. rewrite (tag_match_len_tag None c body b Hc Hc' Hlt' Hgt').
  cbn [sub_scan].
  replace (body ++ ">" :: b)%char with ((body ++ [">"%char]) ++ b)
    by now rewrite <- app_assoc.
  replace (length body + 1) with (length (body ++ [">"%char]))
    by (rewrite length_app; reflexivity).
  rewrite sub_scan_skip. apply sub_scan_prev.
Qed.

Lemma last_rev (x : str) : last (rev x) = head x.
Proof. destruct x as [|c x]; [reflexivity|]. cbn [rev]. apply last_snoc. Qed.

Lemma head_rev (x : str) : head (rev x) = last x.
Proof. now rewrite <- (rev_involutive x) at 2; rewrite last_rev. Qed.

Lemma lstrip_spec (x : str) :
  exists l : str,
    x = l ++ lstrip x /\ all_space l /\ space_opt (head (lstrip x)) = false.
Proof.
  induction x as [|c x (l & Hx & Hl & Hh)].
  - exists []. repeat split. constructor.
  - cbn [lstrip]. destruct (is_space c) eqn:E.
    + exists (c :: l). repeat split; [now rewrite Hx at 1| |exact Hh].
      now constructor.
    + exists []. repeat split; [constructor|exact E].
Qed.

Lemma rstrip_spec (x : str) :
  exists r : str,
    x = rstrip x ++ r /\ all_space r /\ space_opt (last (rstrip x)) = false.
Proof.
  destruct (lstrip_spec (rev x)) as (l & Hx & Hl & Hh).
  exists (rev l). unfold rstrip. repeat split.
  - rewrite <- rev_app_distr, <- Hx. now rewrite rev_involutive.
  - unfold all_space in *. rewrite List.Forall_forall in Hl |- *.
    intros c Hc. apply Hl. now apply in_rev.
  - now rewrite last_rev.
Qed.

(** [strip] removes a run of whitespace at each end, and what is left
    neither starts nor ends with whitespace. *)
Lemma strip_spec (x : str) :
  exists l r : str,
    x = l ++ strip x ++ r /\ all_space l /\ all_space r /\
    space_opt (head (strip x)) = false /\ space_opt (last (strip x)) = false.
Proof.
  destruct (lstrip_spec x) as (l & Hx & Hl & Hh).
  destruct (rstrip_spec (lstrip x)) as (r & Hy & Hr & Hlast).
  exists l, r. unfold strip. repeat split; try assumption.
  - now rewrite <- Hy.
  - destruct (rstrip (lstrip x)) as [|d y] eqn:E; [reflexivity|].
    rewrite Hy in Hh. exact Hh.
Qed.

Lemma strip_id (x : str) :
  space_opt (head x) = false -> space_opt (last x) = false -> strip x = x.
Proof.
  intros Hh Hl. unfold strip.
  assert (Hx : lstrip x = x).
  { destruct x as [|c x]; [reflexivity|]. cbn in Hh |- *. now rewrite Hh. }
  rewrite Hx. unfold rstrip.
  assert (Hr : lstrip (rev x) = rev x).
  { rewrite <- head_rev in Hl. destruct (rev x) as [|c y]; [reflexivity|].
    cbn in Hl |- *. now rewrite Hl. }
  rewrite Hr. apply rev_involutive.
Qed.

(** C6, as the code has it.  The summary of a record is the raw summary
    with the whitespace at both ends trimmed, the tags removed by the
    pass of [re.sub] and the result cut to its first 450 characters: text
    without [<] is kept, a tag [<body>] is dropped, no more than 450
    characters are kept and exactly 450 when the stripped text is longer.
    A raw summary that neither starts nor ends with whitespace is
    normalised as the claim says. *)
Theorem normalize_summary_spec (raw : str) :
  let stripped := strip_tags (strip raw) in
  normalize_summary raw = take 450 stripped /\
  (exists l r : str,
     raw = l ++ strip raw ++ r /\ all_space l /\ all_space r /\
     space_opt (head (strip raw)) = false /\
     space_opt (last (strip raw)) = false) /\
  (forall a body b : str,
     no_lt a -> body <> [] -> no_lt body -> no_gt body ->
     strip_tags (a ++ "<" :: body ++ ">" :: b) = a ++ strip_tags b) /\
  (forall a : str, no_lt a -> strip_tags a = a) /\
  length (normalize_summary raw) = min 450 (length stripped) /\
  (450 < length stripped -> length (normalize_summary raw) = 450) /\
  (space_opt (head raw) = false -> space_opt (last raw) = false ->
   normalize_summary raw = take 450 (strip_tags raw)) /\
  normalize_summary (chars "<b>Hello</b> World") = chars "Hello World".
Proof.
  cbv zeta. unfold normalize_summary.
  split; [reflexivity|]. split; [apply strip_spec|].
  split; [|split; [|split; [|split; [|split]]]].
  - intros a body b Ha Hne Hlt Hgt.
    rewrite (strip_tags_plain a _ Ha). f_equal.
    now apply strip_tags_tag.
  - intros a Ha. rewrite <- (app_nil_r a) at 1.
    rewrite (strip_tags_plain a [] Ha). cbn. apply app_nil_r.
  - rewrite length_take. lia.
  - intros H. rewrite length_take. lia.
  - intros Hh Hl. now rewrite (strip_id raw Hh Hl).
  - vm_compute. reflexivity.
Qed.

Lemma normalize_summary_spec_witness :
  length (normalize_summary (repeat "a" 451)) = 450.
Proof.
  apply (normalize_summary_spec (repeat "a" 451)).
  vm_compute. lia.
Defined.

(** C6, as stated, fails on a summary that starts with a space: the code
    trims it before the tags are removed, the claim keeps it. *)
Lemma normalize_summary_trims :
  normalize_summary (chars " Hello") = chars "Hello" /\
  take 450 (strip_tags (chars " Hello")) = chars " Hello" /\
  normalize_summary (chars " Hello") <> take 450 (strip_tags (chars " Hello")).
Proof. repeat split. vm_compute. discriminate. Qed.

Local Open Scope Z_scope.

(** ** Dates

    Parsing returns dates of the calendar, and reads back the dates
    written in the shape YYYY-MM-DD. *)

Lemma strptime_valid dstr d : strptime_ymd dstr = Some d -> valid_date d = true.
Proof.
  unfold strptime_ymd. destruct (p_ymd dstr) as [|[d' [|? ?]] ?]; try discriminate.
  destruct (valid_date d') eqn:E; [|discriminate]. now intros [= <-].
Qed.

Lemma strptime_head dstr d :
  head (p_ymd dstr) = Some (d, []) -> valid_date d = true ->
  strptime_ymd dstr = Some d.
Proof.
  unfold strptime_ymd. destruct (p_ymd dstr) as [|[d' r] ?]; [discriminate|].
  intros [= -> ->] ->. reflexivity.
Qed.

(** Case analysis on an integer known to lie in [0, bound]. *)
Ltac enum_nat k :=
  first [ exfalso; lia | destruct k as [|k]; [ | enum_nat k ] ].

Ltac enum_Z m bound :=
  let k := fresh "k" in
  let Hk := fresh "Hk" in
  assert (Hk : exists k : nat, m = Z.of_nat k /\ (k <= bound)%nat)
    by (exists (Z.to_nat m); lia);
  destruct Hk as (k & -> & Hk);
  enum_nat k; cbv [Z.of_nat Pos.of_succ_nat Pos.succ] in *.

Lemma digit_char_decimal n :
  0 <= n <= 9 ->
  is_decimal (digit_char n) = true /\ Z.of_N (ord (digit_char n)) - 48 = n.
Proof. intros Hn. enum_Z n 9%nat; split; reflexivity. Qed.

Lemma p_digit_char lo hi n rest :
  0 <= n <= 9 -> lo <= n <= hi ->
  p_digit lo hi (digit_char n :: rest) = [(n, rest)].
Proof.
  intros Hn [Hlo Hhi]. apply Z.leb_le in Hlo, Hhi.
  destruct (digit_char_decimal n Hn) as [Hdec Hval].
  unfold p_digit. cbv zeta. now rewrite Hdec, Hval, Hlo, Hhi.
Qed.

Lemma p_year_pad4 y rest :
  0 <= y <= 9999 -> p_year (pad4 y ++ rest) = [(y, rest)].
Proof.
  intros Hy. unfold p_year, p_bind, pad4. cbn [app].
  assert (H3 : 0 <= y / 1000 mod 10 <= 9) by (Z.div_mod_to_equations; lia).
  assert (H2 : 0 <= y / 100 mod 10 <= 9) by (Z.div_mod_to_equations; lia).
  assert (H1 : 0 <= y / 10 mod 10 <= 9) by (Z.div_mod_to_equations; lia).
  assert (H0 : 0 <= y mod 10 <= 9) by (Z.div_mod_to_equations; lia).
  rewrite (p_digit_char 0 9 _ _ H3 H3). cbn [flat_map]. rewrite app_nil_r.
  rewrite (p_digit_char 0 9 _ _ H2 H2). cbn [flat_map]. rewrite app_nil_r.
  rewrite (p_digit_char 0 9 _ _ H1 H1). cbn [flat_map]. rewrite app_nil_r.
  rewrite (p_digit_char 0 9 _ _ H0 H0). cbn [flat_map]. rewrite app_nil_r.
  unfold p_ret. do 2 f_equal.
  clear H3 H2 H1 H0. Z.div_mod_to_equations. lia.
Qed.

Lemma p_after_year_pad y m d :
  1 <= m <= 12 -> 1 <= d <= 31 ->
  head (p_after_year y ("-"%char :: pad2 m ++ "-"%char :: pad2 d))
  = Some (mkdate y m d, []).
Proof.
  intros Hm Hd.
  enum_Z m 12%nat; try (exfalso; lia);
    enum_Z d 31%nat; try (exfalso; lia); vm_compute; reflexivity.
Qed.

Lemma strptime_iso d :
  valid_date d = true -> strptime_ymd (iso_ymd d) = Some d.
Proof.
  intros Hv. apply strptime_head; [|exact Hv].
  destruct d as [y m dd]. unfold valid_date in Hv. cbn [year month day] in Hv.
  assert (Hdim : days_in_month y m <= 31).
  { unfold days_in_month. destruct (is_leap y);
      repeat match goal with |- context [match ?x with _ => _ end] =>
        destruct x end; lia. }
  assert (Hy : 1 <= y <= 9999) by lia.
  assert (Hm : 1 <= m <= 12) by lia.
  assert (Hd : 1 <= dd <= 31) by lia.
  unfold iso_ymd. cbn [year month day].
  unfold p_ymd, p_bind at 1. rewrite p_year_pad4 by lia. cbn [flat_map].
  rewrite app_nil_r. now apply p_after_year_pad.
Qed.

Lemma agrees_ret {A} (a : A) : agrees (p_ret a) Eps.
Proof. intros prev x. reflexivity. Qed.

Lemma agrees_lit c : agrees (p_lit c) (Lit c).
Proof.
  intros prev [|a x]; [reflexivity|]. cbn [p_lit run snd].
  now destruct (char_eq true c a).
Qed.

Lemma agrees_digit lo hi :
  (forall c, cls_match true false [CRange (digit_char lo) (digit_char hi)] c
             = is_decimal c && (lo <=? Z.of_N (ord c) - 48)
               && (Z.of_N (ord c) - 48 <=? hi)) ->
  agrees (p_digit lo hi) (re_digits (digit_char lo) (digit_char hi)).
Proof.
  intros H prev [|a x]; [reflexivity|].
  unfold re_digits. cbn [p_digit run snd]. rewrite H.
  now destruct (is_decimal a && _ && _).
Qed.

Lemma agrees_bind {A B} (p : parser A) (f : A -> parser B) r1 r2 :
  agrees p r1 -> (forall a, agrees (f a) r2) ->
  agrees (p_bind p f) (Cat r1 r2).
Proof.
  intros Hp Hf prev x. unfold p_bind. cbn [run].
  specialize (Hp prev x). revert Hp.
  generalize (run true r1 (prev, x)) as l2. generalize (p x) as l1.
  induction l1 as [|[a rest] l1 IH]; intros [|[prev' rest'] l2] Heq;
    try discriminate Heq; [reflexivity|].
  cbn in Heq. injection Heq as -> Heq.
  cbn [flat_map]. rewrite !map_app. f_equal; [apply Hf|now apply IH].
Qed.

Lemma agrees_alt {A} (p q : parser A) r1 r2 :
  agrees p r1 -> agrees q r2 -> agrees (p_alt p q) (Alt r1 r2).
Proof.
  intros Hp Hq prev x. unfold p_alt. cbn [run].
  now rewrite !map_app, (Hp prev x), (Hq prev x).
Qed.

Lemma agrees_digit_range lo hi :
  In (lo, hi) [(0, 9); (0, 2); (1, 9); (0, 1); (1, 2)] ->
  agrees (p_digit lo hi) (re_digits (digit_char lo) (digit_char hi)).
Proof.
  intros H. apply agrees_digit. intros c.
  cbn in H. destruct H as [H|[H|[H|[H|[H|[]]]]]]; injection H as <- <-;
    all_chars c.
Qed.

Create HintDb agree.

#[local] Hint Resolve agrees_ret agrees_lit : agree.
#[local] Hint Extern 1 (agrees (p_digit ?lo ?hi) _) =>
  apply (agrees_digit_range lo hi); cbn; tauto : agree.
#[local] Hint Extern 2 (agrees (p_bind _ _) _) =>
  apply agrees_bind; [|intro] : agree.
#[local] Hint Extern 2 (agrees (p_alt _ _) _) => apply agrees_alt : agree.

Lemma agrees_year : agrees p_year re_year.
Proof. unfold p_year, re_year, seqs, fold_right. auto 20 with agree. Qed.

Lemma agrees_month : agrees p_month re_month.
Proof. unfold p_month, re_month, seqs, fold_right. auto 20 with agree. Qed.

Lemma agrees_day : agrees p_day re_day.
Proof. unfold p_day, re_day, seqs, fold_right. auto 30 with agree. Qed.

Lemma agrees_ymd : agrees p_ymd strptime_pattern.
Proof.
  unfold p_ymd, p_after_year, strptime_pattern, seqs. cbn [fold_right].
  pose proof agrees_year. pose proof agrees_month. pose proof agrees_day.
  auto 30 with agree.
Qed.

(** The match that [strptime] takes is the first match of the pattern. *)
Lemma strptime_first_match x :
  snd <$> head (p_ymd x) = snd <$> match_at true strptime_pattern (None, x).
Proof.
  unfold match_at. pose proof (agrees_ymd None x) as H.
  destruct (p_ymd x), (run true strptime_pattern (None, x));
    try discriminate H; [reflexivity|].
  cbn in H |- *. now injection H as -> _.
Qed.

(** ** The ordinal counts the days of the calendar *)

Lemma days_before_year_succ y :
  days_before_year (y + 1) = days_before_year y + (if is_leap y then 366 else 365).
Proof.
  unfold days_before_year, is_leap. cbv zeta.
  replace (y + 1 - 1) with y by lia.
  destruct (y mod 4 =? 0) eqn:E4; destruct (y mod 100 =? 0) eqn:E100;
    destruct (y mod 400 =? 0) eqn:E400; cbn [andb orb negb];
    rewrite ?Z.eqb_eq, ?Z.eqb_neq in *;
    Z.div_mod_to_equations; lia.
Qed.

Lemma days_before_year_mono y1 y2 :
  y1 <= y2 -> days_before_year y1 <= days_before_year y2.
Proof.
  intros H. unfold days_before_year. cbv zeta.
  Z.div_mod_to_equations. lia.
Qed.

Lemma valid_date_bounds d :
  valid_date d = true ->
  1 <= year d <= 9999 /\ 1 <= month d <= 12 /\
  1 <= day d <= days_in_month (year d) (month d).
Proof. unfold valid_date. rewrite !andb_true_iff, !Z.leb_le. lia. Qed.

Lemma valid_date_intro d :
  1 <= year d <= 9999 -> 1 <= month d <= 12 ->
  1 <= day d <= days_in_month (year d) (month d) ->
  valid_date d = true.
Proof. unfold valid_date. rewrite !andb_true_iff, !Z.leb_le. lia. Qed.

Lemma days_before_month_succ y m :
  1 <= m <= 11 ->
  days_before_month y (m + 1) = days_before_month y m + days_in_month y m.
Proof.
  intros Hm. unfold days_before_month, days_in_month.
  enum_Z m 11%nat; destruct (is_leap y); reflexivity.
Qed.

Lemma days_before_month_mono y m1 m2 :
  1 <= m1 -> m1 <= m2 -> m2 <= 12 ->
  days_before_month y m1 <= days_before_month y m2.
Proof.
  intros H1 H12 H2. unfold days_before_month.
  enum_Z m1 12%nat; enum_Z m2 12%nat; destruct (is_leap y); cbn; lia.
Qed.

Lemma days_before_month_last y :
  days_before_month y 12 + 31 = if is_leap y then 366 else 365.
Proof. unfold days_before_month. destruct (is_leap y); reflexivity. Qed.

Lemma days_in_month_pos y m : 1 <= m <= 12 -> 28 <= days_in_month y m <= 31.
Proof.
  intros Hm. unfold days_in_month.
  enum_Z m 12%nat; destruct (is_leap y); cbn; lia.
Qed.

(** Day of the year: between 1 and the length of the year. *)
Lemma day_of_year_bounds d :
  valid_date d = true ->
  1 <= days_before_month (year d) (month d) + day d
    <= if is_leap (year d) then 366 else 365.
Proof.
  intros Hv. apply valid_date_bounds in Hv as (Hy & Hm & Hd).
  pose proof (days_before_month_mono (year d) 1 (month d)) as H1.
  pose proof (days_before_month_last (year d)) as Hlast.
  assert (Hle : days_before_month (year d) (month d) + days_in_month (year d) (month d)
                <= days_before_month (year d) 12 + 31).
  { destruct (Z.eq_dec (month d) 12) as [->|Hne]; [reflexivity|].
    rewrite <- days_before_month_succ by lia.
    pose proof (days_before_month_mono (year d) (month d + 1) 12). lia. }
  change (days_before_month (year d) 1) with 0 in H1. lia.
Qed.

Lemma toordinal_next_day d :
  valid_date d = true -> toordinal (next_day d) = toordinal d + 1.
Proof.
  intros Hv. apply valid_date_bounds in Hv as (Hy & Hm & Hd).
  unfold next_day, toordinal.
  destruct (day d <? days_in_month (year d) (month d)) eqn:E;
    [cbn [year month day]; lia|].
  apply Z.ltb_ge in E.
  destruct (month d <? 12) eqn:E12; cbn [year month day].
  - apply Z.ltb_lt in E12. rewrite days_before_month_succ by lia. lia.
  - apply Z.ltb_ge in E12. assert (Hm12 : month d = 12) by lia.
    rewrite days_before_year_succ. rewrite Hm12 in *.
    pose proof (days_before_month_last (year d)).
    change (days_in_month (year d) 12) with 31 in *.
    change (days_before_month (year d + 1) 1) with 0. lia.
Qed.

Lemma valid_next_day d :
  valid_date d = true -> d <> mkdate 9999 12 31 ->
  valid_date (next_day d) = true.
Proof.
  intros Hv Hne. apply valid_date_bounds in Hv as (Hy & Hm & Hd).
  unfold next_day.
  destruct (day d <? days_in_month (year d) (month d)) eqn:E.
  - apply Z.ltb_lt in E. apply valid_date_intro; cbn [year month day]; lia.
  - apply Z.ltb_ge in E. destruct (month d <? 12) eqn:E12.
    + apply Z.ltb_lt in E12. apply valid_date_intro; cbn [year month day];
        pose proof (days_in_month_pos (year d) (month d + 1)); lia.
    + apply Z.ltb_ge in E12.
      assert (year d <> 9999).
      { intros Hy9. apply Hne. destruct d as [y m dd]. cbn in *.
        assert (m = 12) by lia. subst. cbn in *. f_equal; lia. }
      apply valid_date_intro; cbn; lia.
Qed.

(** A later date of the calendar has a larger ordinal. *)
Lemma toordinal_mono a b :
  valid_date a = true -> valid_date b = true -> date_le a b ->
  toordinal a <= toordinal b.
Proof.
  intros Ha Hb Hle.
  pose proof (day_of_year_bounds a Ha) as Hya.
  pose proof (day_of_year_bounds b Hb) as Hyb.
  apply valid_date_bounds in Ha as (Hay & Ham & Had).
  apply valid_date_bounds in Hb as (Hby & Hbm & Hbd).
  unfold toordinal. destruct Hle as [Hy|[Hy [Hm|[Hm Hd]]]].
  - pose proof (days_before_year_succ (year a)).
    pose proof (days_before_year_mono (year a + 1) (year b)). lia.
  - rewrite Hy in *.
    pose proof (days_before_month_succ (year b) (month a)).
    pose proof (days_before_month_mono (year b) (month a + 1) (month b)). lia.
  - rewrite Hy, Hm. lia.
Qed.

Lemma date_le_total a b : date_le a b \/ date_le b a.
Proof. unfold date_le. lia. Qed.

(** ** to_ist_ymd and the recency filter *)

Lemma digit_char_mod n : is_decimal (digit_char (n mod 10)) = true.
Proof.
  apply digit_char_decimal. pose proof (Z.mod_pos_bound n 10). lia.
Qed.

Lemma iso_format d : is_ymd_format (iso_ymd d) = true.
Proof.
  unfold iso_ymd, pad4, pad2, is_ymd_format. cbn [app forallb].
  rewrite !digit_char_mod. reflexivity.
Qed.

(** From year 1000 on [strftime] writes the shape YYYY-MM-DD. *)
Lemma strftime_iso d : 1000 <= year d -> strftime_ymd d = iso_ymd d.
Proof.
  intros Hy. unfold strftime_ymd, iso_ymd, year_str.
  destruct (year d <? 10) eqn:E1; [apply Z.ltb_lt in E1; lia|].
  destruct (year d <? 100) eqn:E2; [apply Z.ltb_lt in E2; lia|].
  destruct (year d <? 1000) eqn:E3; [apply Z.ltb_lt in E3; lia|].
  reflexivity.
Qed.

Lemma strftime_format d :
  1000 <= year d -> is_ymd_format (strftime_ymd d) = true.
Proof. intros Hy. rewrite (strftime_iso d Hy). apply iso_format. Qed.

Lemma strptime_strftime d :
  valid_date d = true -> 1000 <= year d ->
  strptime_ymd (strftime_ymd d) = Some d.
Proof. intros Hv Hy. rewrite (strftime_iso d Hy). now apply strptime_iso. Qed.

(** Below year 1000 the year has fewer than four digits, and the four
    digits that [strptime] wants are not there. *)
Lemma p_year_short y (rest : str) :
  1 <= y < 1000 -> p_year (year_str y ++ "-"%char :: rest) = [].
Proof.
  intros Hy. unfold year_str.
  assert (H2 : 0 <= y / 100 <= 9) by (Z.div_mod_to_equations; lia).
  assert (H1 : 0 <= y / 10 mod 10 <= 9) by (Z.div_mod_to_equations; lia).
  assert (H0 : 0 <= y mod 10 <= 9) by (Z.div_mod_to_equations; lia).
  destruct (y <? 10) eqn:E1; [|destruct (y <? 100) eqn:E2].
  - apply Z.ltb_lt in E1. cbn [app]. unfold p_year, p_bind.
    rewrite (p_digit_char 0 9 y) by lia. reflexivity.
  - apply Z.ltb_lt in E2. apply Z.ltb_ge in E1. cbn [app].
    assert (H1' : 0 <= y / 10 <= 9) by (Z.div_mod_to_equations; lia).
    unfold p_year, p_bind.
    rewrite (p_digit_char 0 9 (y / 10)) by lia. cbn [flat_map].
    rewrite (p_digit_char 0 9 (y mod 10)) by lia. reflexivity.
  - destruct (y <? 1000) eqn:E3; [|apply Z.ltb_ge in E3; lia].
    cbn [app]. unfold p_year, p_bind.
    rewrite (p_digit_char 0 9 (y / 100)) by lia. cbn [flat_map].
    rewrite (p_digit_char 0 9 (y / 10 mod 10)) by lia. cbn [flat_map].
    rewrite (p_digit_char 0 9 (y mod 10)) by lia. reflexivity.
Qed.

Lemma strftime_short d :
  valid_date d = true -> year d < 1000 ->
  is_ymd_format (strftime_ymd d) = false /\
  strptime_ymd (strftime_ymd d) = None.
Proof.
  intros Hv Hy. apply valid_date_bounds in Hv as (Hy1 & _ & _). split.
  - unfold strftime_ymd, year_str, pad2.
    destruct (year d <? 10); [reflexivity|].
    destruct (year d <? 100); [reflexivity|].
    destruct (year d <? 1000) eqn:E3; [reflexivity|].
    apply Z.ltb_ge in E3. lia.
  - unfold strptime_ymd, strftime_ymd, p_ymd, p_bind at 1.
    rewrite p_year_short by lia. reflexivity.
Qed.

(** The filter keeps what [strftime] writes for a year below 1000. *)
Lemma within_days_short today_ist d n :
  valid_date d = true -> year d < 1000 ->
  within_days today_ist (strftime_ymd d) n = true.
Proof.
  intros Hv Hy. unfold within_days.
  now rewrite (proj2 (strftime_short d Hv Hy)).
Qed.

Lemma ist_date_valid t d : ist_date t = Some d -> valid_date d = true.
Proof.
  unfold ist_date, datetime_utc, astimezone_IST.
  set (d0 := mkdate (tm_year t) (tm_mon t) (tm_mday t)).
  destruct (valid_date d0) eqn:Hv; cbn [andb]; [|discriminate].
  match goal with |- context [if ?c then Some (d0, ?s) else None] =>
    destruct c; [|discriminate]; generalize s; intros s' end.
  destruct (s' + IST <? 86400); [intros [= <-]; exact Hv|].
  destruct (valid_date (next_day d0)) eqn:Hn; [|discriminate].
  intros [= <-]. exact Hn.
Qed.

(** The local date is the UTC date or the day after it. *)
Lemma ist_date_shift t d :
  ist_date t = Some d ->
  let utc := mkdate (tm_year t) (tm_mon t) (tm_mday t) in
  valid_date utc = true /\
  (if tm_hour t * 3600 + tm_min t * 60 + tm_sec t <? 18 * 3600 + 30 * 60
   then d = utc else toordinal d = toordinal utc + 1).
Proof.
  cbv zeta. unfold ist_date, datetime_utc, astimezone_IST.
  set (d0 := mkdate (tm_year t) (tm_mon t) (tm_mday t)).
  set (s := tm_hour t * 3600 + tm_min t * 60 + tm_sec t).
  destruct (valid_date d0) eqn:Hv; cbn [andb]; [|discriminate].
  match goal with |- context [if ?c then Some (d0, s) else None] =>
    destruct c; [|discriminate] end.
  unfold IST.
  destruct (s + (5 * 3600 + 30 * 60) <? 86400) eqn:E.
  - intros [= <-]. split; [reflexivity|].
    apply Z.ltb_lt in E.
    destruct (s <? 18 * 3600 + 30 * 60) eqn:E'; [reflexivity|].
    apply Z.ltb_ge in E'. lia.
  - destruct (valid_date (next_day d0)); [|discriminate].
    intros [= <-]. split; [reflexivity|].
    apply Z.ltb_ge in E.
    destruct (s <? 18 * 3600 + 30 * 60) eqn:E'.
    + apply Z.ltb_lt in E'. lia.
    + now apply toordinal_next_day.
Qed.

(** With the fallback enabled [to_ist_ymd] always returns a string, never
    [None]: [strftime] of the timestamp moved to UTC+5:30 when the
    conversion succeeds and of the current date otherwise (no timestamp,
    a field out of range, or a local date behind year 9999).  From year
    1000 on the string has the shape YYYY-MM-DD and reads back, through
    [strptime], as that date. *)
Lemma to_ist_ymd_fallback (now : date) (dt_struct : option struct_time) :
  valid_date now = true ->
  exists d : date,
    to_ist_ymd now dt_struct true = Some (strftime_ymd d) /\
    d = default now (dt_struct ≫= ist_date) /\
    valid_date d = true /\
    (1000 <= year d ->
     is_ymd_format (strftime_ymd d) = true /\
     strptime_ymd (strftime_ymd d) = Some d).
Proof.
  intros Hnow. exists (default now (dt_struct ≫= ist_date)).
  assert (Hv : valid_date (default now (dt_struct ≫= ist_date)) = true).
  { destruct dt_struct as [t|]; [|exact Hnow]. cbn.
    destruct (ist_date t) eqn:E; [|exact Hnow].
    exact (ist_date_valid _ _ E). }
  split; [|split; [reflexivity|split; [exact Hv|]]].
  - unfold to_ist_ymd. destruct dt_struct as [t|]; [|reflexivity].
    cbn. now destruct (ist_date t).
  - intros Hy. split; [now apply strftime_format|now apply strptime_strftime].
Qed.

(** C8, at the inputs where the code leaves the claim.  A timestamp whose
    day in UTC+5:30 lies in a year below 1000 converts without an
    exception, and [strftime] writes its year without zero-filling: the
    string returned, [999-01-01] for the first day of year 999, has not
    the shape YYYY-MM-DD, [strptime] does not read it, and the filter of
    the last 14 days keeps it whatever the day of the run. *)
Theorem to_ist_ymd_short_year (now : date) (t : struct_time) (d : date)
    (fallback_today : bool) :
  ist_date t = Some d -> year d < 1000 ->
  to_ist_ymd now (Some t) fallback_today = Some (strftime_ymd d) /\
  is_ymd_format (strftime_ymd d) = false /\
  strptime_ymd (strftime_ymd d) = None /\
  (forall today_ist, within_days today_ist (strftime_ymd d) 14 = true).
Proof.
  intros Ht Hy. pose proof (ist_date_valid t d Ht) as Hv.
  destruct (strftime_short d Hv Hy) as [Hf Hp].
  split; [|split; [exact Hf|split; [exact Hp|]]].
  - unfold to_ist_ymd. now rewrite Ht.
  - intros today_ist. now apply within_days_short.
Qed.

Lemma to_ist_ymd_short_year_witness :
  to_ist_ymd (mkdate 2024 3 1)
    (Some (mkstruct_time 999 1 1 0 0 0 1 1 0)) true
  = Some (chars "999-01-01") /\
  is_ymd_format (chars "999-01-01") = false /\
  strptime_ymd (chars "999-01-01") = None /\
  (forall today_ist, within_days today_ist (chars "999-01-01") 14 = true).
Proof.
  apply (to_ist_ymd_short_year (mkdate 2024 3 1)
           (mkstruct_time 999 1 1 0 0 0 1 1 0) (mkdate 999 1 1) true).
  - reflexivity.
  - reflexivity.
Defined.

(** C2.  The recency filter keeps an entry exactly when its date string
    parses and lies at most 14 calendar days before the run date, or does
    not parse at all. *)
Theorem recent_spec (today_ist : date) (entries : list Rec.t) (e : Rec.t) :
  In e (recent today_ist entries) <->
  In e entries /\
  ((exists dt, strptime_ymd (Rec.date e) = Some dt /\
               toordinal today_ist - toordinal dt <= 14) \/
   strptime_ymd (Rec.date e) = None).
Proof.
  unfold recent. rewrite filter_In. unfold within_days, days_between.
  destruct (strptime_ymd (Rec.date e)) as [dt|].
  - rewrite Z.leb_le. split.
    + intros [Hin Hle]. split; [exact Hin|]. left. eauto.
    + intros [Hin [(dt' & [= <-] & Hle)|Hn]]; [tauto|discriminate].
  - split; [intros [Hin _]; tauto|tauto].
Qed.

(** C10.  The filter is one-sided.  A date string that parses to the run
    date or to any later date of the calendar passes, however far ahead;
    [within_days] answers [False] only for a date that parses and lies
    more than 14 days before the run date. *)
Theorem within_days_one_sided (today_ist : date) (dstr : str) :
  valid_date today_ist = true ->
  (forall dt, strptime_ymd dstr = Some dt -> date_le today_ist dt ->
              within_days today_ist dstr 14 = true) /\
  (within_days today_ist dstr 14 = false <->
   exists dt, strptime_ymd dstr = Some dt /\
              14 < toordinal today_ist - toordinal dt) /\
  (forall e entries,
     In e entries -> Rec.date e = dstr ->
     within_days today_ist dstr 14 = true ->
     In e (recent today_ist entries)).
Proof.
  intros Hv. split; [|split].
  - intros dt Hp Hle. unfold within_days, days_between. rewrite Hp.
    apply Z.leb_le.
    pose proof (toordinal_mono _ _ Hv (strptime_valid _ _ Hp) Hle). lia.
  - unfold within_days, days_between.
    destruct (strptime_ymd dstr) as [dt|].
    + rewrite Z.leb_gt. split; [eauto|].
      now intros (dt' & [= <-] & H).
    + split; [discriminate|]. now intros (dt' & [=] & _).
  - intros e entries Hin <- Hw. unfold recent. apply filter_In. tauto.
Qed.

Lemma within_days_one_sided_witness :
  within_days (mkdate 2024 3 15) (chars "9999-12-31") 14 = true.
Proof.
  apply (proj1 (within_days_one_sided (mkdate 2024 3 15)
                  (chars "9999-12-31") eq_refl) (mkdate 9999 12 31)).
  - reflexivity.
  - left. cbn. lia.
Defined.

(** ** The order of date strings is the order of the calendar *)

Lemma lexico_cons (x1 x2 : ascii) (l1 l2 : str) :
  lexico (x1 :: l1) (x2 :: l2) <-> lexico x1 x2 \/ (x1 = x2 /\ lexico l1 l2).
Proof. reflexivity. Qed.

Lemma lexico_cons_same (c : ascii) (l1 l2 : str) :
  lexico (c :: l1) (c :: l2) <-> lexico l1 l2.
Proof.
  rewrite lexico_cons. split; [|tauto].
  intros [H|[_ H]]; [|exact H]. now apply (irreflexivity lexico c) in H.
Qed.

Lemma digit_char_order n1 n2 :
  (0 <= n1 <= 9)%Z -> (0 <= n2 <= 9)%Z ->
  (lexico (digit_char n1) (digit_char n2) <-> (n1 < n2)%Z) /\
  (digit_char n1 = digit_char n2 <-> n1 = n2).
Proof.
  intros H1 H2.
  assert (Hord : forall n, (0 <= n <= 9)%Z ->
            ord (digit_char n) = Z.to_N (48 + n)).
  { intros n Hn. enum_Z n 9%nat; reflexivity. }
  unfold lexico, ascii_lexico. split.
  - rewrite !Hord by assumption. lia.
  - split; [|now intros ->]. intros H. apply (f_equal ord) in H.
    rewrite !Hord in H by assumption. lia.
Qed.

Lemma lexico_digit n1 n2 (l1 l2 : str) :
  (0 <= n1 <= 9)%Z -> (0 <= n2 <= 9)%Z ->
  lexico (digit_char n1 :: l1) (digit_char n2 :: l2) <->
  (n1 < n2)%Z \/ (n1 = n2 /\ lexico l1 l2).
Proof.
  intros H1 H2. destruct (digit_char_order n1 n2 H1 H2) as [Hlt Heq].
  rewrite lexico_cons, Hlt, Heq. reflexivity.
Qed.

Lemma lexico_pad2 n1 n2 (l1 l2 : str) :
  (0 <= n1 <= 99)%Z -> (0 <= n2 <= 99)%Z ->
  lexico (pad2 n1 ++ l1) (pad2 n2 ++ l2) <->
  (n1 < n2)%Z \/ (n1 = n2 /\ lexico l1 l2).
Proof.
  intros H1 H2. unfold pad2. cbn [app].
  rewrite !lexico_digit by (Z.div_mod_to_equations; lia).
  assert (Hlt : n1 < n2 <->
            n1 / 10 mod 10 < n2 / 10 mod 10 \/
            (n1 / 10 mod 10 = n2 / 10 mod 10 /\ n1 mod 10 < n2 mod 10))
    by (Z.div_mod_to_equations; lia).
  assert (Heq : n1 = n2 <->
            n1 / 10 mod 10 = n2 / 10 mod 10 /\ n1 mod 10 = n2 mod 10)
    by (Z.div_mod_to_equations; lia).
  rewrite Hlt, Heq. tauto.
Qed.

Lemma lexico_pad4 n1 n2 (l1 l2 : str) :
  (0 <= n1 <= 9999)%Z -> (0 <= n2 <= 9999)%Z ->
  lexico (pad4 n1 ++ l1) (pad4 n2 ++ l2) <->
  (n1 < n2)%Z \/ (n1 = n2 /\ lexico l1 l2).
Proof.
  intros H1 H2. unfold pad4. cbn [app].
  rewrite !lexico_digit by (Z.div_mod_to_equations; lia).
  assert (Hlt : n1 < n2 <->
            n1 / 1000 mod 10 < n2 / 1000 mod 10 \/
            (n1 / 1000 mod 10 = n2 / 1000 mod 10 /\
             (n1 / 100 mod 10 < n2 / 100 mod 10 \/
              (n1 / 100 mod 10 = n2 / 100 mod 10 /\
               (n1 / 10 mod 10 < n2 / 10 mod 10 \/
                (n1 / 10 mod 10 = n2 / 10 mod 10 /\
                 n1 mod 10 < n2 mod 10))))))
    by (Z.div_mod_to_equations; lia).
  assert (Heq : n1 = n2 <->
            n1 / 1000 mod 10 = n2 / 1000 mod 10 /\
            n1 / 100 mod 10 = n2 / 100 mod 10 /\
            n1 / 10 mod 10 = n2 / 10 mod 10 /\ n1 mod 10 = n2 mod 10)
    by (Z.div_mod_to_equations; lia).
  rewrite Hlt, Heq. tauto.
Qed.

Lemma iso_lexico a b :
  valid_date a = true -> valid_date b = true ->
  lexico (iso_ymd a) (iso_ymd b) <-> date_lt a b.
Proof.
  intros Ha Hb.
  apply valid_date_bounds in Ha as (Hay & Ham & Had).
  apply valid_date_bounds in Hb as (Hby & Hbm & Hbd).
  pose proof (days_in_month_pos (year a) (month a) Ham).
  pose proof (days_in_month_pos (year b) (month b) Hbm).
  unfold iso_ymd, date_lt.
  rewrite lexico_pad4 by lia. rewrite lexico_cons_same.
  rewrite lexico_pad2 by lia. rewrite lexico_cons_same.
  rewrite <- (app_nil_r (pad2 (day a))), <- (app_nil_r (pad2 (day b))).
  rewrite lexico_pad2 by lia.
  assert (Hnil : ~ lexico (@nil ascii) []) by (intros []).
  tauto.
Qed.

Lemma toordinal_lt a b :
  valid_date a = true -> valid_date b = true -> date_lt a b ->
  (toordinal a < toordinal b)%Z.
Proof.
  intros Ha Hb Hlt.
  pose proof (day_of_year_bounds a Ha) as Hya.
  pose proof (day_of_year_bounds b Hb) as Hyb.
  apply valid_date_bounds in Ha as (Hay & Ham & Had).
  apply valid_date_bounds in Hb as (Hby & Hbm & Hbd).
  unfold toordinal. destruct Hlt as [Hy|[Hy [Hm|[Hm Hd]]]].
  - pose proof (days_before_year_succ (year a)).
    pose proof (days_before_year_mono (year a + 1) (year b)). lia.
  - rewrite Hy in *.
    pose proof (days_before_month_succ (year b) (month a)).
    pose proof (days_before_month_mono (year b) (month a + 1) (month b)). lia.
  - rewrite Hy, Hm. lia.
Qed.

(** A date string is smaller exactly when its day comes earlier. *)
Lemma iso_order a b :
  valid_date a = true -> valid_date b = true ->
  lexico (iso_ymd a) (iso_ymd b) <-> (toordinal a < toordinal b)%Z.
Proof.
  intros Ha Hb. rewrite (iso_lexico a b Ha Hb). split.
  - now apply toordinal_lt.
  - intros Hlt.
    assert (Hcases : date_lt a b \/ date_le b a)
      by (unfold date_lt, date_le; lia).
    destruct Hcases as [H|H]; [exact H|].
    pose proof (toordinal_mono b a Hb Ha H). lia.
Qed.

Local Open Scope nat_scope.

(** ** dedup *)

Lemma not_in_add (k k' : str * str) (seen : gset (str * str)) :
  k ∉ ({[k']} ∪ seen) <-> k <> k' /\ k ∉ seen.
Proof. rewrite elem_of_union, elem_of_singleton. tauto. Qed.

Lemma dedup_loop_firsts items : forall seen deduped,
  dedup_loop items seen deduped = deduped ++ firsts seen items.
Proof.
  induction items as [|it items IH]; intros seen deduped; cbn.
  - now rewrite app_nil_r.
  - destruct (decide (dedup_key it ∈ seen)); rewrite IH; [reflexivity|].
    now rewrite <- app_assoc.
Qed.

Lemma dedup_firsts items : dedup items = firsts ∅ items.
Proof. unfold dedup. now rewrite dedup_loop_firsts. Qed.

Lemma firsts_not_seen items : forall seen it,
  it ∈ firsts seen items -> dedup_key it ∉ seen.
Proof.
  induction items as [|a items IH]; intros seen it; cbn.
  - intros H. inversion H.
  - destruct (decide (dedup_key a ∈ seen)) as [Hin|Hin]; [apply IH|].
    intros H. apply elem_of_cons in H as [->|H]; [exact Hin|].
    apply IH in H. now apply not_in_add in H.
Qed.

Lemma firsts_NoDup items : forall seen,
  NoDup (dedup_key <$> firsts seen items).
Proof.
  induction items as [|a items IH]; intros seen; cbn; [constructor|].
  destruct (decide (dedup_key a ∈ seen)) as [Hin|Hin]; [apply IH|].
  rewrite fmap_cons. constructor; [|apply IH].
  intros H. apply list_elem_of_fmap in H as (it & Heq & Hit).
  apply firsts_not_seen in Hit. apply not_in_add in Hit as [Hne _].
  congruence.
Qed.

Lemma firsts_sublist items : forall seen, sublist (firsts seen items) items.
Proof.
  induction items as [|a items IH]; intros seen; cbn; [constructor|].
  destruct (decide (dedup_key a ∈ seen)).
  - apply sublist_cons, IH.
  - apply sublist_skip, IH.
Qed.

(** An item is kept exactly where its key occurs for the first time. *)
Lemma firsts_spec items : forall seen it,
  it ∈ firsts seen items <->
  exists pre post,
    items = pre ++ (it :: post) /\
    (dedup_key it ∉ seen) /\ (dedup_key it ∉ (dedup_key <$> pre)).
Proof.
  induction items as [|a items IH]; intros seen it; cbn.
  - split; [intros H; inversion H|].
    intros (pre & post & Heq & _). now destruct pre.
  - destruct (decide (dedup_key a ∈ seen)) as [Hin|Hin].
    + rewrite IH. split.
      * intros (pre & post & -> & Hs & Hp).
        exists (a :: pre), post. repeat split; [exact Hs|].
        rewrite fmap_cons, not_elem_of_cons. split; [|exact Hp].
        intros Heq. rewrite Heq in Hs. contradiction.
      * intros (pre & post & Heq & Hs & Hp).
        destruct pre as [|b pre]; cbn in Heq.
        -- injection Heq as -> ->. contradiction.
        -- injection Heq as -> ->. exists pre, post.
           rewrite fmap_cons, not_elem_of_cons in Hp. tauto.
    + rewrite elem_of_cons, IH. split.
      * intros [->|(pre & post & -> & Hs & Hp)].
        -- exists [], items. repeat split; [exact Hin|].
           rewrite fmap_nil. apply not_elem_of_nil.
        -- apply not_in_add in Hs as [Hne Hs].
           exists (a :: pre), post. repeat split; [exact Hs|].
           rewrite fmap_cons, not_elem_of_cons. split; [exact Hne|exact Hp].
      * intros (pre & post & Heq & Hs & Hp).
        destruct pre as [|b pre]; cbn in Heq.
        -- injection Heq as -> ->. now left.
        -- injection Heq as -> ->. right. exists pre, post.
           rewrite fmap_cons, not_elem_of_cons in Hp.
           repeat split; [apply not_in_add; tauto|tauto].
Qed.

(** Every key of the input is a key of the result. *)
Lemma firsts_keeps_keys items : forall seen it,
  it ∈ items -> dedup_key it ∉ seen ->
  dedup_key it ∈ (dedup_key <$> firsts seen items).
Proof.
  induction items as [|a items IH]; intros seen it Hin Hs; [inversion Hin|].
  cbn. apply elem_of_cons in Hin.
  destruct (decide (dedup_key a ∈ seen)) as [Ha|Ha].
  - destruct Hin as [->|Hin]; [contradiction|]. now apply IH.
  - rewrite fmap_cons, elem_of_cons.
    destruct (decide (dedup_key it = dedup_key a)) as [Heq|Hne]; [now left|].
    right. destruct Hin as [->|Hin]; [contradiction|].
    apply IH; [exact Hin|now apply not_in_add].
Qed.

Lemma dedup_keeps_keys items it :
  it ∈ items -> dedup_key it ∈ (dedup_key <$> dedup items).
Proof.
  intros Hin. rewrite dedup_firsts.
  apply firsts_keeps_keys; [exact Hin|apply not_elem_of_empty].
Qed.

(** ** The items loop *)

Section PipelineFacts.

Variable mains_angle : str -> str.
Variable check_bracketed_netloc : str -> bool.

Abbreviation mk_item := (make_item mains_angle check_bracketed_netloc).
Abbreviation mk_items := (make_items mains_angle check_bracketed_netloc).

Lemma make_item_fields e it :
  mk_item e = Some it ->
  Item.title it = Rec.title e /\ Item.link it = Rec.link e /\
  Item.date it = Rec.date e /\
  Item.category it = classify (Rec.title e) (Rec.summary e) (Rec.feed_name e) /\
  Item.id it = item_id (Some (Rec.title e)) (Some (Rec.link e)) /\
  prelims_facts check_bracketed_netloc e (Rec.date e) = Some (Item.prelims it).
Proof.
  unfold make_item.
  destruct (prelims_facts check_bracketed_netloc e (Rec.date e));
    [|discriminate].
  intros [= <-]. cbn. repeat split; reflexivity.
Qed.

Lemma make_items_Forall2 recs : forall items,
  mk_items recs = Some items ->
  Forall2 (fun e it => mk_item e = Some it) recs items.
Proof.
  induction recs as [|e recs IH]; intros items; cbn [make_items].
  - intros [= <-]. constructor.
  - destruct (mk_item e) as [it|] eqn:E; [|discriminate].
    destruct (mk_items recs) as [its|]; [|discriminate].
    intros [= <-]. constructor; [exact E|now apply IH].
Qed.

(** The run reaches the end when no link makes [urlparse] raise. *)
Lemma make_items_total recs :
  Forall (fun e => is_Some (urlparse_netloc check_bracketed_netloc (Rec.link e)))
    recs ->
  is_Some (mk_items recs).
Proof.
  induction 1 as [|e recs [n Hn] _ [items IH]]; cbn [make_items];
    [eexists; reflexivity|].
  rewrite IH. unfold make_item, prelims_facts. rewrite Hn.
  destruct (replace_empty (chars "www.") n); eexists; reflexivity.
Qed.

End PipelineFacts.

(** ** The sorted output *)

Lemma Sorted_adjacent {A} (R : relation A) (l : list A) :
  Sorted R l ->
  forall i a b, l !! i = Some a -> l !! S i = Some b -> R a b.
Proof.
  induction 1 as [|x l Hs IH Hhd]; intros i a b Ha Hb; [discriminate Ha|].
  destruct i as [|i]; cbn in Ha, Hb.
  - injection Ha as <-. destruct l as [|y l]; [discriminate Hb|].
    injection Hb as <-. now inversion Hhd.
  - eapply IH; eassumption.
Qed.

(** The order of two sort keys, component by component. *)
Lemma prod_not_lexico {A B} `{Lexico A, Lexico B}
    `{!StrictOrder (@lexico A _), !TrichotomyT (@lexico A _)}
    (a1 a2 : A) (b1 b2 : B) :
  ~ lexico (a1, b1) (a2, b2) <->
  lexico a2 a1 \/ (a1 = a2 /\ ~ lexico b1 b2).
Proof.
  assert (Hirr : forall x : A, ~ lexico x x) by apply irreflexivity, _.
  assert (Hasym : forall x y : A, lexico x y -> lexico y x -> False).
  { intros x y Hxy Hyx. apply (Hirr x). now transitivity y. }
  unfold lexico at 1, prod_lexico. cbn [fst snd].
  destruct (trichotomyT lexico a1 a2) as [[Ha|<-]|Ha].
  - split; [tauto|]. intros [Ha'|[-> _]]; [|now apply Hirr in Ha].
    destruct (Hasym _ _ Ha Ha').
  - split.
    + intros Hn. right. split; [reflexivity|]. tauto.
    + intros [Ha|[_ Hb]] [Ha'|[_ Hb']]; try tauto;
        try (now apply Hirr in Ha); now apply Hirr in Ha'.
  - split; [tauto|]. intros _ [Ha'|[-> _]]; [|now apply Hirr in Ha].
    destruct (Hasym _ _ Ha Ha').
Qed.

Lemma key_ge_spec (d1 c1 t1 d2 c2 t2 : str) :
  key_ge (d1, c1, t1) (d2, c2, t2) <->
  lexico d2 d1 \/
  (d1 = d2 /\ (lexico c2 c1 \/ (c1 = c2 /\ ~ lexico t1 t2))).
Proof.
  unfold key_ge. rewrite prod_not_lexico.
  unfold lexico at 1, prod_lexico. cbn [fst snd].
  split.
  - intros [[Hd|[-> Hc]]|[[= -> ->] Ht]]; tauto.
  - intros [Hd|[-> [Hc|[-> Ht]]]]; tauto.
Qed.

(** The sort rearranges the list, puts it in order, and keeps the order of
    the items with equal keys. *)
Lemma insert_item_Permutation it l : insert_item it l ≡ₚ it :: l.
Proof.
  induction l as [|x l IH]; [reflexivity|]. cbn [insert_item].
  destruct (decide (before it x)); [reflexivity|].
  rewrite IH. apply Permutation_swap.
Qed.

Lemma sort_items_Permutation l : sort_items l ≡ₚ l.
Proof.
  unfold sort_items. induction l as [|x l IH]; [reflexivity|].
  cbn [foldr]. now rewrite insert_item_Permutation, IH.
Qed.

Lemma insert_item_sorted it l :
  StronglySorted before l -> StronglySorted before (insert_item it l).
Proof.
  induction 1 as [|x l Hs IH Hx]; cbn [insert_item].
  - repeat constructor.
  - destruct (decide (before it x)) as [Hb|Hb].
    + constructor; [now constructor|]. constructor; [exact Hb|].
      eapply Forall_impl; [exact Hx|]. cbn beta. intros y Hy.
      now transitivity x.
    + constructor; [exact IH|].
      rewrite (insert_item_Permutation it l). constructor; [|exact Hx].
      destruct (total before it x) as [H|H]; [contradiction|exact H].
Qed.

Lemma sort_items_sorted l : StronglySorted before (sort_items l).
Proof.
  unfold sort_items. induction l as [|x l IH]; [constructor|].
  cbn [foldr]. now apply insert_item_sorted.
Qed.

Lemma sort_items_stable_order (k : sort_key_t) l :
  List.filter (fun it => bool_decide (sort_key it = k)) (sort_items l)
  = List.filter (fun it => bool_decide (sort_key it = k)) l.
Proof.
  unfold sort_items. induction l as [|x l IH]; [reflexivity|].
  cbn [foldr List.filter]. rewrite <- IH.
  generalize (foldr insert_item [] l). intros s.
  induction s as [|y s IHs]; [reflexivity|]. cbn [insert_item].
  destruct (decide (before x y)) as [Hb|Hb]; [reflexivity|].
  cbn [List.filter]. rewrite IHs.
  destruct (bool_decide (sort_key x = k)) eqn:Ex; [|reflexivity].
  destruct (bool_decide (sort_key y = k)) eqn:Ey; [|reflexivity].
  apply bool_decide_eq_true in Ex, Ey. destruct Hb.
  unfold before. rewrite Ex, Ey. reflexivity.
Qed.

(** C3.  No two items of the final output share their (title, link) pair.
    The output is a rearrangement of what the dedup loop keeps, and the
    loop keeps, in the order in which the items were produced, exactly
    the items whose pair has not occurred before. *)
Theorem output_no_duplicates (mains_angle : str -> str)
    (check_bracketed_netloc : str -> bool) (today_ist : date)
    (entries : list Rec.t) (items : list Item.t) :
  output mains_angle check_bracketed_netloc today_ist entries = Some items ->
  NoDup (dedup_key <$> items) /\
  (forall i j A B,
     items !! i = Some A -> items !! j = Some B -> i <> j ->
     (Item.title A, Item.link A) <> (Item.title B, Item.link B)) /\
  exists produced,
    make_items mains_angle check_bracketed_netloc (recent today_ist entries)
    = Some produced /\
    items ≡ₚ dedup produced /\
    sublist (dedup produced) produced /\
    (forall it,
       it ∈ dedup produced <->
       exists pre post,
         produced = pre ++ (it :: post) /\
         (dedup_key it ∉ (dedup_key <$> pre))).
Proof.
  unfold output.
  destruct (make_items _ _ (recent today_ist entries)) as [produced|];
    [|discriminate].
  intros [= <-].
  assert (Hnd : NoDup (dedup_key <$> sort_items (dedup produced))).
  { rewrite sort_items_Permutation, dedup_firsts. apply firsts_NoDup. }
  split; [exact Hnd|]. split.
  - intros i j A B HA HB Hij Heq. apply Hij.
    apply (NoDup_lookup _ i j (dedup_key A) Hnd).
    + now rewrite list_lookup_fmap, HA.
    + rewrite list_lookup_fmap, HB. cbn. unfold dedup_key. now rewrite Heq.
  - exists produced. split; [reflexivity|]. split; [|split].
    + apply sort_items_Permutation.
    + rewrite dedup_firsts. apply firsts_sublist.
    + intros it. rewrite dedup_firsts, firsts_spec. split.
      * intros (pre & post & Heq & _ & Hp). eauto.
      * intros (pre & post & Heq & Hp). exists pre, post.
        repeat split; [exact Heq| |exact Hp]. apply not_elem_of_empty.
Qed.

Lemma output_no_duplicates_witness : NoDup (dedup_key <$> sample_items).
Proof.
  apply (output_no_duplicates (fun _ => []) (fun _ => true) sample_today
           sample_recs sample_items).
  vm_compute. reflexivity.
Defined.

(** C4.  In the final output every item stands before items with a
    smaller or equal key (date, category, title), compared component by
    component as strings: the larger date first, for equal dates the
    larger category, for equal dates and categories the larger title.
    For date strings of the shape YYYY-MM-DD the larger string is the
    later day, so the newest date comes first; these are the strings that
    [strftime] writes from year 1000 on.  This holds for adjacent items
    and so for any two. *)
Theorem output_sorted (mains_angle : str -> str)
    (check_bracketed_netloc : str -> bool) (today_ist : date)
    (entries : list Rec.t) (items : list Item.t) :
  output mains_angle check_bracketed_netloc today_ist entries = Some items ->
  (forall i A B,
     items !! i = Some A -> items !! S i = Some B ->
     key_ge (Item.date A, Item.category A, Item.title A)
            (Item.date B, Item.category B, Item.title B) /\
     (lexico (Item.date B) (Item.date A) \/
      (Item.date A = Item.date B /\
       (lexico (Item.category B) (Item.category A) \/
        (Item.category A = Item.category B /\
         ~ lexico (Item.title A) (Item.title B))))) /\
     (forall a b,
        valid_date a = true -> valid_date b = true ->
        Item.date A = iso_ymd a -> Item.date B = iso_ymd b ->
        (toordinal b <= toordinal a)%Z) /\
     (forall a b,
        valid_date a = true -> valid_date b = true ->
        (1000 <= year a)%Z -> (1000 <= year b)%Z ->
        Item.date A = strftime_ymd a -> Item.date B = strftime_ymd b ->
        (toordinal b <= toordinal a)%Z)) /\
  StronglySorted before items.
Proof.
  unfold output.
  destruct (make_items _ _ (recent today_ist entries)) as [produced|];
    [|discriminate].
  intros [= <-]. split.
  - intros i A B HA HB.
    assert (H : before A B).
    { apply (Sorted_adjacent before (sort_items (dedup produced))
               (StronglySorted_Sorted (sort_items_sorted _)) i A B HA HB). }
    split; [exact H|]. apply key_ge_spec in H. split; [exact H|].
    assert (Hiso : forall a b,
              valid_date a = true -> valid_date b = true ->
              Item.date A = iso_ymd a -> Item.date B = iso_ymd b ->
              (toordinal b <= toordinal a)%Z).
    { intros a b Ha Hb HAa HBb. rewrite HAa, HBb in H.
      destruct H as [H|[Heq _]].
      - apply (iso_order b a Hb Ha) in H. lia.
      - destruct (Z.le_gt_cases (toordinal b) (toordinal a)) as [Hle|Hgt];
          [exact Hle|].
        apply (iso_order a b Ha Hb) in Hgt. rewrite Heq in Hgt.
        now apply (irreflexivity lexico) in Hgt. }
    split; [exact Hiso|].
    intros a b Ha Hb Hya Hyb HAa HBb.
    rewrite (strftime_iso a Hya) in HAa. rewrite (strftime_iso b Hyb) in HBb.
    now apply Hiso.
  - apply sort_items_sorted.
Qed.

Lemma output_sorted_witness : StronglySorted before sample_items.
Proof.
  apply (output_sorted (fun _ => []) (fun _ => true) sample_today
           sample_recs sample_items).
  vm_compute. reflexivity.
Defined.

(** ** item_id *)

Lemma hex_digit_lower n : is_lower_hex (SHA1.hex_digit (n mod 16)) = true.
Proof.
  assert (H : (0 <= n mod 16 <= 15)%Z)
    by (pose proof (Z.mod_pos_bound n 16); lia).
  enum_Z (n mod 16)%Z 15; reflexivity.
Qed.

Lemma hex8_length x : length (SHA1.hex8 x) = 8.
Proof. reflexivity. Qed.

Lemma hex8_lower x : Forall (fun c => is_lower_hex c = true) (SHA1.hex8 x).
Proof. unfold SHA1.hex8. cbn [map]. repeat constructor; apply hex_digit_lower. Qed.

Lemma hexdigest_length s : length (SHA1.hexdigest s) = 40.
Proof. reflexivity. Qed.

Lemma hexdigest_lower s :
  Forall (fun c => is_lower_hex c = true) (SHA1.hexdigest s).
Proof. unfold SHA1.hexdigest. repeat apply Forall_app_2; apply hex8_lower. Qed.

(** C5.  The id is made of the first 12 characters of the hexadecimal
    SHA-1 digest of title, a bar and link, encoded in UTF-8: always 12
    characters out of 0-9 and a-f, and a function of title and link alone,
    so that two records with the same title and link get the same id
    whatever their other fields. *)
Theorem item_id_spec (title link : option str) :
  item_id title link
  = take 12 (SHA1.hexdigest (SHA1.sha1 (encode_utf8
               (default [] title ++ chars "|" ++ default [] link)))) /\
  length (item_id title link) = 12 /\
  Forall (fun c => is_lower_hex c = true) (item_id title link) /\
  item_id (Some (chars "RBI hikes repo rate by 25 bps"))
          (Some (chars "https://pib.gov.in/x")) = chars "579a65972b5d" /\
  (forall mains_angle check_bracketed_netloc e1 e2 it1 it2,
     make_item mains_angle check_bracketed_netloc e1 = Some it1 ->
     make_item mains_angle check_bracketed_netloc e2 = Some it2 ->
     Rec.title e1 = Rec.title e2 -> Rec.link e1 = Rec.link e2 ->
     Item.id it1 = Item.id it2).
Proof.
  split; [reflexivity|]. split; [|split; [|split]].
  - unfold item_id. rewrite length_take, hexdigest_length. reflexivity.
  - unfold item_id. apply Forall_take, hexdigest_lower.
  - vm_compute. reflexivity.
  - intros m chk e1 e2 it1 it2 H1 H2 Ht Hl.
    apply make_item_fields in H1 as (_ & _ & _ & _ & -> & _).
    apply make_item_fields in H2 as (_ & _ & _ & _ & -> & _).
    now rewrite Ht, Hl.
Qed.

Lemma item_id_spec_witness :
  Item.id
    {| Item.id := chars "579a65972b5d"; Item.date := chars "2024-03-13";
       Item.category := chars "Economy";
       Item.title := chars "RBI hikes repo rate by 25 bps";
       Item.source := chars "PIB"; Item.link := chars "https://pib.gov.in/x";
       Item.summary := chars "";
       Item.prelims := [chars "Source: PIB"; chars "Date: 2024-03-13";
                        chars "Domain: pib.gov.in"];
       Item.why := chars "Mains angle: "; Item.tags := [] |}
  = Item.id
    {| Item.id := chars "579a65972b5d"; Item.date := chars "2024-03-15";
       Item.category := chars "Economy";
       Item.title := chars "RBI hikes repo rate by 25 bps";
       Item.source := chars "MEA"; Item.link := chars "https://pib.gov.in/x";
       Item.summary := chars "again";
       Item.prelims := [chars "Source: MEA"; chars "Date: 2024-03-15";
                        chars "Domain: pib.gov.in"];
       Item.why := chars "Mains angle: "; Item.tags := [] |}.
Proof.
  destruct (item_id_spec None None) as (_ & _ & _ & _ & H).
  apply (H (fun _ => []) (fun _ => true)
           (Rec.mk (chars "PIB") (chars "RBI hikes repo rate by 25 bps")
              (chars "https://pib.gov.in/x") (chars "") (chars "2024-03-13"))
           (Rec.mk (chars "MEA") (chars "RBI hikes repo rate by 25 bps")
              (chars "https://pib.gov.in/x") (chars "again")
              (chars "2024-03-15")));
    vm_compute; reflexivity.
Defined.

(** ** prelims_facts *)

(** The list starts with the source and the date; a third line gives the
    network location of the link with every occurrence of [www.] removed,
    when that is not empty. *)
Lemma prelims_facts_shape chk (entry : Rec.t) (date_str : str) out :
  prelims_facts chk entry date_str = Some out ->
  exists n,
    urlparse_netloc chk (Rec.link entry) = Some n /\
    out = [chars "Source: " ++ Rec.feed_name entry; chars "Date: " ++ date_str]
          ++ match replace_empty (chars "www.") n with
             | [] => []
             | netloc => [chars "Domain: " ++ netloc]
             end.
Proof.
  unfold prelims_facts.
  destruct (urlparse_netloc chk (Rec.link entry)) as [n|]; [|discriminate].
  intros H. exists n. split; [reflexivity|].
  destruct (replace_empty (chars "www.") n); now injection H as <-.
Qed.

(** C7, at the inputs where the code leaves the claim.  The host of
    [https://awww.example.com/x] has no leading [www.], and the code still
    cuts [www.] out of it; the host of [https://www./x] is not empty, and
    the code gives no domain line. *)
Theorem prelims_facts_www (chk : str -> bool) :
  urlparse_netloc chk (chars "https://awww.example.com/x")
  = Some (chars "awww.example.com") /\
  prelims_facts chk
    (Rec.mk (chars "PIB") (chars "t") (chars "https://awww.example.com/x")
       (chars "") (chars "2024-03-13")) (chars "2024-03-13")
  = Some [chars "Source: PIB"; chars "Date: 2024-03-13";
          chars "Domain: aexample.com"] /\
  urlparse_netloc chk (chars "https://www./x") = Some (chars "www.") /\
  prelims_facts chk
    (Rec.mk (chars "PIB") (chars "t") (chars "https://www./x")
       (chars "") (chars "2024-03-13")) (chars "2024-03-13")
  = Some [chars "Source: PIB"; chars "Date: 2024-03-13"].
Proof. repeat split; reflexivity. Qed.

(** ** The loop over the feeds *)

Lemma append_each {A B} (g : A -> B) (l : list A) : forall acc,
  fold_left (fun acc e => acc ++ [g e]) l acc = acc ++ map g l.
Proof.
  induction l as [|a l IH]; intros acc; cbn; [now rewrite app_nil_r|].
  rewrite IH. now rewrite <- app_assoc.
Qed.

Lemma load_feed_spec now parse st f :
  load_feed now parse st f
  = mkload (entries st ++ feed_entries now parse f)
           (stderr st ++ feed_warnings parse f).
Proof.
  unfold load_feed, feed_entries, feed_warnings.
  destruct (parse (Feed.url f)); cbn.
  - rewrite app_nil_r. now destruct st.
  - now rewrite append_each, app_nil_r.
Qed.

Lemma fold_load_feed now parse feeds : forall st,
  fold_left (load_feed now parse) feeds st
  = mkload (entries st ++ flat_map (feed_entries now parse) feeds)
           (stderr st ++ flat_map (feed_warnings parse) feeds).
Proof.
  induction feeds as [|f feeds IH]; intros st; cbn.
  - rewrite !app_nil_r. now destruct st.
  - rewrite IH, load_feed_spec. cbn. now rewrite <- !app_assoc.
Qed.

Lemma load_feeds_spec now parse feeds :
  load_feeds now parse feeds
  = mkload (flat_map (feed_entries now parse) feeds)
           (flat_map (feed_warnings parse) feeds).
Proof. unfold load_feeds. now rewrite fold_load_feed. Qed.

(** A record that passes the filter has an item with its title and link
    in the output. *)
Lemma output_covers mains chk today_ist recs items r :
  output mains chk today_ist recs = Some items ->
  In r recs -> within_days today_ist (Rec.date r) 14 = true ->
  exists it, In it items /\
    Item.title it = Rec.title r /\ Item.link it = Rec.link r.
Proof.
  unfold output.
  destruct (make_items mains chk (recent today_ist recs)) as [produced|] eqn:E;
    [|discriminate].
  intros [= <-] Hin Hw.
  assert (Hr : In r (recent today_ist recs))
    by (unfold recent; apply filter_In; tauto).
  apply make_items_Forall2 in E.
  apply list_elem_of_In, list_elem_of_lookup in Hr as [i Hi].
  destruct (Forall2_lookup_l _ _ _ _ _ E Hi) as (it & Hit & Hmk).
  apply make_item_fields in Hmk as (Ht & Hl & _).
  assert (Hk : dedup_key it ∈ (dedup_key <$> dedup produced)).
  { apply dedup_keeps_keys. apply list_elem_of_lookup. eauto. }
  apply list_elem_of_fmap in Hk as (it' & Hk & Hin').
  exists it'. split.
  - apply list_elem_of_In. now rewrite sort_items_Permutation.
  - unfold dedup_key in Hk. injection Hk as Hk1 Hk2.
    now rewrite <- Hk1, <- Hk2.
Qed.

(** C9.  A feed whose fetch raises is caught inside the loop: the warning
    with its name and the error goes to [stderr], it adds no record, and
    the loop goes on.  The records, and with them the output of the whole
    script, are those of the run without that feed: every entry of every
    feed that was parsed still becomes a record and, when it passes the
    recency filter, has its item in the output. *)
Theorem feed_failure_is_local (mains_angle : str -> str)
    (check_bracketed_netloc : str -> bool) (parse : str -> parse_result)
    (now today_ist : date) (fs1 fs2 : list Feed.t) (f : Feed.t) (ex : str) :
  parse (Feed.url f) = Raised ex ->
  let st := load_feeds now parse (fs1 ++ f :: fs2) in
  In (chars "[WARN] Failed " ++ Feed.name f ++ chars ": " ++ ex) (stderr st) /\
  feed_entries now parse f = [] /\
  entries st = entries (load_feeds now parse (fs1 ++ fs2)) /\
  fst (script mains_angle check_bracketed_netloc parse now today_ist
         (fs1 ++ f :: fs2))
  = fst (script mains_angle check_bracketed_netloc parse now today_ist
           (fs1 ++ fs2)) /\
  (forall g es e,
     In g (fs1 ++ fs2) -> parse (Feed.url g) = Parsed es -> In e es ->
     In (make_rec now g e) (entries st)) /\
  (forall items g es e,
     fst (script mains_angle check_bracketed_netloc parse now today_ist
            (fs1 ++ f :: fs2)) = Some items ->
     In g (fs1 ++ fs2) -> parse (Feed.url g) = Parsed es -> In e es ->
     within_days today_ist (Rec.date (make_rec now g e)) 14 = true ->
     exists it, In it items /\
       Item.title it = Rec.title (make_rec now g e) /\
       Item.link it = Rec.link (make_rec now g e)).
Proof.
  intros Hf. cbv zeta.
  assert (Hfe : feed_entries now parse f = [])
    by (unfold feed_entries; now rewrite Hf).
  assert (Heq : entries (load_feeds now parse (fs1 ++ f :: fs2))
                = entries (load_feeds now parse (fs1 ++ fs2))).
  { rewrite !load_feeds_spec. cbn [entries].
    rewrite !flat_map_app. cbn [flat_map]. now rewrite Hfe. }
  assert (Hall : forall g es e,
            In g (fs1 ++ fs2) -> parse (Feed.url g) = Parsed es -> In e es ->
            In (make_rec now g e)
               (entries (load_feeds now parse (fs1 ++ f :: fs2)))).
  { intros g es e Hg Hes He. rewrite Heq, load_feeds_spec. cbn [entries].
    apply in_flat_map. exists g. split; [exact Hg|].
    unfold feed_entries. rewrite Hes. now apply in_map. }
  split; [|split; [exact Hfe|split; [exact Heq|split; [|split]]]].
  - rewrite load_feeds_spec. cbn [stderr]. apply in_flat_map.
    exists f. split; [apply in_elt|].
    unfold feed_warnings. rewrite Hf. now left.
  - unfold script. cbn [fst]. now rewrite Heq.
  - exact Hall.
  - intros items g es e Hout Hg Hes He Hw. unfold script in Hout.
    cbn [fst] in Hout.
    apply (output_covers _ _ _ _ _ _ Hout); [|exact Hw].
    now apply (Hall g es e).
Qed.

Lemma feed_failure_is_local_witness :
  In (chars "[WARN] Failed " ++ Feed.name sample_broken ++ chars ": "
      ++ chars "timed out")
     (stderr (load_feeds sample_today sample_parse
                ([] ++ sample_broken :: [sample_pib]))).
Proof.
  assert (H : sample_parse (Feed.url sample_broken) = Raised (chars "timed out"))
    by (vm_compute; reflexivity).
  exact (proj1 (feed_failure_is_local (fun _ => []) (fun _ => true)
                  sample_parse sample_today sample_today [] [sample_pib]
                  sample_broken (chars "timed out") H)).
Defined.

(** * Further properties *)

(** ** classify: the categories it can return *)

Lemma classify_loop_in rules text :
  In (classify_loop rules text) (map snd rules) \/
  classify_loop rules text = FALLBACK.
Proof.
  induction rules as [|[pattern cat] rules IH]; cbn [classify_loop map snd].
  - now right.
  - destruct (re_search true pattern text); [left; now left|].
    destruct IH as [IH|IH]; [left; now right|now right].
Qed.

Lemma classify_in_rules title summary source_hint :
  In (classify title summary source_hint) (map snd RULES).
Proof.
  unfold classify.
  destruct (classify_loop_in RULES
              (lower (classify_text title summary source_hint))) as [H|H];
    [exact H|].
  rewrite H. cbn. tauto.
Qed.

(** X1.  Whatever the title, the summary and the feed name, [classify]
    returns one of the twelve category names of [RULES]; the
    [default_category] of a feed ("Governance" for the feed of the script)
    is not among them and is never returned. *)
Theorem classify_closed (title summary source_hint : str) :
  In (classify title summary source_hint)
     (map chars ["Economy"; "International Relations"; "Environment";
                 "Science & Tech"; "Security/Disaster"; "Judgments";
                 "Bills & Acts"; "Schemes"; "History & Culture"; "Geography";
                 "Reports & Indices"; "Polity"]%string) /\
  Forall (fun f => classify title summary source_hint <> Feed.default_category f)
         FEEDS.
Proof.
  pose proof (classify_in_rules title summary source_hint) as H.
  split; [exact H|].
  repeat constructor. cbn [Feed.default_category].
  intros Heq. rewrite Heq in H. cbn in H.
  repeat (destruct H as [H|H]; [discriminate H|]). exact H.
Qed.

(** ** classify: texts without word characters *)

Lemma rules_bounded :
  Forall (fun rc => exists rs, fst rc = bounded rs) RULES.
Proof. repeat constructor; eexists; reflexivity. Qed.

Lemma classify_loop_none rules text :
  (forall pattern cat, In (pattern, cat) rules ->
     re_search true pattern text = false) ->
  classify_loop rules text = FALLBACK.
Proof.
  induction rules as [|[pattern cat] rules IH]; intros H; [reflexivity|].
  cbn [classify_loop]. rewrite (H pattern cat) by now left.
  apply IH. intros p c Hin. apply (H p c). now right.
Qed.

Lemma no_word_last (x : str) : no_word_chars x -> word_opt (last x) = false.
Proof.
  intros H. destruct (last x) as [c|] eqn:E; [|reflexivity].
  apply last_Some in E as [l' ->]. apply Forall_app in H as [_ H].
  now inversion H.
Qed.

Lemma no_word_head (x : str) : no_word_chars x -> word_opt (head x) = false.
Proof. intros H. destruct x; [reflexivity|]. now inversion H. Qed.

(** [\b] holds nowhere in a text without word characters. *)
Lemma bounded_no_word rs (text : str) :
  no_word_chars text -> re_search true (bounded rs) text = false.
Proof.
  intros Hn. destruct (re_search true (bounded rs) text) eqn:E; [|reflexivity].
  apply re_search_spec in E as (pre & post & st' & -> & Hm).
  apply Forall_app in Hn as [Hpre Hpost].
  unfold bounded in Hm. inversion Hm as [| | | |? ? ? st1 ? Hb _| | | | | |]; subst.
  inversion Hb as [| | |? Hat| | | | | | |]; subst.
  unfold at_boundary in Hat. cbn [fst snd] in Hat.
  now rewrite (no_word_last _ Hpre), (no_word_head _ Hpost) in Hat.
Qed.

Lemma no_word_lower (x : str) : no_word_chars x -> no_word_chars (lower x).
Proof.
  unfold no_word_chars, lower. rewrite !List.Forall_forall.
  intros H c Hc. apply in_map_iff in Hc as (c0 & <- & Hc0).
  rewrite is_word_lower. now apply H.
Qed.

(** X2.  When title, summary and feed name hold no letter, digit or
    underscore (they may be empty, or punctuation and spaces only), no
    rule can match, because every rule starts with [\b]: the category is
    the fallback, Polity. *)
Theorem classify_no_word_chars (title summary source_hint : str) :
  no_word_chars title -> no_word_chars summary -> no_word_chars source_hint ->
  classify title summary source_hint = chars "Polity".
Proof.
  intros Ht Hs Hh. unfold classify. apply classify_loop_none.
  intros pattern cat Hin.
  pose proof rules_bounded as Hb. rewrite List.Forall_forall in Hb.
  destruct (Hb _ Hin) as [rs Hrs]. cbn in Hrs. subst pattern.
  apply bounded_no_word, no_word_lower. unfold classify_text.
  repeat apply Forall_app_2; try assumption; repeat constructor.
Qed.

Lemma classify_no_word_chars_witness :
  classify (chars "!?") (chars "... --- ...") (chars "") = chars "Polity".
Proof.
  apply (classify_no_word_chars (chars "!?") (chars "... --- ...") (chars ""));
    repeat constructor.
Defined.

(** ** classify: priority of the rules *)

(** [bounded_keyword] with the weakest condition on the word: only its
    first and last characters have to be word characters, so that keywords
    with a space inside are covered. *)
Lemma bounded_keyword_ends kw rs (w text : str) :
  In (word kw) rs ->
  word_opt (head w) = true -> word_opt (last w) = true ->
  lower w = lower (chars kw) -> word_at w text ->
  re_search true (bounded rs) (lower text) = true.
Proof.
  intros Hin Hhead Hlast Hw (pre & post & -> & Hpre & Hpost).
  apply re_search_spec.
  exists (lower pre), (lower (w ++ post)),
    (from_option Some (last (lower pre)) (last (lower w)), lower post).
  split; [now rewrite <- lower_app|].
  unfold bounded. rewrite lower_app.
  eapply RM_Cat; [|eapply RM_Cat].
  - apply RM_WordB. unfold at_boundary. cbn [fst snd].
    rewrite last_lower, word_opt_lower, Hpre.
    rewrite <- lower_app, head_lower, word_opt_lower.
    destruct w as [|c w]; [discriminate Hhead|]. cbn in Hhead |- *.
    now rewrite Hhead.
  - apply (rmatch_alts _ _ _ _ _ Hin). apply rmatch_word.
    rewrite <- Hw. unfold lower. rewrite map_map. apply map_ext.
    intros c. all_chars c.
  - apply RM_WordB. unfold at_boundary. cbn [fst snd].
    rewrite head_lower, word_opt_lower, Hpost.
    rewrite (last_lower w).
    destruct (last w) as [c|] eqn:E; [|discriminate Hlast].
    cbn in Hlast |- *. now rewrite is_word_lower, Hlast.
Qed.

(** X3.  The rules have priority in their order.  When a keyword of rule
    [i] stands in the text as a whole word, in any case, the category
    returned is that of the first matching rule, which is rule [i] or a
    rule before it: never the fallback and never a later rule. *)
Theorem classify_keyword_priority (i : nat) (rs : list regex) (cat : str)
    (kw : string) (w title summary source_hint : str) :
  RULES !! i = Some (bounded rs, cat) ->
  In (word kw) rs ->
  word_opt (head w) = true -> word_opt (last w) = true ->
  lower w = lower (chars kw) ->
  word_at w (classify_text title summary source_hint) ->
  exists j, j <= i /\
    first_match RULES (lower (classify_text title summary source_hint)) j
      (classify title summary source_hint).
Proof.
  intros Hi Hin Hhead Hlast Hw Hat.
  pose proof (bounded_keyword_ends kw rs w _ Hin Hhead Hlast Hw Hat) as Hm.
  unfold classify.
  destruct (classify_loop_spec RULES
              (lower (classify_text title summary source_hint)))
    as [(j & pat & Hj & Hmj & Hlt)|[Hno _]].
  - exists j. split; [|exists pat; auto].
    destruct (le_lt_dec j i) as [Hle|Hgt]; [exact Hle|].
    rewrite (Hlt i (bounded rs) cat Hgt Hi) in Hm. discriminate Hm.
  - rewrite (Hno (bounded rs) cat) in Hm; [discriminate Hm|].
    apply list_elem_of_In, list_elem_of_lookup. eauto.
Qed.

Lemma classify_keyword_priority_witness :
  exists j, j <= 5 /\
    first_match RULES
      (lower (classify_text (chars "Supreme Court on the Forest Act")
                (chars "") (chars "PIB"))) j
      (classify (chars "Supreme Court on the Forest Act") (chars "")
         (chars "PIB")).
Proof.
  apply (classify_keyword_priority 5
           [word "Supreme Court"; word "High Court";
            seqs [word "SC"; WordB]; seqs [word "HC"; WordB];
            word "judgment"; word "verdict"; word "order"]
           (chars "Judgments") "Supreme Court" (chars "Supreme Court")).
  - reflexivity.
  - cbn. tauto.
  - reflexivity.
  - reflexivity.
  - reflexivity.
  - exists [], (chars " on the Forest Act  PIB"). repeat split; reflexivity.
Defined.

(** ** classify: the case of the text *)

Lemma lower_char_idem c : lower_char (lower_char c) = lower_char c.
Proof. all_chars c. Qed.

Lemma char_eq_lower p c : char_eq true p (lower_char c) = char_eq true p c.
Proof. unfold char_eq. now rewrite lower_char_idem. Qed.

Lemma cls_match_lower neg items c :
  cls_match true neg items (lower_char c) = cls_match true neg items c.
Proof.
  unfold cls_match. f_equal.
  induction items as [|it items IH]; [reflexivity|].
  cbn [existsb]. rewrite IH. f_equal.
  destruct it as [p|lo hi]; cbn [item_match]; [apply char_eq_lower|].
  induction (range_chars lo hi) as [|x xs IHx]; [reflexivity|].
  cbn [existsb]. now rewrite IHx, char_eq_lower.
Qed.

Lemma at_boundary_lower st : at_boundary (lower_state st) = at_boundary st.
Proof.
  destruct st as [prev rest]. unfold at_boundary, lower_state. cbn [fst snd].
  now rewrite head_lower, !word_opt_lower.
Qed.

Lemma min_plus_lower p (rest : str) :
  (forall c, p (lower_char c) = p c) ->
  min_plus p (lower rest) = map lower_state (min_plus p rest).
Proof.
  intros Hp. induction rest as [|c rest IH]; [reflexivity|].
  cbn [lower map min_plus]. fold (lower rest). rewrite Hp.
  destruct (p c); [|reflexivity]. cbn [map]. now rewrite IH.
Qed.

(** The engine with [re.I] does on the lowered text what it does on the
    text: the same matches, in the same order, lowered. *)
Lemma run_lower r : forall st,
  run true r (lower_state st) = map lower_state (run true r st).
Proof.
  induction r as [| |p|neg items| |r1 IH1 r2 IH2|r1 IH1 r2 IH2|r1 IH1
                 |neg items]; intros st.
  - reflexivity.
  - reflexivity.
  - destruct st as [prev [|c rest]]; [reflexivity|].
    cbn [run snd lower_state lower map fst]. rewrite char_eq_lower.
    now destruct (char_eq true p c).
  - destruct st as [prev [|c rest]]; [reflexivity|].
    cbn [run snd lower_state lower map fst]. rewrite cls_match_lower.
    now destruct (cls_match true neg items c).
  - cbn [run]. rewrite at_boundary_lower. now destruct (at_boundary st).
  - cbn [run]. rewrite IH1.
    induction (run true r1 st) as [|s l IHl]; [reflexivity|].
    cbn [map flat_map]. now rewrite map_app, IH2, IHl.
  - cbn [run]. now rewrite map_app, IH1, IH2.
  - cbn [run]. now rewrite map_app, IH1.
  - destruct st as [prev rest]. cbn [run snd lower_state].
    apply min_plus_lower, cls_match_lower.
Qed.

Lemma match_at_lower r st :
  match_at true r (lower_state st) = lower_state <$> match_at true r st.
Proof.
  unfold match_at. rewrite run_lower. now destruct (run true r st).
Qed.

Lemma found_congr (a b : option state) (x y : bool) :
  (a = None <-> b = None) -> x = y ->
  match a with Some _ => true | None => x end =
  match b with Some _ => true | None => y end.
Proof.
  intros H ->. destruct a, b; try reflexivity.
  - discriminate (proj2 H eq_refl).
  - discriminate (proj1 H eq_refl).
Qed.

Lemma search_from_lower r : forall (rest : str) prev,
  search_from true r (lower_char <$> prev) (lower rest) =
  search_from true r prev rest.
Proof.
  assert (H : forall st,
    match_at true r (lower_state st) = None <-> match_at true r st = None).
  { intros st. rewrite match_at_lower.
    destruct (match_at true r st); cbn; split; congruence. }
  induction rest as [|c rest IH]; intros prev.
  - cbn [search_from lower map].
    apply found_congr; [apply (H (prev, [])) | reflexivity].
  - cbn [search_from lower map]. fold (lower rest).
    apply found_congr; [apply (H (prev, c :: rest)) | exact (IH (Some c))].
Qed.

Lemma re_search_lower r (text : str) :
  re_search true r (lower text) = re_search true r text.
Proof. exact (search_from_lower r text None). Qed.

Lemma classify_loop_lower rules (text : str) :
  classify_loop rules (lower text) = classify_loop rules text.
Proof.
  induction rules as [|[pattern cat] rules IH]; [reflexivity|].
  cbn [classify_loop]. now rewrite re_search_lower, IH.
Qed.

(** X4.  The category does not depend on the case of the text: two entries
    whose title, summary and hint are equal up to case get the same
    category.  The patterns being compiled with [re.I], the [.lower()] of
    [classify] changes nothing: the loop over the rules gives the same
    category on the text as it stands. *)
Theorem classify_case_insensitive
    (title summary source_hint title' summary' source_hint' : str) :
  lower title = lower title' -> lower summary = lower summary' ->
  lower source_hint = lower source_hint' ->
  classify title summary source_hint =
    classify_loop RULES (classify_text title' summary' source_hint').
Proof.
  intros Ht Hs Hh. unfold classify.
  rewrite <- (classify_loop_lower RULES (classify_text title' _ _)).
  unfold classify_text. now rewrite !lower_app, Ht, Hs, Hh.
Qed.

Lemma classify_case_insensitive_witness :
  classify (chars "GST Council") (chars "Budget") (chars "PIB") =
  classify_loop RULES
    (classify_text (chars "gst COUNCIL") (chars "BUDGET") (chars "pib")).
Proof.
  apply (classify_case_insensitive (chars "GST Council") (chars "Budget")
           (chars "PIB") (chars "gst COUNCIL") (chars "BUDGET")
           (chars "pib")); reflexivity.
Defined.

(** ** mains_angle *)

(** X5.  The table of [mains_angle] has a sentence for every category
    that [classify] can return: for the category of an item the look-up
    always succeeds and the default sentence is never the one used. *)
Theorem mains_angle_never_default (title summary source_hint : str) :
  exists sentence,
    mains_angle_M !! classify title summary source_hint = Some sentence /\
    mains_angle_cp (classify title summary source_hint) = sentence /\
    sentence <> mains_angle_default.
Proof.
  pose proof (classify_in_rules title summary source_hint) as H.
  unfold mains_angle_cp.
  cbn [map RULES snd] in H.
  repeat (destruct H as [<-|H];
    [eexists; split; [vm_compute; reflexivity|split; [reflexivity|]];
     vm_compute; discriminate|]).
  destruct H.
Qed.

(** ** The summary: what the normalisation keeps *)

Lemma lstrip_sublist (x : str) : sublist (lstrip x) x.
Proof.
  induction x as [|c x IH]; [constructor|].
  cbn [lstrip]. destruct (is_space c); [now apply sublist_cons|reflexivity].
Qed.

Lemma rev_sublist (x y : str) : sublist x y -> sublist (rev x) (rev y).
Proof.
  induction 1 as [|c x y _ IH|c x y _ IH]; cbn [rev].
  - constructor.
  - now apply sublist_app.
  - rewrite <- (app_nil_r (rev x)). now apply sublist_app; [|constructor].
Qed.

Lemma strip_sublist (x : str) : sublist (strip x) x.
Proof.
  unfold strip, rstrip. transitivity (lstrip x); [|apply lstrip_sublist].
  rewrite <- (rev_involutive (lstrip x)) at 2.
  apply rev_sublist, lstrip_sublist.
Qed.

Lemma sub_scan_sublist r (rest : str) : forall skip prev,
  sublist (sub_scan r skip prev rest) rest.
Proof.
  induction rest as [|c rest IH]; intros skip prev; [constructor|].
  cbn [sub_scan]. destruct skip as [|k]; [|apply sublist_cons, IH].
  destruct (match_len false r prev (c :: rest)) as [[|k]|].
  - apply sublist_skip, IH.
  - apply sublist_cons, IH.
  - apply sublist_skip, IH.
Qed.

(** X6.  The stored summary is made of characters of the raw summary, in
    their order: the normalisation deletes characters and does nothing
    else.  It is never longer than the raw summary, and never longer than
    450 characters. *)
Theorem normalize_summary_deletes_only (raw : str) :
  sublist (normalize_summary raw) raw /\
  length (normalize_summary raw) <= min 450 (length raw).
Proof.
  assert (H : sublist (normalize_summary raw) raw).
  { unfold normalize_summary, strip_tags, re_sub_empty.
    transitivity (sub_scan tag_pattern 0 None (strip raw));
      [apply sublist_take|].
    transitivity (strip raw); [apply sub_scan_sublist|apply strip_sublist]. }
  split; [exact H|].
  apply Nat.min_glb; [|now apply sublist_length].
  unfold normalize_summary. rewrite length_take. lia.
Qed.

(** A [<] that no [>] follows opens no tag. *)
Lemma tag_body_open p (rest : str) :
  no_gt rest ->
  flat_map (run false close_tag) (min_plus p rest) = [].
Proof.
  induction 1 as [|c rest Hc Hgt IH]; [reflexivity|].
  cbn [min_plus]. destruct (p c); [|reflexivity].
  cbn [flat_map]. rewrite IH, app_nil_r.
  destruct Hgt as [|c' rest' Hc' _]; [reflexivity|].
  now apply close_tag_other.
Qed.

Lemma tag_match_len_open prev (rest : str) :
  no_gt rest -> match_len false tag_pattern prev rest = None.
Proof.
  intros Hgt. destruct rest as [|c rest]; [reflexivity|].
  destruct (ascii_dec c "<"%char) as [->|Hc];
    [|now apply tag_match_len_other].
  unfold match_len, match_at. rewrite run_tag_lt, tag_body_open; [reflexivity|].
  now inversion Hgt.
Qed.

(** X7.  A text without [>] holds no tag and passes the tag removal as it
    is, its [<] characters included. *)
Theorem strip_tags_no_gt (x : str) : no_gt x -> strip_tags x = x.
Proof.
  unfold strip_tags, re_sub_empty. generalize (@None ascii) as prev.
  induction x as [|c x IH]; intros prev Hgt; [reflexivity|].
  cbn [sub_scan]. rewrite (tag_match_len_open prev (c :: x) Hgt).
  f_equal. apply IH. now inversion Hgt.
Qed.

Lemma strip_tags_no_gt_witness :
  strip_tags (chars "if a < b and b <c then") = chars "if a < b and b <c then".
Proof.
  apply (strip_tags_no_gt (chars "if a < b and b <c then")).
  unfold no_gt. repeat constructor; discriminate.
Defined.

(** ** to_ist_ymd: the change of date and the failures *)

Local Open Scope Z_scope.

Lemma datetime_utc_spec t :
  datetime_utc t =
  if valid_date (utc_date t) && valid_clock t
  then Some (utc_date t, seconds_of t) else None.
Proof.
  unfold datetime_utc, valid_clock, utc_date, seconds_of.
  now rewrite !andb_assoc.
Qed.

Lemma ist_date_spec t :
  ist_date t =
  if valid_date (utc_date t) && valid_clock t then
    if seconds_of t <? ist_midnight then Some (utc_date t)
    else if valid_date (next_day (utc_date t))
         then Some (next_day (utc_date t)) else None
  else None.
Proof.
  unfold ist_date. rewrite datetime_utc_spec.
  destruct (valid_date (utc_date t) && valid_clock t); [|reflexivity].
  unfold astimezone_IST, ist_midnight.
  replace (seconds_of t + IST <? 86400) with (seconds_of t <? 86400 - IST)
    by (apply eq_iff_eq_true; rewrite !Z.ltb_lt; lia).
  destruct (seconds_of t <? 86400 - IST); [reflexivity|].
  now destruct (valid_date (next_day (utc_date t))).
Qed.

Lemma last_day_no_next d :
  valid_date d = true ->
  valid_date (next_day d) = false <-> d = mkdate 9999 12 31.
Proof.
  intros Hv. split.
  - intros Hn.
    destruct (Z.eq_dec (year d) 9999) as [Hy|Hy];
      [destruct (Z.eq_dec (month d) 12) as [Hm|Hm];
       [destruct (Z.eq_dec (day d) 31) as [Hd|Hd]|]|].
    + destruct d; cbn in *; now subst.
    + rewrite valid_next_day in Hn; [discriminate|exact Hv|].
      intros ->. now apply Hd.
    + rewrite valid_next_day in Hn; [discriminate|exact Hv|].
      intros ->. now apply Hm.
    + rewrite valid_next_day in Hn; [discriminate|exact Hv|].
      intros ->. now apply Hy.
  - intros ->. reflexivity.
Qed.

(** X8.  The date of an entry is its UTC date when its time of day is
    before 18:30:00 UTC, and the day after from 18:30:00 on, where it is
    already the next day in India.  The date of the run and the
    [fallback_today] flag play no part when the timestamp converts. *)
Theorem to_ist_ymd_day_boundary (now : date) (t : struct_time)
    (fallback_today : bool) :
  valid_date (utc_date t) = true -> valid_clock t = true ->
  utc_date t <> mkdate 9999 12 31 ->
  ist_midnight = 18 * 3600 + 30 * 60 /\
  to_ist_ymd now (Some t) fallback_today =
    Some (strftime_ymd (if seconds_of t <? ist_midnight then utc_date t
                        else next_day (utc_date t))) /\
  toordinal (next_day (utc_date t)) = toordinal (utc_date t) + 1.
Proof.
  intros Hd Hc Hne. split; [reflexivity|]. split.
  - unfold to_ist_ymd. rewrite ist_date_spec, Hd, Hc. cbn [andb].
    destruct (seconds_of t <? ist_midnight); [reflexivity|].
    now rewrite (valid_next_day _ Hd Hne).
  - now apply toordinal_next_day.
Qed.

Lemma to_ist_ymd_day_boundary_witness :
  let t := mkstruct_time 2024 2 29 18 30 0 3 60 0 in
  ist_midnight = 18 * 3600 + 30 * 60 /\
  to_ist_ymd (mkdate 2024 6 1) (Some t) false =
    Some (strftime_ymd (if seconds_of t <? ist_midnight then utc_date t
                        else next_day (utc_date t))) /\
  toordinal (next_day (utc_date t)) = toordinal (utc_date t) + 1.
Proof.
  apply (to_ist_ymd_day_boundary (mkdate 2024 6 1)
           (mkstruct_time 2024 2 29 18 30 0 3 60 0) false).
  - reflexivity.
  - reflexivity.
  - discriminate.
Defined.

(** X9.  With [fallback_today=False] the function returns [None] in these
    cases and no other: no timestamp; a date that is not in the calendar
    of years 1 to 9999; an hour, minute or second out of range (a leap
    second 60 included); the last day of year 9999 from 18:30:00 UTC on,
    whose day in India is beyond the calendar. *)
Theorem to_ist_ymd_none_iff (now : date) (dt_struct : option struct_time) :
  to_ist_ymd now dt_struct false = None <->
  dt_struct = None \/
  exists t, dt_struct = Some t /\
    (valid_date (utc_date t) = false \/ valid_clock t = false \/
     (utc_date t = mkdate 9999 12 31 /\ ist_midnight <= seconds_of t)).
Proof.
  destruct dt_struct as [t|]; cbn [to_ist_ymd]; [|tauto].
  rewrite ist_date_spec.
  destruct (valid_date (utc_date t)) eqn:Hd; cbn [andb].
  2:{ split; [|reflexivity]. intros _. right. exists t. tauto. }
  destruct (valid_clock t) eqn:Hc.
  2:{ split; [|reflexivity]. intros _. right. exists t. tauto. }
  destruct (seconds_of t <? ist_midnight) eqn:Hs.
  - apply Z.ltb_lt in Hs. split; [discriminate|].
    intros [H|(t' & [= <-] & [H|[H|[_ H]]])]; [discriminate H|congruence|congruence|lia].
  - apply Z.ltb_ge in Hs.
    pose proof (last_day_no_next _ Hd) as Hlast.
    destruct (valid_date (next_day (utc_date t))) eqn:Hn.
    + split; [discriminate|].
      intros [H|(t' & [= <-] & [H|[H|[H _]]])];
        [discriminate H|congruence|congruence|].
      apply Hlast in H. discriminate H.
    + split; [|reflexivity]. intros _. right. exists t. split; [reflexivity|].
      right. right. split; [now apply Hlast|exact Hs].
Qed.

Local Open Scope nat_scope.

(** ** The records of the loader *)

Lemma lstrip_all_space (x : str) : all_space x -> lstrip x = [].
Proof.
  induction 1 as [|c x Hc _ IH]; [reflexivity|].
  cbn [lstrip]. now rewrite Hc.
Qed.

Lemma strip_all_space (x : str) : all_space x -> strip x = [].
Proof. intros H. unfold strip. now rewrite (lstrip_all_space x H). Qed.

(** X10.  The [or] of the summary line tests the text before it is
    stripped: a summary that is not empty but holds whitespace only is
    taken, the description of the entry is not looked at, and the record
    gets an empty summary. *)
Theorem make_rec_blank_summary (now : date) (f : Feed.t) (e : Entry.t)
    (s : str) :
  Entry.summary e = Some s -> s <> [] -> all_space s ->
  Rec.summary (make_rec now f e) = [].
Proof.
  intros He Hne Hsp. unfold make_rec. cbn [Rec.summary]. rewrite He.
  destruct s as [|c s]; [congruence|]. cbn [or_str].
  change (default [] (Some (c :: s))) with (c :: s).
  unfold normalize_summary. now rewrite (strip_all_space _ Hsp).
Qed.

Lemma make_rec_blank_summary_witness :
  Rec.summary
    (make_rec (mkdate 2024 3 15)
       (Feed.mk (chars "PIB") (chars "https://pib.gov.in/rss")
          (chars "Governance"))
       (Entry.mk (Some (chars "Cabinet note")) (Some (chars "https://a/b"))
          (Some (chars "  ")) (Some (chars "The full text")) None None))
  = [].
Proof.
  apply (make_rec_blank_summary (mkdate 2024 3 15)
           (Feed.mk (chars "PIB") (chars "https://pib.gov.in/rss")
              (chars "Governance"))
           (Entry.mk (Some (chars "Cabinet note")) (Some (chars "https://a/b"))
              (Some (chars "  ")) (Some (chars "The full text")) None None)
           (chars "  ")).
  - reflexivity.
  - discriminate.
  - unfold all_space. repeat constructor.
Defined.

(** The date of a record: that of its timestamp in India when there is
    one that converts, the date of the run otherwise. *)
Lemma make_rec_date now f e :
  Rec.date (make_rec now f e) =
  strftime_ymd
    (default now
       (or_time (Entry.published_parsed e) (Entry.updated_parsed e)
          ≫= ist_date)).
Proof.
  unfold make_rec. cbn [Rec.date]. unfold to_ist_ymd.
  destruct (or_time _ _) as [t|]; [|reflexivity].
  cbn. now destruct (ist_date t).
Qed.

Lemma make_rec_date_valid now (e : Entry.t) :
  valid_date now = true ->
  valid_date
    (default now
       (or_time (Entry.published_parsed e) (Entry.updated_parsed e)
          ≫= ist_date)) = true.
Proof.
  intros Hnow. destruct (or_time _ _) as [t|]; [|exact Hnow].
  cbn. destruct (ist_date t) eqn:E; [|exact Hnow].
  exact (ist_date_valid _ _ E).
Qed.

(** X11.  What every record built by the loader satisfies: it carries the
    name of its feed; title and link neither start nor end with
    whitespace; the summary has at most 450 characters; and the date is
    what [strftime] writes for a day of the calendar.  When that day lies
    in year 1000 or later the date has the shape YYYY-MM-DD, [strptime]
    reads it back and the filter is the plain comparison of the day
    counts.  When it lies in a year below 1000 the year is written on
    fewer than four digits, [strptime] does not read the date and the
    filter keeps the record whatever its age. *)
Theorem make_rec_invariants (now today_ist : date) (f : Feed.t) (e : Entry.t) :
  valid_date now = true ->
  let r := make_rec now f e in
  Rec.feed_name r = Feed.name f /\
  space_opt (head (Rec.title r)) = false /\
  space_opt (last (Rec.title r)) = false /\
  space_opt (head (Rec.link r)) = false /\
  space_opt (last (Rec.link r)) = false /\
  length (Rec.summary r) <= 450 /\
  exists d,
    Rec.date r = strftime_ymd d /\ valid_date d = true /\
    ((1000 <= year d)%Z ->
     is_ymd_format (Rec.date r) = true /\
     strptime_ymd (Rec.date r) = Some d /\
     within_days today_ist (Rec.date r) 14
       = (toordinal today_ist - toordinal d <=? 14)%Z) /\
    ((year d < 1000)%Z ->
     is_ymd_format (Rec.date r) = false /\
     strptime_ymd (Rec.date r) = None /\
     within_days today_ist (Rec.date r) 14 = true).
Proof.
  intros Hnow r.
  destruct (strip_spec (default [] (Entry.title e)))
    as (_ & _ & _ & _ & _ & Hth & Htl).
  destruct (strip_spec (default [] (Entry.link e)))
    as (_ & _ & _ & _ & _ & Hlh & Hll).
  repeat (split; [first [reflexivity | assumption]|]).
  split.
  { subst r. unfold make_rec, normalize_summary. cbn [Rec.summary].
    rewrite length_take. lia. }
  pose proof (make_rec_date now f e) as Hd.
  pose proof (make_rec_date_valid now e Hnow) as Hv.
  fold r in Hd. revert Hd Hv.
  generalize (default now
    (or_time (Entry.published_parsed e) (Entry.updated_parsed e) ≫= ist_date)).
  intros d Hd Hv. exists d. rewrite Hd.
  split; [reflexivity|]. split; [exact Hv|]. split.
  - intros Hy. split; [now apply strftime_format|].
    split; [now apply strptime_strftime|].
    unfold within_days, days_between.
    now rewrite (strptime_strftime d Hv Hy).
  - intros Hy. destruct (strftime_short d Hv Hy) as [Hf Hp].
    split; [exact Hf|]. split; [exact Hp|]. now apply within_days_short.
Qed.

Lemma make_rec_invariants_witness :
  let r := make_rec (mkdate 2024 3 15)
             (Feed.mk (chars "PIB") (chars "https://pib.gov.in/rss")
                (chars "Governance"))
             (Entry.mk (Some (chars " Cabinet note ")) None None None
                (Some (mkstruct_time 999 1 1 0 0 0 1 1 0)) None) in
  Rec.feed_name r = chars "PIB" /\
  space_opt (head (Rec.title r)) = false /\
  space_opt (last (Rec.title r)) = false /\
  space_opt (head (Rec.link r)) = false /\
  space_opt (last (Rec.link r)) = false /\
  length (Rec.summary r) <= 450 /\
  exists d,
    Rec.date r = strftime_ymd d /\ valid_date d = true /\
    ((1000 <= year d)%Z ->
     is_ymd_format (Rec.date r) = true /\
     strptime_ymd (Rec.date r) = Some d /\
     within_days (mkdate 2024 3 16) (Rec.date r) 14
       = (toordinal (mkdate 2024 3 16) - toordinal d <=? 14)%Z) /\
    ((year d < 1000)%Z ->
     is_ymd_format (Rec.date r) = false /\
     strptime_ymd (Rec.date r) = None /\
     within_days (mkdate 2024 3 16) (Rec.date r) 14 = true).
Proof.
  apply (make_rec_invariants (mkdate 2024 3 15) (mkdate 2024 3 16)
           (Feed.mk (chars "PIB") (chars "https://pib.gov.in/rss")
              (chars "Governance"))
           (Entry.mk (Some (chars " Cabinet note ")) None None None
              (Some (mkstruct_time 999 1 1 0 0 0 1 1 0)) None)).
  reflexivity.
Defined.

(** X12.  An entry without a timestamp, or with one that does not
    convert, is dated with the day of the run, on every run: it never
    grows old.  Whatever its real age the filter keeps it, as long as the
    day of the filter is no more than 14 days after the day the loader
    read the clock. *)
Theorem undated_entry_is_recent (now today_ist : date) (f : Feed.t)
    (e : Entry.t) (records : list Rec.t) :
  valid_date now = true ->
  or_time (Entry.published_parsed e) (Entry.updated_parsed e) ≫= ist_date
    = None ->
  (toordinal today_ist - toordinal now <= 14)%Z ->
  In (make_rec now f e) records ->
  Rec.date (make_rec now f e) = strftime_ymd now /\
  In (make_rec now f e) (recent today_ist records).
Proof.
  intros Hnow Hnone Hdays Hin.
  pose proof (make_rec_date now f e) as Hd. rewrite Hnone in Hd.
  cbn [default] in Hd. split; [exact Hd|].
  unfold recent. apply filter_In. split; [exact Hin|].
  rewrite Hd. destruct (Z.lt_ge_cases (year now) 1000) as [Hy|Hy].
  - now apply within_days_short.
  - unfold within_days, days_between.
    rewrite (strptime_strftime now Hnow Hy). now apply Z.leb_le.
Qed.

Lemma undated_entry_is_recent_witness :
  let f := Feed.mk (chars "PIB") (chars "https://pib.gov.in/rss")
             (chars "Governance") in
  let e := Entry.mk (Some (chars "Old news")) (Some (chars "https://a/b"))
             None None None
             (Some (mkstruct_time 2019 2 30 10 0 0 0 0 0)) in
  Rec.date (make_rec (mkdate 2024 3 15) f e) = strftime_ymd (mkdate 2024 3 15)
  /\ In (make_rec (mkdate 2024 3 15) f e)
       (recent (mkdate 2024 3 15) [make_rec (mkdate 2024 3 15) f e]).
Proof.
  apply (undated_entry_is_recent (mkdate 2024 3 15) (mkdate 2024 3 15)
           (Feed.mk (chars "PIB") (chars "https://pib.gov.in/rss")
              (chars "Governance"))
           (Entry.mk (Some (chars "Old news")) (Some (chars "https://a/b"))
              None None None
              (Some (mkstruct_time 2019 2 30 10 0 0 0 0 0)))).
  - reflexivity.
  - reflexivity.
  - vm_compute. discriminate.
  - left. reflexivity.
Defined.

(** ** item_id: what the id tells apart *)

(** X13.  The bar between title and link does not keep them apart: when
    a bar stands in a title or in a link, moving what follows it from the
    title to the link gives the same text to hash.  Two records that the
    deduplication holds for different, since their (title, link) pairs
    differ, then get the same id. *)
Theorem item_id_bar_collision (mains_angle : str -> str)
    (check_bracketed_netloc : str -> bool) (a b c : str) (e1 e2 : Rec.t)
    (it1 it2 : Item.t) :
  Rec.title e1 = a ++ chars "|" ++ b -> Rec.link e1 = c ->
  Rec.title e2 = a -> Rec.link e2 = b ++ chars "|" ++ c ->
  make_item mains_angle check_bracketed_netloc e1 = Some it1 ->
  make_item mains_angle check_bracketed_netloc e2 = Some it2 ->
  Item.id it1 = Item.id it2 /\ dedup_key it1 <> dedup_key it2.
Proof.
  intros Ht1 Hl1 Ht2 Hl2 H1 H2.
  apply make_item_fields in H1 as (Hit1 & Hil1 & _ & _ & -> & _).
  apply make_item_fields in H2 as (Hit2 & Hil2 & _ & _ & -> & _).
  split.
  - rewrite Ht1, Hl1, Ht2, Hl2. unfold item_id. cbn [from_option].
    unfold id. now rewrite <- !app_assoc.
  - unfold dedup_key. rewrite Hit1, Hit2, Ht1, Ht2. intros [= H _].
    apply (f_equal length) in H. rewrite !length_app in H. cbn in H. lia.
Qed.

Lemma item_id_bar_collision_witness :
  let e1 := Rec.mk (chars "PIB") (chars "Budget|2024") (chars "x") []
              (chars "2024-03-13") in
  let e2 := Rec.mk (chars "PIB") (chars "Budget") (chars "2024|x") []
              (chars "2024-03-13") in
  exists it1 it2,
    make_item id (fun _ => true) e1 = Some it1 /\
    make_item id (fun _ => true) e2 = Some it2 /\
    Item.id it1 = Item.id it2 /\ dedup_key it1 <> dedup_key it2.
Proof.
  intros e1 e2. eexists. eexists.
  split; [reflexivity|]. split; [reflexivity|].
  apply (item_id_bar_collision id (fun _ => true) (chars "Budget")
           (chars "2024") (chars "x") e1 e2); reflexivity.
Defined.

(** ** prelims_facts and the end of the run *)

Lemma has_char_In c (x : str) : has_char c x = true <-> In c x.
Proof.
  unfold has_char. rewrite existsb_exists. split.
  - intros (a & Ha & Hc). apply ascii_eqb_eq in Hc. now subst.
  - intros H. exists c. split; [exact H|now apply ascii_eqb_eq].
Qed.

Lemma has_char_not_In c (x : str) : has_char c x = false <-> ~ In c x.
Proof.
  rewrite <- has_char_In. destruct (has_char c x); split; congruence.
Qed.

Lemma lstrip_by_In p (x : str) a : In a (lstrip_by p x) -> In a x.
Proof.
  induction x as [|c x IH]; [intros []|].
  cbn [lstrip_by]. destruct (p c); [right; now apply IH|trivial].
Qed.

Lemma split_at_spec c : forall (x pre post : str),
  split_at c x = Some (pre, post) -> x = pre ++ c :: post.
Proof.
  induction x as [|a x IH]; intros pre post; [discriminate|].
  cbn [split_at]. destruct (ascii_eqb a c) eqn:E.
  - apply ascii_eqb_eq in E as ->. now intros [= <- <-].
  - destruct (split_at c x) as [[pre' post']|]; [|discriminate].
    intros [= <- <-]. cbn [app]. f_equal. now apply IH.
Qed.

Lemma drop_scheme_In (x : str) a : In a (drop_scheme x) -> In a x.
Proof.
  unfold drop_scheme.
  destruct (split_at ":" x) as [[[|c pre] post]|] eqn:E; trivial.
  destruct (is_ascii_alpha c && forallb is_scheme_char (c :: pre)); trivial.
  apply split_at_spec in E as ->. intros H.
  apply in_or_app. right. now right.
Qed.

Lemma take_until_In p (x : str) a : In a (take_until p x) -> In a x.
Proof.
  induction x as [|c x IH]; [intros []|].
  cbn [take_until]. destruct (p c); [intros []|].
  intros [->|H]; [now left|right; now apply IH].
Qed.

(** The network location is made of characters of the link, and the
    parse fails only on a link that holds a square bracket. *)
Lemma urlparse_netloc_chars chk (url : str) :
  match urlparse_netloc chk url with
  | Some n => forall a, In a n -> In a url
  | None => In "["%char url \/ In "]"%char url
  end.
Proof.
  unfold urlparse_netloc.
  remember (drop_scheme _) as u eqn:Eu.
  assert (Hu : forall a, In a u -> In a url).
  { intros a H. rewrite Eu in H.
    apply drop_scheme_In, filter_In in H as [H _].
    now apply lstrip_by_In in H. }
  clear Eu. destruct u as [|c1 [|c2 rest]]; [intros a []| |].
  { destruct c1 as [[] [] [] [] [] [] [] []]; intros a []. }
  destruct c1 as [[] [] [] [] [] [] [] []]; try (intros a []).
  destruct c2 as [[] [] [] [] [] [] [] []]; try (intros a []).
  assert (Hn : forall a, In a (take_until is_netloc_end rest) -> In a url).
  { intros a H. apply Hu. right. right. now apply take_until_In in H. }
  destruct (has_char "[" (take_until is_netloc_end rest)) eqn:Hl.
  - apply has_char_In, Hn in Hl.
    repeat match goal with |- match (if ?b then _ else _) with _ => _ end =>
      destruct b end; auto.
  - destruct (has_char "]" (take_until is_netloc_end rest)) eqn:Hr.
    + apply has_char_In, Hn in Hr. cbn [xorb]. auto.
    + cbn [xorb andb]. exact Hn.
Qed.

Lemma sublist_In {A} (x y : list A) a : sublist x y -> In a x -> In a y.
Proof.
  induction 1 as [|c x y _ IH|c x y _ IH]; [trivial| |].
  - intros [->|H]; [now left|right; now apply IH].
  - intros H. right. now apply IH.
Qed.

Lemma make_items_raise mains chk (records : list Rec.t) r :
  In r records -> make_item mains chk r = None ->
  make_items mains chk records = None.
Proof.
  induction records as [|e records IH]; [intros []|].
  intros [->|Hin] Hr; cbn [make_items].
  - now rewrite Hr.
  - destruct (make_item mains chk e); [|reflexivity].
    now rewrite (IH Hin Hr).
Qed.

(** X14.  The run reaches its end and gives its list of items whenever
    no link of an entry holds a square bracket: [urlparse] is then the
    only call outside the [try] block that could raise, and it does not.
    This holds whatever the feeds answer, failures included. *)
Theorem script_completes (mains_angle : str -> str)
    (check_bracketed_netloc : str -> bool) (parse : str -> parse_result)
    (now today_ist : date) (feeds : list Feed.t) :
  (forall f es e l,
     In f feeds -> parse (Feed.url f) = Parsed es -> In e es ->
     Entry.link e = Some l ->
     has_char "[" l = false /\ has_char "]" l = false) ->
  exists items,
    fst (script mains_angle check_bracketed_netloc parse now today_ist feeds)
    = Some items.
Proof.
  intros Hlinks. unfold script, output. cbn [fst].
  destruct (make_items_total mains_angle check_bracketed_netloc
              (recent today_ist (entries (load_feeds now parse feeds))))
    as [items Hitems]; [|rewrite Hitems; eauto].
  apply List.Forall_forall. intros r Hr.
  apply filter_In in Hr as [Hr _].
  rewrite load_feeds_spec in Hr. cbn [entries] in Hr.
  apply in_flat_map in Hr as (f & Hf & Hr). unfold feed_entries in Hr.
  destruct (parse (Feed.url f)) as [|es] eqn:Hp; [destruct Hr|].
  apply in_map_iff in Hr as (e & <- & He).
  pose proof (urlparse_netloc_chars check_bracketed_netloc
                (Rec.link (make_rec now f e))) as Hu.
  destruct (urlparse_netloc _ _) as [n|]; [eexists; reflexivity|].
  exfalso. cbn [make_rec Rec.link] in Hu.
  destruct (Entry.link e) as [l|] eqn:Hl.
  - destruct (Hlinks f es e l Hf Hp He Hl) as [H1 H2].
    apply has_char_not_In in H1, H2.
    destruct Hu as [Hu|Hu];
      apply (sublist_In _ _ _ (strip_sublist _)) in Hu; tauto.
  - destruct Hu as [[]|[]].
Qed.

Lemma script_completes_witness :
  exists items,
    fst (script id (fun _ => true) sample_parse sample_today sample_today
           sample_feeds) = Some items.
Proof.
  apply (script_completes id (fun _ => true) sample_parse sample_today
           sample_today sample_feeds).
  intros f es e l [<-|[<-|[]]] Hp; [discriminate Hp|].
  injection Hp as <-. intros [<-|[]] [= <-]. split; reflexivity.
Defined.

(** X15.  [prelims_facts] is called outside the [try] block: a single
    entry whose link [urlparse] rejects, in a feed that was parsed and
    with a date that passes the filter, ends the whole run with the
    exception, and no item of any feed is written. *)
Theorem bad_link_ends_run (mains_angle : str -> str)
    (check_bracketed_netloc : str -> bool) (parse : str -> parse_result)
    (now today_ist : date) (feeds : list Feed.t) (f : Feed.t)
    (es : list Entry.t) (e : Entry.t) :
  In f feeds -> parse (Feed.url f) = Parsed es -> In e es ->
  urlparse_netloc check_bracketed_netloc (Rec.link (make_rec now f e)) = None ->
  within_days today_ist (Rec.date (make_rec now f e)) 14 = true ->
  fst (script mains_angle check_bracketed_netloc parse now today_ist feeds)
  = None.
Proof.
  intros Hf Hp He Hu Hw. unfold script, output. cbn [fst].
  rewrite (make_items_raise mains_angle check_bracketed_netloc _
             (make_rec now f e)); [reflexivity| |].
  - apply filter_In. split; [|exact Hw].
    rewrite load_feeds_spec. cbn [entries]. apply in_flat_map.
    exists f. split; [exact Hf|]. unfold feed_entries. rewrite Hp.
    now apply in_map.
  - unfold make_item, prelims_facts. now rewrite Hu.
Qed.

Lemma bad_link_ends_run_witness :
  fst (script id (fun _ => true) sample_parse_bad sample_today sample_today
         sample_feeds) = None.
Proof.
  apply (bad_link_ends_run id (fun _ => true) sample_parse_bad sample_today
           sample_today sample_feeds sample_pib
           [ Entry.mk (Some (chars "Cabinet note"))
               (Some (chars "https://pib.gov.in/x")) None None None None;
             Entry.mk (Some (chars "Budget session"))
               (Some (chars "https://[pib.gov.in/y")) None None None None ]
           (Entry.mk (Some (chars "Budget session"))
              (Some (chars "https://[pib.gov.in/y")) None None None None)).
  - right. left. reflexivity.
  - reflexivity.
  - right. left. reflexivity.
  - reflexivity.
  - reflexivity.
Defined.

(** *** The domain line *)

Lemma is_prefix_of_spec (old : str) : forall x : str,
  is_prefix_of old x = true <-> exists post, x = old ++ post.
Proof.
  induction old as [|p old IH]; intros x; cbn [is_prefix_of].
  - split; [eauto|reflexivity].
  - destruct x as [|c x]; [split; [discriminate|intros [? [=]]]|].
    rewrite andb_true_iff, ascii_eqb_eq, IH. split.
    + intros [-> [post ->]]. now exists post.
    + intros [post [= -> ->]]. eauto.
Qed.

Lemma remove_all_skip old (y : str) : forall h : str,
  remove_all old (length y) (y ++ h) = remove_all old 0 h.
Proof. induction y as [|c y IH]; intros h; [reflexivity|apply IH]. Qed.

(** Where [old] does not occur nothing is removed. *)
Lemma remove_all_absent (old x : str) :
  ~ occurs old x -> replace_empty old x = x.
Proof.
  unfold replace_empty. induction x as [|c x IH]; intros Hno; [reflexivity|].
  cbn [remove_all]. destruct (is_prefix_of old (c :: x)) eqn:E.
  - apply is_prefix_of_spec in E as [post E]. destruct Hno.
    exists [], post. exact E.
  - f_equal. apply IH. intros (pre & post & ->). apply Hno.
    now exists (c :: pre), post.
Qed.

(** A leading occurrence is removed. *)
Lemma remove_all_prefix (old h : str) :
  old <> [] -> replace_empty old (old ++ h) = replace_empty old h.
Proof.
  intros Hne. unfold replace_empty. destruct old as [|p old]; [congruence|].
  cbn [app remove_all].
  assert (E : is_prefix_of (p :: old) (p :: old ++ h) = true)
    by (apply is_prefix_of_spec; now exists h).
  rewrite E.
  replace (length (p :: old) - 1) with (length old) by (cbn [length]; lia).
  apply remove_all_skip.
Qed.

Lemma filter_all {A} (p : A -> bool) (x : list A) :
  Forall (fun c => p c = true) x -> List.filter p x = x.
Proof.
  induction 1 as [|c x Hc _ IH]; [reflexivity|].
  cbn [List.filter]. now rewrite Hc, IH.
Qed.

Lemma take_until_app p (x y : str) c :
  Forall (fun a => p a = false) x -> p c = true ->
  take_until p (x ++ c :: y) = x.
Proof.
  intros Hx Hc. induction Hx as [|a x Ha _ IH]; cbn [app take_until].
  - now rewrite Hc.
  - now rewrite Ha, IH.
Qed.

Lemma split_at_app c (pre post : str) :
  ~ In c pre -> split_at c (pre ++ c :: post) = Some (pre, post).
Proof.
  induction pre as [|a pre IH]; intros Hno; cbn [app split_at].
  - assert (E : ascii_eqb c c = true) by now apply ascii_eqb_eq.
    now rewrite E.
  - destruct (ascii_eqb a c) eqn:E.
    + apply ascii_eqb_eq in E. destruct Hno. now left.
    + rewrite IH; [reflexivity|]. intros H. apply Hno. now right.
Qed.

Lemma scheme_char_facts c :
  is_scheme_char c = true ->
  c <> ":"%char /\ is_unsafe_byte c = false.
Proof.
  destruct c as [[] [] [] [] [] [] [] []]; vm_compute;
    intros H; split; congruence.
Qed.

Lemma ascii_alpha_not_space c :
  is_ascii_alpha c = true -> is_c0_or_space c = false.
Proof.
  destruct c as [[] [] [] [] [] [] [] []]; vm_compute; congruence.
Qed.

Lemma host_char_facts c :
  host_char c = true ->
  is_netloc_end c = false /\ is_unsafe_byte c = false /\
  c <> "["%char /\ c <> "]"%char.
Proof.
  destruct c as [[] [] [] [] [] [] [] []]; vm_compute;
    intros H; repeat split; congruence.
Qed.

(** The network location of [scheme://host/path]. *)
Lemma urlparse_netloc_url chk (scheme host path : str) :
  is_scheme scheme = true ->
  Forall (fun c => host_char c = true) host ->
  urlparse_netloc chk (scheme ++ chars "://" ++ host ++ "/"%char :: path)
  = Some host.
Proof.
  intros Hs Hh. unfold urlparse_netloc.
  destruct scheme as [|c0 scheme]; [discriminate Hs|].
  cbn [is_scheme] in Hs. apply andb_true_iff in Hs as [Hc0 Hs].
  assert (Hsch : Forall (fun c => c <> ":"%char /\ is_unsafe_byte c = false)
                   (c0 :: scheme)).
  { rewrite forallb_forall in Hs. apply List.Forall_forall.
    intros c Hc. now apply scheme_char_facts, Hs. }
  assert (Hhost : Forall (fun c => is_netloc_end c = false /\
                            is_unsafe_byte c = false /\
                            c <> "["%char /\ c <> "]"%char) host).
  { eapply Forall_impl; [exact Hh|]. apply host_char_facts. }
  assert (E1 : lstrip_by is_c0_or_space
                 ((c0 :: scheme) ++ chars "://" ++ host ++ "/"%char :: path)
               = (c0 :: scheme) ++ chars "://" ++ host ++ "/"%char :: path).
  { cbn [app lstrip_by]. now rewrite (ascii_alpha_not_space _ Hc0). }
  rewrite E1. rewrite !List.filter_app.
  rewrite (filter_all _ (c0 :: scheme)), (filter_all _ host).
  2:{ eapply Forall_impl; [exact Hhost|]. cbn beta.
      intros c (_ & -> & _). reflexivity. }
  2:{ eapply Forall_impl; [exact Hsch|]. cbn beta.
      intros c (_ & ->). reflexivity. }
  change (List.filter _ (chars "://")) with (chars "://").
  change (List.filter (fun c => negb (is_unsafe_byte c)) ("/"%char :: path))
    with ("/"%char :: List.filter (fun c => negb (is_unsafe_byte c)) path).
  set (rest := List.filter _ path).
  assert (E2 : drop_scheme
                 ((c0 :: scheme) ++ chars "://" ++ host ++ "/"%char :: rest)
               = "/"%char :: "/"%char :: host ++ "/"%char :: rest).
  { unfold drop_scheme.
    change ((c0 :: scheme) ++ chars "://" ++ host ++ "/"%char :: rest)
      with ((c0 :: scheme) ++
            ":"%char :: "/"%char :: "/"%char :: host ++ "/"%char :: rest).
    rewrite split_at_app.
    - now rewrite Hc0, Hs.
    - intros Hin. rewrite List.Forall_forall in Hsch.
      now destruct (Hsch _ Hin). }
  rewrite E2. cbv iota beta.
  rewrite (take_until_app is_netloc_end host rest "/"%char);
    [|eapply Forall_impl; [exact Hhost|]; cbn beta; tauto|reflexivity].
  assert (Hl : has_char "[" host = false).
  { apply has_char_not_In. intros Hin.
    rewrite List.Forall_forall in Hhost. now destruct (Hhost _ Hin) as (_ & _ & ? & _). }
  assert (Hr : has_char "]" host = false).
  { apply has_char_not_In. intros Hin.
    rewrite List.Forall_forall in Hhost. now destruct (Hhost _ Hin) as (_ & _ & _ & ?). }
  now rewrite Hl, Hr.
Qed.

Lemma occursb_spec (old x : str) : occursb old x = true <-> occurs old x.
Proof.
  induction x as [|c x IH]; cbn [occursb]; rewrite orb_true_iff.
  - rewrite is_prefix_of_spec. split.
    + intros [[post H]|H]; [|discriminate]. now exists [], post.
    + intros (pre & post & H). left.
      destruct pre; [now exists post|discriminate].
  - rewrite IH, is_prefix_of_spec. split.
    + intros [[post H]|(pre & post & ->)]; [now exists [], post|].
      now exists (c :: pre), post.
    + intros ([|a pre] & post & H); [left; now exists post|].
      right. injection H as _ ->. now exists pre, post.
Qed.

(** X16.  For a link of the form scheme://host/path, the third line of
    [prelims_facts] names the host: as it stands when [www.] does not
    occur in it, and without its leading [www.] when that is the only
    occurrence. *)
Theorem prelims_facts_domain (chk : str -> bool) (entry : Rec.t)
    (date_str scheme host path : str) :
  is_scheme scheme = true ->
  Forall (fun c => host_char c = true) host ->
  Rec.link entry = scheme ++ chars "://" ++ host ++ "/"%char :: path ->
  (host <> [] -> ~ occurs (chars "www.") host ->
   prelims_facts chk entry date_str
   = Some [chars "Source: " ++ Rec.feed_name entry;
           chars "Date: " ++ date_str; chars "Domain: " ++ host]) /\
  (forall h, host = chars "www." ++ h -> h <> [] ->
     ~ occurs (chars "www.") h ->
     prelims_facts chk entry date_str
     = Some [chars "Source: " ++ Rec.feed_name entry;
             chars "Date: " ++ date_str; chars "Domain: " ++ h]).
Proof.
  intros Hs Hh Hl. unfold prelims_facts.
  rewrite Hl, (urlparse_netloc_url chk scheme host path Hs Hh). split.
  - intros Hne Hno. rewrite (remove_all_absent _ _ Hno).
    destruct host; [congruence|reflexivity].
  - intros h -> Hne Hno.
    rewrite remove_all_prefix by discriminate.
    rewrite (remove_all_absent _ _ Hno).
    destruct h; [congruence|reflexivity].
Qed.

Lemma prelims_facts_domain_witness :
  prelims_facts (fun _ => true)
    (Rec.mk (chars "PIB") (chars "Cabinet note")
       (chars "https://www.pib.gov.in/x?id=1") [] (chars "2024-03-13"))
    (chars "2024-03-13")
  = Some [chars "Source: PIB"; chars "Date: 2024-03-13";
          chars "Domain: pib.gov.in"].
Proof.
  destruct (prelims_facts_domain (fun _ => true)
              (Rec.mk (chars "PIB") (chars "Cabinet note")
                 (chars "https://www.pib.gov.in/x?id=1") []
                 (chars "2024-03-13"))
              (chars "2024-03-13") (chars "https") (chars "www.pib.gov.in")
              (chars "x?id=1") eq_refl) as [_ H];
    [repeat constructor|reflexivity|].
  apply (H (chars "pib.gov.in")); [reflexivity|discriminate|].
  intros Ho. apply occursb_spec in Ho. discriminate Ho.
Defined.

(** X17.  A link without a slash (an entry without a link, which gets
    the empty string, among them) has no network location: the facts are
    the two lines of source and date, whatever else the link holds. *)
Theorem prelims_facts_no_slash (chk : str -> bool) (entry : Rec.t)
    (date_str : str) :
  has_char "/" (Rec.link entry) = false ->
  urlparse_netloc chk (Rec.link entry) = Some [] /\
  prelims_facts chk entry date_str
  = Some [chars "Source: " ++ Rec.feed_name entry;
          chars "Date: " ++ date_str].
Proof.
  intros Hno. apply has_char_not_In in Hno.
  assert (E : urlparse_netloc chk (Rec.link entry) = Some []).
  { revert Hno. generalize (Rec.link entry). intros url Hno.
    unfold urlparse_netloc.
    remember (drop_scheme _) as u eqn:Eu.
    assert (Hu : forall a, In a u -> In a url).
    { intros a H. rewrite Eu in H.
      apply drop_scheme_In, filter_In in H as [H _].
      now apply lstrip_by_In in H. }
    clear Eu. destruct u as [|c1 [|c2 rest]]; [reflexivity| |].
    { destruct c1 as [[] [] [] [] [] [] [] []]; reflexivity. }
    destruct c1 as [[] [] [] [] [] [] [] []]; try reflexivity.
    destruct Hno. apply Hu. now left. }
  split; [exact E|]. unfold prelims_facts. now rewrite E.
Qed.

Lemma prelims_facts_no_slash_witness :
  urlparse_netloc (fun _ => true) [] = Some [] /\
  prelims_facts (fun _ => true)
    (Rec.mk (chars "PIB") (chars "Cabinet note") [] [] (chars "2024-03-13"))
    (chars "2024-03-13")
  = Some [chars "Source: PIB"; chars "Date: 2024-03-13"].
Proof.
  apply (prelims_facts_no_slash (fun _ => true)
           (Rec.mk (chars "PIB") (chars "Cabinet note") [] []
              (chars "2024-03-13")) (chars "2024-03-13")).
  reflexivity.
Defined.

(** ** The sort: what fixes the order *)

Lemma key_ge_antisym (k1 k2 : sort_key_t) :
  key_ge k1 k2 -> key_ge k2 k1 -> k1 = k2.
Proof.
  unfold key_ge. intros H12 H21.
  destruct (trichotomyT lexico k1 k2) as [[H|H]|H]; tauto.
Qed.

Lemma NoDup_fmap_eq {A B} (g : A -> B) (l : list A) x y :
  NoDup (g <$> l) -> x ∈ l -> y ∈ l -> g x = g y -> x = y.
Proof.
  induction l as [|a l IH]; [intros _ H; inversion H|].
  rewrite fmap_cons, NoDup_cons, !elem_of_cons.
  intros [Ha Hl] [->|Hx] [->|Hy] Heq; [reflexivity| | |now apply IH].
  - destruct Ha. rewrite Heq. now apply list_elem_of_fmap_2.
  - destruct Ha. rewrite <- Heq. now apply list_elem_of_fmap_2.
Qed.

(** Where the keys are pairwise distinct there is one sorted list. *)
Lemma sort_items_unique (l1 l2 : list Item.t) :
  l1 ≡ₚ l2 -> NoDup (sort_key <$> l1) ->
  sort_items l1 = sort_items l2.
Proof.
  intros Hp Hnd.
  apply (StronglySorted_unique_strong before).
  - intros x1 x2 H1 H2 H12 H21.
    rewrite sort_items_Permutation in H1, H2. rewrite <- Hp in H2.
    apply (NoDup_fmap_eq sort_key l1 x1 x2 Hnd H1 H2).
    now apply key_ge_antisym.
  - apply sort_items_sorted.
  - apply sort_items_sorted.
  - now rewrite !sort_items_Permutation.
Qed.

(** ** The run as a whole *)

(** X19.  When every feed fails the run still reaches its end: there is
    no record, the list written is empty, and [stderr] holds one warning
    per feed, in the order of the feeds. *)
Theorem all_feeds_fail (mains_angle : str -> str)
    (check_bracketed_netloc : str -> bool) (parse : str -> parse_result)
    (now today_ist : date) (feeds : list Feed.t) :
  (forall f, In f feeds -> exists ex, parse (Feed.url f) = Raised ex) ->
  let run := script mains_angle check_bracketed_netloc parse now today_ist
               feeds in
  fst run = Some [] /\
  Forall2 (fun f w => exists ex,
             parse (Feed.url f) = Raised ex /\
             w = chars "[WARN] Failed " ++ Feed.name f ++ chars ": " ++ ex)
    feeds (snd run).
Proof.
  intros Hall. cbv zeta. unfold script. cbn [fst snd].
  rewrite load_feeds_spec. cbn [entries stderr].
  assert (He : flat_map (feed_entries now parse) feeds = []).
  { induction feeds as [|f feeds IH]; [reflexivity|]. cbn [flat_map].
    rewrite IH by (intros g Hg; apply Hall; now right).
    destruct (Hall f (or_introl eq_refl)) as [ex Hex].
    unfold feed_entries. now rewrite Hex. }
  rewrite He. split; [reflexivity|].
  induction feeds as [|f feeds IH]; [constructor|].
  cbn [flat_map]. destruct (Hall f (or_introl eq_refl)) as [ex Hex].
  unfold feed_warnings at 1. rewrite Hex. cbn [app].
  constructor; [exists ex; split; [exact Hex|reflexivity]|].
  apply IH.
  - intros g Hg. apply Hall. now right.
  - cbn [flat_map] in He. now apply app_eq_nil in He as [_ He].
Qed.

Lemma all_feeds_fail_witness :
  let run := script id (fun _ => true) (fun _ => Raised (chars "timed out"))
               sample_today sample_today FEEDS in
  fst run = Some [] /\
  Forall2 (fun f w => exists ex,
             (fun _ : str => Raised (chars "timed out")) (Feed.url f)
             = Raised ex /\
             w = chars "[WARN] Failed " ++ Feed.name f ++ chars ": " ++ ex)
    FEEDS (snd run).
Proof.
  apply (all_feeds_fail id (fun _ => true)
           (fun _ => Raised (chars "timed out")) sample_today sample_today
           FEEDS).
  intros f _. exists (chars "timed out"). reflexivity.
Defined.

(** An item of the output comes from a record that passed the filter. *)
Lemma output_origin mains chk today_ist records items it :
  output mains chk today_ist records = Some items -> In it items ->
  exists r, In r records /\ within_days today_ist (Rec.date r) 14 = true /\
            make_item mains chk r = Some it.
Proof.
  unfold output.
  destruct (make_items mains chk (recent today_ist records))
    as [produced|] eqn:E; [|discriminate].
  intros [= <-] Hin. apply list_elem_of_In in Hin.
  rewrite sort_items_Permutation in Hin.
  rewrite dedup_firsts in Hin. apply list_elem_of_In in Hin.
  apply (sublist_In _ _ _ (firsts_sublist produced ∅)) in Hin.
  apply make_items_Forall2 in E.
  apply list_elem_of_In, list_elem_of_lookup in Hin as [i Hi].
  destruct (Forall2_lookup_r _ _ _ _ _ E Hi) as (r & Hr & Hmk).
  exists r. apply list_elem_of_lookup_2, list_elem_of_In in Hr.
  unfold recent in Hr. apply filter_In in Hr as [Hr Hw]. auto.
Qed.

(** X20.  Nothing is written that the pipeline did not build: every item
    of the output is the item of a record that passed the filter, with
    the title, link, date and summary of that record, the name of its
    feed as source, the category of [classify], an empty list of tags and
    two or three lines of facts.  There are no more items than
    records. *)
Theorem output_sound (mains_angle : str -> str)
    (check_bracketed_netloc : str -> bool) (today_ist : date)
    (records : list Rec.t) (items : list Item.t) :
  output mains_angle check_bracketed_netloc today_ist records = Some items ->
  length items <= length records /\
  forall it, In it items ->
    exists r,
      In r records /\ within_days today_ist (Rec.date r) 14 = true /\
      Item.title it = Rec.title r /\ Item.link it = Rec.link r /\
      Item.date it = Rec.date r /\ Item.summary it = Rec.summary r /\
      Item.source it = Rec.feed_name r /\
      Item.category it
        = classify (Rec.title r) (Rec.summary r) (Rec.feed_name r) /\
      Item.why it = chars "Mains angle: " ++ mains_angle (Item.category it) /\
      Item.tags it = [] /\
      (length (Item.prelims it) = 2 \/ length (Item.prelims it) = 3).
Proof.
  intros Hout. split.
  - revert Hout. unfold output.
    destruct (make_items _ _ (recent today_ist records)) as [produced|] eqn:E;
      [|discriminate].
    intros [= <-]. rewrite sort_items_Permutation, dedup_firsts.
    etransitivity; [apply sublist_length, firsts_sublist|].
    apply make_items_Forall2, Forall2_length in E. rewrite <- E.
    unfold recent. apply filter_length_le.
  - intros it Hin.
    destruct (output_origin _ _ _ _ _ _ Hout Hin) as (r & Hr & Hw & Hmk).
    exists r. split; [exact Hr|]. split; [exact Hw|].
    unfold make_item in Hmk.
    destruct (prelims_facts check_bracketed_netloc r (Rec.date r))
      as [facts|] eqn:Hf; [|discriminate].
    injection Hmk as <-. cbn. repeat (split; [reflexivity|]).
    unfold prelims_facts in Hf.
    destruct (urlparse_netloc _ _) as [n|]; [|discriminate].
    destruct (replace_empty (chars "www.") n); injection Hf as <-; auto.
Qed.

Lemma output_sound_witness :
  length sample_items <= length sample_recs /\
  forall it, In it sample_items ->
    exists r,
      In r sample_recs /\ within_days sample_today (Rec.date r) 14 = true /\
      Item.title it = Rec.title r /\ Item.link it = Rec.link r /\
      Item.date it = Rec.date r /\ Item.summary it = Rec.summary r /\
      Item.source it = Rec.feed_name r /\
      Item.category it
        = classify (Rec.title r) (Rec.summary r) (Rec.feed_name r) /\
      Item.why it = chars "Mains angle: " ++ (fun _ => []) (Item.category it) /\
      Item.tags it = [] /\
      (length (Item.prelims it) = 2 \/ length (Item.prelims it) = 3).
Proof.
  apply (output_sound (fun _ => []) (fun _ => true) sample_today sample_recs
           sample_items).
  apply sample_output.
Defined.

(** X21.  The window of 14 days holds for everything the script writes
    with a date in year 1000 or later: such an item has a date of the
    shape YYYY-MM-DD, of a day of the calendar that lies at most 14 days
    before the day of the filter.  The only other items written are those
    whose day lies in a year below 1000: their date is not of that shape,
    [strptime] does not read it, and they got through on the branch of
    [within_days] that keeps what it cannot read. *)
Theorem script_output_recent (mains_angle : str -> str)
    (check_bracketed_netloc : str -> bool) (parse : str -> parse_result)
    (now today_ist : date) (feeds : list Feed.t) (items : list Item.t)
    (it : Item.t) :
  valid_date now = true ->
  fst (script mains_angle check_bracketed_netloc parse now today_ist feeds)
  = Some items ->
  In it items ->
  exists d,
    Item.date it = strftime_ymd d /\ valid_date d = true /\
    (((1000 <= year d)%Z /\
      is_ymd_format (Item.date it) = true /\
      (toordinal today_ist - toordinal d <= 14)%Z) \/
     ((year d < 1000)%Z /\
      is_ymd_format (Item.date it) = false /\
      strptime_ymd (Item.date it) = None)).
Proof.
  intros Hnow Hout Hin. unfold script in Hout. cbn [fst] in Hout.
  destruct (output_origin _ _ _ _ _ _ Hout Hin) as (r & Hr & Hw & Hmk).
  apply make_item_fields in Hmk as (_ & _ & Hd & _).
  rewrite load_feeds_spec in Hr. cbn [entries] in Hr.
  apply in_flat_map in Hr as (f & _ & Hr). unfold feed_entries in Hr.
  destruct (parse (Feed.url f)) as [|es]; [destruct Hr|].
  apply in_map_iff in Hr as (e & <- & _).
  rewrite make_rec_date in Hd, Hw.
  pose proof (make_rec_date_valid now e Hnow) as Hv.
  revert Hd Hw Hv.
  generalize (default now
    (or_time (Entry.published_parsed e) (Entry.updated_parsed e) ≫= ist_date)).
  intros d Hd Hw Hv. exists d. rewrite Hd.
  split; [reflexivity|]. split; [exact Hv|].
  destruct (Z.lt_ge_cases (year d) 1000) as [Hy|Hy].
  - right. destruct (strftime_short d Hv Hy) as [Hf Hp]. auto.
  - left. split; [exact Hy|]. split; [now apply strftime_format|].
    unfold within_days, days_between in Hw.
    rewrite (strptime_strftime d Hv Hy) in Hw. now apply Z.leb_le.
Qed.

Lemma script_output_recent_witness :
  Forall (fun it => exists d,
            Item.date it = strftime_ymd d /\ valid_date d = true /\
            (((1000 <= year d)%Z /\
              is_ymd_format (Item.date it) = true /\
              (toordinal sample_today - toordinal d <= 14)%Z) \/
             ((year d < 1000)%Z /\
              is_ymd_format (Item.date it) = false /\
              strptime_ymd (Item.date it) = None)))
    sample_run_items.
Proof.
  apply List.Forall_forall. intros it Hin.
  apply (script_output_recent (fun _ => []) (fun _ => true) sample_parse
           sample_today sample_today sample_feeds sample_run_items it).
  - reflexivity.
  - vm_compute. reflexivity.
  - exact Hin.
Defined.

(** ** The deduplication: when it changes nothing *)

Lemma firsts_distinct items : forall seen,
  NoDup (dedup_key <$> items) ->
  (forall it, it ∈ items -> dedup_key it ∉ seen) ->
  firsts seen items = items.
Proof.
  induction items as [|a items IH]; intros seen Hnd Hseen; [reflexivity|].
  rewrite fmap_cons, NoDup_cons in Hnd. destruct Hnd as [Ha Hnd].
  cbn [firsts].
  destruct (decide (dedup_key a ∈ seen)) as [Hin|_].
  - destruct (Hseen a); [left|exact Hin].
  - f_equal. apply IH; [exact Hnd|].
    intros it Hit. apply not_in_add. split.
    + intros Heq. apply Ha. rewrite <- Heq. now apply list_elem_of_fmap_2.
    + apply Hseen. now right.
Qed.

(** X22.  The deduplication leaves a list as it is exactly when its
    (title, link) pairs are pairwise distinct; in particular a second
    pass over its own result changes nothing. *)
Theorem dedup_fixed_point (items : list Item.t) :
  (dedup items = items <-> NoDup (dedup_key <$> items)) /\
  dedup (dedup items) = dedup items.
Proof.
  assert (H : forall l, NoDup (dedup_key <$> l) -> dedup l = l).
  { intros l Hnd. rewrite dedup_firsts.
    apply firsts_distinct; [exact Hnd|].
    intros it _. apply not_elem_of_empty. }
  split; [split; [|apply H]|].
  - intros Heq. rewrite <- Heq, dedup_firsts. apply firsts_NoDup.
  - apply H. rewrite dedup_firsts. apply firsts_NoDup.
Qed.

(** ** Two more edges of the loader *)

(** X23.  [published_parsed or updated_parsed] takes the first timestamp
    that is there, not the first that converts: when the entry has a
    [published_parsed] that does not convert, its [updated_parsed] is not
    looked at and the record is dated with the day of the run. *)
Theorem broken_published_hides_updated (now : date) (f : Feed.t)
    (e : Entry.t) (t : struct_time) :
  Entry.published_parsed e = Some t -> ist_date t = None ->
  Rec.date (make_rec now f e) = strftime_ymd now.
Proof.
  intros Hp Ht. rewrite make_rec_date, Hp. cbn. now rewrite Ht.
Qed.

Lemma broken_published_hides_updated_witness :
  Rec.date
    (make_rec (mkdate 2024 3 15) sample_pib
       (Entry.mk (Some (chars "Cabinet note")) None None None
          (Some (mkstruct_time 2024 3 10 12 0 60 6 70 0))
          (Some (mkstruct_time 2024 3 10 12 0 59 6 70 0))))
  = strftime_ymd (mkdate 2024 3 15).
Proof.
  apply (broken_published_hides_updated (mkdate 2024 3 15) sample_pib
           (Entry.mk (Some (chars "Cabinet note")) None None None
              (Some (mkstruct_time 2024 3 10 12 0 60 6 70 0))
              (Some (mkstruct_time 2024 3 10 12 0 59 6 70 0)))
           (mkstruct_time 2024 3 10 12 0 60 6 70 0)); reflexivity.
Defined.

Lemma strip_tags_double_lt (rest : str) :
  strip_tags ("<"%char :: "<"%char :: rest)
  = "<"%char :: strip_tags ("<"%char :: rest).
Proof.
  unfold strip_tags, re_sub_empty.
  change (sub_scan tag_pattern 0 None ("<"%char :: "<"%char :: rest))
    with (match match_len false tag_pattern None
                  ("<"%char :: "<"%char :: rest) with
          | Some (S k) => sub_scan tag_pattern k (Some "<"%char)
                            ("<"%char :: rest)
          | _ => "<"%char :: sub_scan tag_pattern 0 (Some "<"%char)
                               ("<"%char :: rest)
          end).
  assert (E : match_len false tag_pattern None
                ("<"%char :: "<"%char :: rest) = None).
  { unfold match_len, match_at. now rewrite run_tag_lt. }
  rewrite E. f_equal; apply sub_scan_prev.
Qed.

(** X24.  The removal of tags is one pass and its result can hold a tag
    again: from [<<x>body>] the inner [<x>] is removed and [<body>] is
    what stays, for every body without [<] and [>].  The stored summary
    is therefore not free of markup. *)
Theorem strip_tags_leaves_tag (body : str) :
  no_lt body -> no_gt body ->
  strip_tags (chars "<<x>" ++ body ++ chars ">")
  = chars "<" ++ body ++ chars ">".
Proof.
  intros Hlt Hgt.
  change (chars "<<x>" ++ body ++ chars ">")
    with ("<"%char :: "<"%char :: chars "x" ++ ">"%char :: body ++ chars ">").
  rewrite strip_tags_double_lt.
  rewrite (strip_tags_tag (chars "x") (body ++ chars ">"));
    [|discriminate|repeat constructor; discriminate
     |repeat constructor; discriminate].
  rewrite <- (app_nil_r (body ++ chars ">")).
  rewrite strip_tags_plain; [reflexivity|].
  apply Forall_app_2; [exact Hlt|repeat constructor; discriminate].
Qed.

Lemma strip_tags_leaves_tag_witness :
  strip_tags (chars "<<x>" ++ chars "script" ++ chars ">")
  = chars "<" ++ chars "script" ++ chars ">".
Proof.
  apply (strip_tags_leaves_tag (chars "script"));
    repeat constructor; discriminate.
Defined.

(** ** The order of the records *)

Lemma filter_Permutation_list {A} (p : A -> bool) (l1 l2 : list A) :
  l1 ≡ₚ l2 -> List.filter p l1 ≡ₚ List.filter p l2.
Proof.
  induction 1 as [|x l1 l2 _ IH|x y l|l1 l2 l3 _ IH1 _ IH2].
  - reflexivity.
  - cbn [List.filter]. destruct (p x); [now constructor|exact IH].
  - cbn [List.filter]. destruct (p x), (p y);
      first [apply Permutation_swap | reflexivity].
  - now transitivity (List.filter p l2).
Qed.

Lemma filter_fmap_NoDup {A B} `{EqDecision B} (g : A -> B) (p : A -> bool)
    (l : list A) :
  NoDup (g <$> l) -> NoDup (g <$> List.filter p l).
Proof.
  induction l as [|x l IH]; [trivial|].
  rewrite fmap_cons, NoDup_cons. intros [Hx Hl]. cbn [List.filter].
  destruct (p x); [|now apply IH].
  rewrite fmap_cons, NoDup_cons. split; [|now apply IH].
  intros Hin. apply Hx. apply list_elem_of_fmap in Hin as (y & -> & Hy).
  apply list_elem_of_fmap_2. apply list_elem_of_In in Hy.
  apply filter_In in Hy as [Hy _]. now apply list_elem_of_In.
Qed.

(** The items loop on a rearranged list: it raises on both lists or on
    none, and then gives the same items, rearranged. *)
Lemma make_items_Permutation mains chk (l1 l2 : list Rec.t) :
  l1 ≡ₚ l2 ->
  match make_items mains chk l1, make_items mains chk l2 with
  | Some a, Some b => a ≡ₚ b
  | None, None => True
  | _, _ => False
  end.
Proof.
  induction 1 as [|x l1 l2 _ IH|x y l|l1 l2 l3 _ IH1 _ IH2].
  - cbn [make_items]. reflexivity.
  - cbn [make_items]. destruct (make_item mains chk x); [|exact I].
    destruct (make_items mains chk l1), (make_items mains chk l2);
      first [contradiction | exact I | now constructor].
  - cbn [make_items].
    destruct (make_item mains chk x), (make_item mains chk y),
      (make_items mains chk l); first [apply Permutation_swap | exact I].
  - destruct (make_items mains chk l1), (make_items mains chk l2),
      (make_items mains chk l3);
      first [contradiction | exact I
            | etransitivity; [exact IH1|exact IH2]].
Qed.

Lemma make_items_keys mains chk (l : list Rec.t) : forall items,
  make_items mains chk l = Some items ->
  dedup_key <$> items = rec_key <$> l /\
  sort_key <$> items = rec_sort_key <$> l.
Proof.
  intros items H. apply make_items_Forall2 in H.
  induction H as [|r it l items Hmk _ [IH1 IH2]]; [split; reflexivity|].
  apply make_item_fields in Hmk as (Ht & Hl & Hd & Hc & _).
  rewrite !fmap_cons, IH1, IH2. unfold dedup_key, rec_key, sort_key,
    rec_sort_key. now rewrite Ht, Hl, Hd, Hc.
Qed.

(** X18.  When no two records have the same (title, link) and no two have
    the same date, category and title, what is written does not depend on
    the order of the records: the feeds and their entries may be read in
    any order, and the run gives the same list, in the same order, or ends
    with the exception in both cases. *)
Theorem output_order_independent (mains_angle : str -> str)
    (check_bracketed_netloc : str -> bool) (today_ist : date)
    (records1 records2 : list Rec.t) :
  records1 ≡ₚ records2 ->
  NoDup (rec_key <$> records1) -> NoDup (rec_sort_key <$> records1) ->
  output mains_angle check_bracketed_netloc today_ist records1
  = output mains_angle check_bracketed_netloc today_ist records2.
Proof.
  intros Hp Hk Hs. unfold output, recent.
  set (p := fun e : Rec.t => within_days today_ist (Rec.date e) 14).
  pose proof (make_items_Permutation mains_angle check_bracketed_netloc _ _
                (filter_Permutation_list p _ _ Hp)) as Hm.
  pose proof (filter_fmap_NoDup rec_key p _ Hk) as Hk'.
  pose proof (filter_fmap_NoDup rec_sort_key p _ Hs) as Hs'.
  destruct (make_items _ _ (List.filter p records1)) as [i1|] eqn:E1,
    (make_items _ _ (List.filter p records2)) as [i2|] eqn:E2;
    [|contradiction|contradiction|reflexivity].
  destruct (make_items_keys _ _ _ _ E1) as [K1 S1].
  rewrite <- K1 in Hk'. rewrite <- S1 in Hs'. f_equal.
  assert (D1 : dedup i1 = i1).
  { rewrite dedup_firsts. apply firsts_distinct; [exact Hk'|].
    intros it _. apply not_elem_of_empty. }
  assert (D2 : dedup i2 = i2).
  { rewrite dedup_firsts. apply firsts_distinct.
    - now rewrite <- Hm.
    - intros it _. apply not_elem_of_empty. }
  rewrite D1, D2. now apply sort_items_unique.
Qed.

Lemma output_order_independent_witness :
  let a := Rec.mk (chars "PIB") (chars "RBI hikes repo rate by 25 bps")
             (chars "https://pib.gov.in/x") [] (chars "2024-03-13") in
  let b := Rec.mk (chars "PIB") (chars "Cabinet approves Bill")
             (chars "https://www.pib.gov.in/y") [] (chars "2024-03-14") in
  output (fun _ => []) (fun _ => true) sample_today [a; b]
  = output (fun _ => []) (fun _ => true) sample_today [b; a].
Proof.
  intros a b.
  apply (output_order_independent (fun _ => []) (fun _ => true) sample_today
           [a; b] [b; a]).
  - apply Permutation_swap.
  - apply (bool_decide_unpack _). vm_compute. reflexivity.
  - apply (bool_decide_unpack _). vm_compute. reflexivity.
Defined.
